(** * The fleet-coordination engine of the [aban] plugin (src/aban/main.py)

    The plugin applies one moderation action across every group the account
    administers.  Its functions are [async] coroutines that run on one
    asyncio event loop: a coroutine runs without interruption until it
    awaits a remote call, a busy lock or semaphore, a sleep or a gather.

    The embedding follows that structure.  Coroutines are terms of a small
    free monad whose nodes are the suspension points and the accesses to the
    shared state ([task] for the coroutines that are spawned, [coro] for the
    ones that spawn them); the source functions are written in it with the
    source's names; a scheduler steps the coroutines of a system one
    suspension point at a time, the order being chosen by a schedule and the
    replies of Telegram by an oracle indexed by the number of replies given
    so far. *)

From stdpp Require Import gmap strings list pretty.
From Stdlib Require Import ZArith Lia.

Local Open Scope Z_scope.

(** ** Data model *)

(** [{"id": dialog.id, "title": dialog.title}], an administered group. *)
Record Scope := mkScope { scope_id : Z; scope_title : string }.

(** A Telethon entity (a user, or a channel acting as one): the attributes
    the plugin reads.  [access_hash] is [None] when the attribute is absent
    or [None]; [broadcast] is [false] when absent. *)
Record Entity := mkEntity {
  ent_id : Z;
  ent_access_hash : option Z;
  ent_broadcast : bool
}.

(** A dialog as yielded by [client.iter_dialogs()]. *)
Record Dialog := mkDialog {
  dialog_id : Z;
  dialog_title : string;
  is_group : bool;
  is_channel : bool
}.

(** [ChatBannedRights(until_date, view_messages, send_messages, ...)];
    [media_flags] stands for the six remaining send_* / embed_links flags,
    which the plugin only ever sets together. *)
Record ChatBannedRights := mkRights {
  until_date : option Z;
  view_messages : bool;
  send_messages : bool;
  media_flags : bool
}.

(** [part.participant.admin_rights], of which only [ban_users] is read. *)
Record ChatAdminRights := mkAdminRights { ban_users : bool }.

(** The result of [GetParticipantRequest]: [participant.admin_rights],
    [participant.peer.channel_id] ([None] when [participant] has no [peer] or
    the peer no [channel_id]) and the [users] list. *)
Record ChannelParticipant := mkParticipant {
  admin_rights : option ChatAdminRights;
  peer_channel_id : option Z;
  users : list Entity
}.

(** What the plugin passes as the participant of a request: a bare id, a
    resolved entity, or an input peer built from an id and an access hash. *)
Inductive peer :=
| PeerId (id : Z)
| PeerEntity (e : Entity)
| InputPeerUser (id hash : Z)
| InputPeerChannel (id hash : Z).

(** The argument of [safe_get_entity], by the test the function applies to
    [str(target)]: it starts with "@", or it is digits after [lstrip("-")]
    (every [int] is), or neither. *)
Inductive target :=
| TargetName (s : string)
| TargetId (id : Z)
| TargetOther (s : string).

(** Python exceptions.  [Error] stands for the instances of [Exception];
    [CancelledError] derives from [BaseException] and passes through
    [except Exception]. *)
Inductive exn :=
| Error (msg : string)
| CancelledError.

(** The remote calls (the awaits on the Telethon client).
    [IterParticipantsNext chat limit pos] is the await of the element at
    position [pos] of [client.iter_participants(chat, limit=limit)]. *)
Inductive request :=
| GetMe
| IterDialogs
| GetEntity (t : target)
| GetParticipantRequest (channel : Z) (participant : Z)
| EditBannedRequest (channel : Z) (participant : peer) (banned_rights : ChatBannedRights)
| DeleteParticipantHistoryRequest (channel : Z) (participant : peer)
| IterParticipantsNext (channel : Z) (limit : nat) (pos : nat).

(** What Telegram answers: a value, the end of an iteration, or an error
    that Telethon raises at the await as an [Exception]. *)
Inductive response :=
| ROk
| REntity (e : Entity)
| RDialogs (ds : list Dialog)
| RParticipant (p : ChannelParticipant)
| RStop
| RError (msg : string).

(** What an await resumes with: the answer, or the cancellation of the
    awaiting task ([CancelledError] raised at the await). *)
Inductive reply :=
| Answer (r : response)
| Cancelled.

(** The result of a finished coroutine, as [asyncio.gather] with
    [return_exceptions=True] reports it. *)
Inductive outcome (A : Type) :=
| Returned (a : A)
| Raised (e : exn).
Arguments Returned {A} a.
Arguments Raised {A} e.

(** What an execution leaves behind for an observer: the remote calls in the
    order they were issued, and the lines written to the log.  A line is
    recorded by the fixed part of its text: the values that the source
    interpolates into it (the exception, a count, an id) are left out. *)
Inductive event :=
| Request (q : request)
| Logged (msg : string).

(** ** Coroutines *)

(** A spawned coroutine.  [Await] is a remote call: the coroutine is
    suspended until the reply (or the exception) arrives.  [Get] and [Modify]
    read and update the state shared by the coroutines; they do not suspend.
    [Acquire g] waits until the guard [g] is enabled and applies it (a lock or
    a semaphore); it does not suspend when the guard is enabled at once; the
    continuation receives [false] when the coroutine is cancelled while it
    waits. *)
Inductive task (St A : Type) : Type :=
| Ret (a : A)
| Throw (e : exn)
| Await (q : request) (k : reply -> task St A)
| Get (k : St -> task St A)
| Modify (f : St -> St) (k : task St A)
| Acquire (g : St -> option St) (k : bool -> task St A)
| Log (msg : string) (k : task St A).
Arguments Ret {St A} a.
Arguments Throw {St A} e.
Arguments Await {St A} q k.
Arguments Get {St A} k.
Arguments Modify {St A} f k.
Arguments Acquire {St A} g k.
Arguments Log {St A} msg k.

Fixpoint bind {St A B} (c : task St A) (f : A -> task St B) : task St B :=
  match c with
  | Ret a => f a
  | Throw e => Throw e
  | Await q k => Await q (fun r => bind (k r) f)
  | Get k => Get (fun s => bind (k s) f)
  | Modify g k => Modify g (bind k f)
  | Acquire g k => Acquire g (fun b => bind (k b) f)
  | Log m k => Log m (bind k f)
  end.

(** [try: c except Exception: h]. *)
Fixpoint try_except {St A} (c : task St A) (h : string -> task St A) : task St A :=
  match c with
  | Ret a => Ret a
  | Throw (Error m) => h m
  | Throw CancelledError => Throw CancelledError
  | Await q k => Await q (fun r => try_except (k r) h)
  | Get k => Get (fun s => try_except (k s) h)
  | Modify g k => Modify g (try_except k h)
  | Acquire g k => Acquire g (fun b => try_except (k b) h)
  | Log m k => Log m (try_except k h)
  end.

(** [try: c finally: s = f s], the shape of the exit of [async with]. *)
Fixpoint finally {St A} (c : task St A) (f : St -> St) : task St A :=
  match c with
  | Ret a => Modify f (Ret a)
  | Throw e => Modify f (Throw e)
  | Await q k => Await q (fun r => finally (k r) f)
  | Get k => Get (fun s => finally (k s) f)
  | Modify g k => Modify g (finally k f)
  | Acquire g k => Acquire g (fun b => finally (k b) f)
  | Log m k => Log m (finally k f)
  end.

Declare Scope task_scope.
Delimit Scope task_scope with task.
Notation "'let*' x ':=' c 'in' k" := (bind c (fun x => k))
  (at level 10, x name, c at level 100, k at level 200) : task_scope.
Notation "c '>>' k" := (bind c (fun _ => k))
  (at level 100, k at level 200, right associativity) : task_scope.
Local Open Scope task_scope.

(** [await client(q)]: the reply, or the exception raised at the await. *)
Definition client {St} (q : request) : task St response :=
  Await q (fun r =>
    match r with
    | Cancelled => Throw CancelledError
    | Answer (RError msg) => Throw (Error msg)
    | Answer v => Ret v
    end).

(** [async with guard: body], for a lock or a semaphore whose acquisition
    is [acq] and whose release is [rel]. *)
Definition async_with {St A} (acq : St -> option St) (rel : St -> St)
    (body : task St A) : task St A :=
  Acquire acq (fun entered => if entered then finally body rel else Throw CancelledError).

(** ** Configuration constants (lines 26-37) *)

Definition CACHE_DURATION : option Z := None.
Definition BATCH_SIZE : nat := 20.
Definition PARALLEL_LIMIT : nat := 8.
Definition USE_GET_PARTICIPANT_FIRST : bool := true.
Definition PER_GROUP_SCAN_LIMIT : nat := 2000.

(** ** The fallback-chain executor (lines 68-100 and 308-412) *)

Section Executor.
Context {St : Type}.

(** The entity carried by a reply; a reply without one reads as [None]. *)
Definition reply_entity (r : response) : option Entity :=
  match r with REntity e => Some e | _ => None end.

(** The participant carried by a reply; reading [.participant] of anything
    else raises [AttributeError]. *)
Definition reply_participant (r : response) : task St ChannelParticipant :=
  match r with
  | RParticipant p => Ret p
  | _ => Throw (Error "AttributeError")
  end.

(** [safe_get_entity(client, target)]: every exception is logged and turned
    into [None]. *)
Definition safe_get_entity (t : target) : task St (option Entity) :=
  try_except
    (match t with
     | TargetName _ | TargetId _ =>
         let* r := client (GetEntity t) in Ret (reply_entity r)
     | TargetOther _ => Throw (Error "ValueError")
     end)
    (fun _ => Log "[AdvancedBan] Get entity error" (Ret None)).

(** Method 4 (lines 346-368): an input peer built from the access hash of
    the resolved entity. *)
Definition method4 (chat_id user_id : Z) (rights : ChatBannedRights) : task St bool :=
  try_except
    (let* user_entity := safe_get_entity (TargetId user_id) in
     match user_entity with
     | Some ent =>
         match ent_access_hash ent with
         | Some h =>
             if h =? 0 then Ret false
             else
               let input_peer :=
                 if ent_broadcast ent then InputPeerChannel user_id h
                 else InputPeerUser user_id h in
               client (EditBannedRequest chat_id input_peer rights) >> Ret true
         | None => Ret false
         end
     | None => Ret false
     end)
    (fun _ => Log "[AdvancedBan] Method 4 (InputPeer) failed" (Ret false)).

(** Method 3 (lines 327-343): the channel id behind the participant. *)
Definition method3 (chat_id user_id : Z) (rights : ChatBannedRights) : task St bool :=
  try_except
    (let* r := client (GetParticipantRequest chat_id user_id) in
     let* participant := reply_participant r in
     match peer_channel_id participant with
     | Some channel_id =>
         client (EditBannedRequest chat_id (PeerId channel_id) rights) >>
         Log "[AdvancedBan] Banned channel identity" (Ret true)
     | None => Ret false
     end)
    (fun _ => Log "[AdvancedBan] Method 3 (channel identity) failed" (Ret false)).

(** Lines 311-368: the value of [ban_success] when the nested handlers are
    left.  Methods 3 and 4 sit in the handler of method 2's exception. *)
Definition ban_methods (chat_id user_id : Z) (rights : ChatBannedRights) : task St bool :=
  try_except
    (client (EditBannedRequest chat_id (PeerId user_id) rights) >> Ret true)
    (fun _ =>
       Log "[AdvancedBan] Method 1 (direct ID) failed"
         (try_except
            (let* user_entity := safe_get_entity (TargetId user_id) in
             match user_entity with
             | Some ent =>
                 client (EditBannedRequest chat_id (PeerEntity ent) rights) >> Ret true
             | None => Ret false
             end)
            (fun _ =>
               Log "[AdvancedBan] Method 2 (entity) failed"
                 (let* ban_success := method3 chat_id user_id rights in
                  if negb ban_success then method4 chat_id user_id rights
                  else Ret ban_success)))).

(** Lines 370-406: the history purge, attempted when [view_messages] is
    set. *)
Definition delete_history (chat_id user_id : Z) : task St unit :=
  try_except
    (try_except
       (client (DeleteParticipantHistoryRequest chat_id (PeerId user_id)) >>
        Log "[AdvancedBan] Deleted all messages" (Ret tt))
       (fun _ =>
          Log "[AdvancedBan] Method 1 delete failed"
            (try_except
               (let* user_entity := safe_get_entity (TargetId user_id) in
                match user_entity with
                | Some ent =>
                    client (DeleteParticipantHistoryRequest chat_id (PeerEntity ent)) >>
                    Log "[AdvancedBan] Deleted all messages (method 2)" (Ret tt)
                | None => Ret tt
                end)
               (fun _ =>
                  Log "[AdvancedBan] Method 2 delete failed"
                    (Log "[AdvancedBan] Could not delete messages, but ban was successful"
                       (Ret tt))))))
    (fun _ => Log "[AdvancedBan] Failed to delete user messages" (Ret tt)).

(** [safe_ban_action(client, chat_id, user_id, rights)]. *)
Definition safe_ban_action (chat_id user_id : Z) (rights : ChatBannedRights) : task St bool :=
  try_except
    (let* ban_success := ban_methods chat_id user_id rights in
     (if view_messages rights then delete_history chat_id user_id else Ret tt) >>
     Ret ban_success)
    (fun _ => Log "[AdvancedBan] Safe ban action error" (Ret false)).

End Executor.

(** ** Running one coroutine *)

(** What the event loop holds besides the coroutines: the shared state, the
    number of replies Telegram has given so far (it indexes the oracle and
    serves as the clock), and the observable trace. *)
Record env (St : Type) := mkEnv {
  store : St;
  now : nat;
  trace : list event
}.
Arguments mkEnv {St} store now trace.
Arguments store {St} e.
Arguments now {St} e.
Arguments trace {St} e.

(** A spawned coroutine is not started yet, suspended, or finished. *)
Inductive kstate (St A : Type) :=
| KNew (c : task St A)
| KWait (c : task St A)
| KDone (o : outcome A).
Arguments KNew {St A} c.
Arguments KWait {St A} c.
Arguments KDone {St A} o.

Section RunTask.
Context {St A : Type}.
Variable remote : nat -> request -> response.

(** Runs [c] up to its next suspension point. *)
Fixpoint advance (c : task St A) (e : env St) : kstate St A * env St :=
  match c with
  | Ret a => (KDone (Returned a), e)
  | Throw x => (KDone (Raised x), e)
  | Await q _ => (KWait c, mkEnv (store e) (now e) (trace e ++ [Request q]))
  | Get k => advance (k (store e)) e
  | Modify f k => advance k (mkEnv (f (store e)) (now e) (trace e))
  | Acquire g k =>
      match g (store e) with
      | Some s' => advance (k true) (mkEnv s' (now e) (trace e))
      | None => (KWait c, e)
      end
  | Log m k => advance k (mkEnv (store e) (now e) (trace e ++ [Logged m]))
  end.

(** Resumes a suspended coroutine: the reply of the oracle is delivered to
    an await (or [CancelledError] when [cancel] is set), a waiting
    acquisition is tried again. *)
Definition resume (c : task St A) (cancel : bool) (e : env St) : kstate St A * env St :=
  match c with
  | Await q k =>
      if cancel then advance (k Cancelled) e
      else advance (k (Answer (remote (now e) q)))
                   (mkEnv (store e) (S (now e)) (trace e))
  | Acquire g k => if cancel then advance (k false) e else advance c e
  | _ => advance c e
  end.

(** Runs [c] alone, never cancelled, every await answered by the oracle,
    until it finishes or waits for a guard that nobody else can enable. *)
Fixpoint run_task (c : task St A) (e : env St) : kstate St A * env St :=
  match c with
  | Ret a => (KDone (Returned a), e)
  | Throw x => (KDone (Raised x), e)
  | Await q k =>
      run_task (k (Answer (remote (now e) q)))
               (mkEnv (store e) (S (now e)) (trace e ++ [Request q]))
  | Get k => run_task (k (store e)) e
  | Modify f k => run_task k (mkEnv (f (store e)) (now e) (trace e))
  | Acquire g k =>
      match g (store e) with
      | Some s' => run_task (k true) (mkEnv s' (now e) (trace e))
      | None => (KWait c, e)
      end
  | Log m k => run_task k (mkEnv (store e) (now e) (trace e ++ [Logged m]))
  end.

End RunTask.

(** ** Coroutines that spawn tasks *)

(** A coroutine that creates tasks and waits for them.  Besides the nodes of
    [task] (it is never cancelled itself, so an await resumes with a
    response): [CNow] reads the clock ([time.time()]); [Spawn cs] is
    [tasks = [asyncio.create_task(c) for c in cs]] (by then the tasks created
    before have finished); [PollWhile cond] is
    [while cond: await asyncio.sleep(0.05)], the condition reading the shared
    state and [t.done()] of every task; [CancelPending] is
    [for t in tasks: if not t.done(): t.cancel()]; [JoinAll] is
    [await asyncio.gather] of the tasks with [return_exceptions=True]. *)
Inductive coro (St A R : Type) : Type :=
| CRet (r : R)
| CThrow (e : exn)
| CAwait (q : request) (k : response -> coro St A R)
| CGet (k : St -> coro St A R)
| CModify (f : St -> St) (k : coro St A R)
| CAcquire (g : St -> option St) (k : coro St A R)
| CLog (msg : string) (k : coro St A R)
| CNow (k : Z -> coro St A R)
| Spawn (cs : list (task St A)) (k : coro St A R)
| PollWhile (cond : St -> list bool -> bool) (k : coro St A R)
| CancelPending (k : coro St A R)
| JoinAll (k : list (outcome A) -> coro St A R).
Arguments CRet {St A R} r.
Arguments CThrow {St A R} e.
Arguments CAwait {St A R} q k.
Arguments CGet {St A R} k.
Arguments CModify {St A R} f k.
Arguments CAcquire {St A R} g k.
Arguments CLog {St A R} msg k.
Arguments CNow {St A R} k.
Arguments Spawn {St A R} cs k.
Arguments PollWhile {St A R} cond k.
Arguments CancelPending {St A R} k.
Arguments JoinAll {St A R} k.

Fixpoint cbind {St A R R'} (c : coro St A R) (f : R -> coro St A R') : coro St A R' :=
  match c with
  | CRet r => f r
  | CThrow e => CThrow e
  | CAwait q k => CAwait q (fun r => cbind (k r) f)
  | CGet k => CGet (fun s => cbind (k s) f)
  | CModify g k => CModify g (cbind k f)
  | CAcquire g k => CAcquire g (cbind k f)
  | CLog m k => CLog m (cbind k f)
  | CNow k => CNow (fun t => cbind (k t) f)
  | Spawn cs k => Spawn cs (cbind k f)
  | PollWhile cond k => PollWhile cond (cbind k f)
  | CancelPending k => CancelPending (cbind k f)
  | JoinAll k => JoinAll (fun os => cbind (k os) f)
  end.

(** [try: c except Exception: h]. *)
Fixpoint ctry_except {St A R} (c : coro St A R) (h : string -> coro St A R) : coro St A R :=
  match c with
  | CRet r => CRet r
  | CThrow (Error m) => h m
  | CThrow CancelledError => CThrow CancelledError
  | CAwait q k => CAwait q (fun r => ctry_except (k r) h)
  | CGet k => CGet (fun s => ctry_except (k s) h)
  | CModify g k => CModify g (ctry_except k h)
  | CAcquire g k => CAcquire g (ctry_except k h)
  | CLog m k => CLog m (ctry_except k h)
  | CNow k => CNow (fun t => ctry_except (k t) h)
  | Spawn cs k => Spawn cs (ctry_except k h)
  | PollWhile cond k => PollWhile cond (ctry_except k h)
  | CancelPending k => CancelPending (ctry_except k h)
  | JoinAll k => JoinAll (fun os => ctry_except (k os) h)
  end.

(** [try: c finally: s = f s]. *)
Fixpoint cfinally {St A R} (c : coro St A R) (f : St -> St) : coro St A R :=
  match c with
  | CRet r => CModify f (CRet r)
  | CThrow e => CModify f (CThrow e)
  | CAwait q k => CAwait q (fun r => cfinally (k r) f)
  | CGet k => CGet (fun s => cfinally (k s) f)
  | CModify g k => CModify g (cfinally k f)
  | CAcquire g k => CAcquire g (cfinally k f)
  | CLog m k => CLog m (cfinally k f)
  | CNow k => CNow (fun t => cfinally (k t) f)
  | Spawn cs k => Spawn cs (cfinally k f)
  | PollWhile cond k => PollWhile cond (cfinally k f)
  | CancelPending k => CancelPending (cfinally k f)
  | JoinAll k => JoinAll (fun os => cfinally (k os) f)
  end.

Declare Scope coro_scope.
Delimit Scope coro_scope with coro.
Notation "'let*' x ':=' c 'in' k" := (cbind c (fun x => k))
  (at level 10, x name, c at level 100, k at level 200) : coro_scope.
Notation "c '>>' k" := (cbind c (fun _ => k))
  (at level 100, k at level 200, right associativity) : coro_scope.

(** [await client(q)] in a spawning coroutine. *)
Definition cclient {St A} (q : request) : coro St A response :=
  CAwait q (fun r => match r with RError msg => CThrow (Error msg) | v => CRet v end).

(** [async with guard: body] in a spawning coroutine. *)
Definition casync_with {St A R} (acq : St -> option St) (rel : St -> St)
    (body : coro St A R) : coro St A R :=
  CAcquire acq (cfinally body rel).

(** [await asyncio.gather] of fresh tasks for [cs], with
    [return_exceptions=True]. *)
Definition gather {St A R} (cs : list (task St A)) (k : list (outcome A) -> coro St A R)
    : coro St A R :=
  Spawn cs (JoinAll k).

(** [range(start, stop, step)] for a positive [step]. *)
Definition py_range (start stop step : nat) : list nat :=
  map (fun j => start + j * step)%nat (seq 0 ((stop - start + step - 1) / step)%nat).

(** ** The event loop *)

(** A task: its state and whether [cancel()] was called on it and the
    [CancelledError] not delivered yet. *)
Record kid (St A : Type) := mkKid {
  kid_state : kstate St A;
  cancel_requested : bool
}.
Arguments mkKid {St A} kid_state cancel_requested.
Arguments kid_state {St A} k.
Arguments cancel_requested {St A} k.

Inductive mstate (St A R : Type) :=
| MNew (c : coro St A R)
| MWait (c : coro St A R)
| MDone (o : outcome R).
Arguments MNew {St A R} c.
Arguments MWait {St A R} c.
Arguments MDone {St A R} o.

(** A top-level coroutine with every task it has created, oldest first;
    the tasks from position [base] on are the ones it created last (the
    list [tasks] of the source). *)
Record thread (St A R : Type) := mkThread {
  main : mstate St A R;
  kids : list (kid St A);
  base : nat
}.
Arguments mkThread {St A R} main kids base.
Arguments main {St A R} t.
Arguments kids {St A R} t.
Arguments base {St A R} t.

Record sys (St A R : Type) := mkSys {
  senv : env St;
  threads : list (thread St A R)
}.
Arguments mkSys {St A R} senv threads.
Arguments senv {St A R} s.
Arguments threads {St A R} s.

(** The scheduler's choice: resume the coroutine of thread [i], or the
    [j]-th task of thread [i]. *)
Inductive choice :=
| RunMain (i : nat)
| RunKid (i j : nat).

Definition kid_done {St A} (k : kid St A) : bool :=
  match kid_state k with KDone _ => true | _ => false end.

Definition request_cancel {St A} (k : kid St A) : kid St A :=
  if kid_done k then k else mkKid (kid_state k) true.

(** The results of the tasks when all have finished. *)
Fixpoint join_results {St A} (ks : list (kid St A)) : option (list (outcome A)) :=
  match ks with
  | [] => Some []
  | k :: ks' =>
      match kid_state k, join_results ks' with
      | KDone o, Some os => Some (o :: os)
      | _, _ => None
      end
  end.

(** The tasks that are created and not finished. *)
Definition in_flight {St A} (ks : list (kid St A)) : nat :=
  length (filter (fun k => kid_done k = false) ks).

Section EventLoop.
Context {St A R : Type}.
Variable remote : nat -> request -> response.

(** Runs a spawning coroutine up to its next suspension point. *)
Fixpoint cadvance (c : coro St A R) (e : env St) (ks : list (kid St A)) (b : nat)
    : thread St A R * env St :=
  match c with
  | CRet r => (mkThread (MDone (Returned r)) ks b, e)
  | CThrow x => (mkThread (MDone (Raised x)) ks b, e)
  | CAwait q _ =>
      (mkThread (MWait c) ks b, mkEnv (store e) (now e) (trace e ++ [Request q]))
  | CGet k => cadvance (k (store e)) e ks b
  | CModify f k => cadvance k (mkEnv (f (store e)) (now e) (trace e)) ks b
  | CAcquire g k =>
      match g (store e) with
      | Some s' => cadvance k (mkEnv s' (now e) (trace e)) ks b
      | None => (mkThread (MWait c) ks b, e)
      end
  | CLog m k => cadvance k (mkEnv (store e) (now e) (trace e ++ [Logged m])) ks b
  | CNow k => cadvance (k (Z.of_nat (now e))) e ks b
  | Spawn cs k =>
      cadvance k e (ks ++ map (fun c => mkKid (KNew c) false) cs) (length ks)
  | PollWhile cond k =>
      if cond (store e) (map kid_done (drop b ks)) then (mkThread (MWait c) ks b, e)
      else cadvance k e ks b
  | CancelPending k => cadvance k e (take b ks ++ map request_cancel (drop b ks)) b
  | JoinAll _ => (mkThread (MWait c) ks b, e)
  end.

(** Resumes a suspended spawning coroutine. *)
Definition cresume (c : coro St A R) (e : env St) (ks : list (kid St A)) (b : nat)
    : thread St A R * env St :=
  match c with
  | CAwait q k =>
      cadvance (k (remote (now e) q)) (mkEnv (store e) (S (now e)) (trace e)) ks b
  | JoinAll k =>
      match join_results (drop b ks) with
      | Some os => cadvance (k os) e ks b
      | None => (mkThread (MWait c) ks b, e)
      end
  | _ => cadvance c e ks b
  end.

Definition step_kid (k : kid St A) (e : env St) : kid St A * env St :=
  match kid_state k with
  | KNew c =>
      if cancel_requested k then (mkKid (KDone (Raised CancelledError)) false, e)
      else let '(st, e') := advance c e in (mkKid st false, e')
  | KWait c =>
      let '(st, e') := resume remote c (cancel_requested k) e in (mkKid st false, e')
  | KDone _ => (k, e)
  end.

Definition step_main (t : thread St A R) (e : env St) : thread St A R * env St :=
  match main t with
  | MNew c => cadvance c e (kids t) (base t)
  | MWait c => cresume c e (kids t) (base t)
  | MDone _ => (t, e)
  end.

(** One task of a thread takes a step. *)
Definition step_kid_of (t : thread St A R) (j : nat) (e : env St)
    : thread St A R * env St :=
  match kids t !! j with
  | Some k =>
      let '(k', e') := step_kid k e in
      (mkThread (main t) (<[j := k']> (kids t)) (base t), e')
  | None => (t, e)
  end.

Definition step (ch : choice) (σ : sys St A R) : sys St A R :=
  match ch with
  | RunMain i =>
      match threads σ !! i with
      | Some t =>
          let '(t', e') := step_main t (senv σ) in
          mkSys e' (<[i := t']> (threads σ))
      | None => σ
      end
  | RunKid i j =>
      match threads σ !! i with
      | Some t =>
          let '(t', e') := step_kid_of t j (senv σ) in
          mkSys e' (<[i := t']> (threads σ))
      | None => σ
      end
  end.

(** The system after a schedule. *)
Definition run (sched : list choice) (σ : sys St A R) : sys St A R :=
  foldl (fun σ ch => step ch σ) σ sched.

End EventLoop.

(** ** Running to completion *)

(** One schedule among all: every task is run to its end before the next
    one starts, and the coroutine waits until then.  It serves to show that
    the coroutines finish. *)
Section Completion.
Context {St A R : Type}.
Variable remote : nat -> request -> response.

(** Runs a task from where it is until it finishes, or waits for a guard
    that is not enabled. *)
Definition finish_kid (k : kid St A) (e : env St) : kid St A * env St :=
  match kid_state k with
  | KNew c =>
      if cancel_requested k then (mkKid (KDone (Raised CancelledError)) false, e)
      else let '(st, e') := run_task remote c e in (mkKid st false, e')
  | KWait c =>
      let '(st, e') :=
        match c with
        | Await q k' =>
            if cancel_requested k then run_task remote (k' Cancelled) e
            else run_task remote (k' (Answer (remote (now e) q)))
                          (mkEnv (store e) (S (now e)) (trace e))
        | Acquire g k' =>
            if cancel_requested k then run_task remote (k' false) e
            else run_task remote c e
        | _ => run_task remote c e
        end in
      (mkKid st false, e')
  | KDone _ => (k, e)
  end.

Fixpoint finish_kids (ks : list (kid St A)) (e : env St) : list (kid St A) * env St :=
  match ks with
  | [] => ([], e)
  | k :: ks' =>
      let '(k1, e1) := finish_kid k e in
      let '(ks1, e2) := finish_kids ks' e1 in
      (k1 :: ks1, e2)
  end.

(** Runs a spawning coroutine to its end, its tasks as above whenever it
    waits for them. *)
Fixpoint complete (c : coro St A R) (e : env St) (ks : list (kid St A)) (b : nat)
    : thread St A R * env St :=
  match c with
  | CRet r => (mkThread (MDone (Returned r)) ks b, e)
  | CThrow x => (mkThread (MDone (Raised x)) ks b, e)
  | CAwait q k =>
      complete (k (remote (now e) q))
               (mkEnv (store e) (S (now e)) (trace e ++ [Request q])) ks b
  | CGet k => complete (k (store e)) e ks b
  | CModify f k => complete k (mkEnv (f (store e)) (now e) (trace e)) ks b
  | CAcquire g k =>
      match g (store e) with
      | Some s' => complete k (mkEnv s' (now e) (trace e)) ks b
      | None => (mkThread (MWait c) ks b, e)
      end
  | CLog m k => complete k (mkEnv (store e) (now e) (trace e ++ [Logged m])) ks b
  | CNow k => complete (k (Z.of_nat (now e))) e ks b
  | Spawn cs k =>
      complete k e (ks ++ map (fun c => mkKid (KNew c) false) cs) (length ks)
  | PollWhile cond k =>
      if cond (store e) (map kid_done (drop b ks)) then
        let '(ks', e') := finish_kids ks e in
        if cond (store e') (map kid_done (drop b ks')) then (mkThread (MWait c) ks' b, e')
        else complete k e' ks' b
      else complete k e ks b
  | CancelPending k => complete k e (take b ks ++ map request_cancel (drop b ks)) b
  | JoinAll k =>
      let '(ks', e') := finish_kids ks e in
      match join_results (drop b ks') with
      | Some os => complete (k os) e' ks' b
      | None => (mkThread (MWait c) ks' b, e')
      end
  end.

(** Runs a thread from where it is. *)
Definition finish_thread (t : thread St A R) (e : env St) : thread St A R * env St :=
  match main t with
  | MNew c => complete c e (kids t) (base t)
  | MWait c =>
      match c with
      | CAwait q k =>
          complete (k (remote (now e) q)) (mkEnv (store e) (S (now e)) (trace e))
                   (kids t) (base t)
      | _ => complete c e (kids t) (base t)
      end
  | MDone _ => (t, e)
  end.

End Completion.

(** The system of coroutines [cs] about to start, in store [s]. *)
Definition boot {St A R} (s : St) (cs : list (coro St A R)) : sys St A R :=
  mkSys (mkEnv s 0%nat []) (map (fun c => mkThread (MNew c) [] 0%nat) cs).

(** The result of thread [i], once it has finished. *)
Definition result {St A R} (σ : sys St A R) (i : nat) : option (outcome R) :=
  match threads σ !! i with
  | Some t => match main t with MDone o => Some o | _ => None end
  | None => None
  end.

(** [task.cancel()] called from outside the coroutine on the [j]-th task of
    thread [i], as the event loop does at shutdown or any code that holds
    the task may: the task is asked to cancel, unless it is done. *)
Definition cancel_task {St A R} (i j : nat) (σ : sys St A R) : sys St A R :=
  match threads σ !! i with
  | Some t =>
      match kids t !! j with
      | Some k =>
          mkSys (senv σ)
            (<[i := mkThread (main t) (<[j := request_cancel k]> (kids t)) (base t)]>
               (threads σ))
      | None => σ
      end
  | None => σ
  end.

(** ** The batch dispatcher (lines 416-450) *)

(** What [batch_ban_operation] returns: [(success, failed, failed_groups)]. *)
Record BatchOutcome := mkBatch {
  success : nat;
  failed : nat;
  failed_groups : list string
}.

(** Python's truth value of [result[1]]: [None] and the empty string are
    false. *)
Definition truthy (reason : option string) : bool :=
  match reason with
  | Some s => negb (String.eqb s "")
  | None => false
  end.

Section Dispatcher.
Context {St : Type}.
(** [safe_ban_action] in the source; a variable here, so that what is proved
    of the dispatcher holds for every executor, also one that raises. *)
Variable apply_action : Z -> Z -> ChatBannedRights -> task St bool.
Variables (user_id : Z) (rights : ChatBannedRights) (operation_name : string).

(** [process_group(group)] (lines 422-430). *)
Definition process_group (group : Scope) : task St (bool * option string) :=
  try_except
    (let* ok := apply_action (scope_id group) user_id rights in
     if ok then Ret (true, None) else Ret (false, Some (scope_title group)))
    (fun _ =>
       Log ("[AdvancedBan] " +:+ operation_name +:+ " error in " +:+ scope_title group)
         (Ret (false, Some (scope_title group +:+ " (异常)")))).

(** One turn of [for result in results] (lines 439-448).  A result that is a
    [CancelledError] is not an [Exception]; subscripting it raises
    [TypeError]. *)
Definition tally (acc : BatchOutcome) (result : outcome (bool * option string))
    : outcome BatchOutcome :=
  match result with
  | Raised (Error _) =>
      Returned (mkBatch (success acc) (S (failed acc))
                        (failed_groups acc ++ ["未知群组 (异常)"]))
  | Raised CancelledError => Raised (Error "TypeError")
  | Returned (true, _) =>
      Returned (mkBatch (S (success acc)) (failed acc) (failed_groups acc))
  | Returned (false, reason) =>
      Returned (mkBatch (success acc) (S (failed acc))
                        (if truthy reason
                         then failed_groups acc ++ [default "" reason]
                         else failed_groups acc))
  end.

Fixpoint tally_all (acc : BatchOutcome) (results : list (outcome (bool * option string)))
    : outcome BatchOutcome :=
  match results with
  | [] => Returned acc
  | result :: rest =>
      match tally acc result with
      | Returned acc' => tally_all acc' rest
      | Raised e => Raised e
      end
  end.

(** The loop [for i in range(0, len(groups), BATCH_SIZE)], over the values
    [starts] that [i] still has to take. *)
Fixpoint batch_loop (groups : list Scope) (starts : list nat) (acc : BatchOutcome)
    : coro St (bool * option string) BatchOutcome :=
  match starts with
  | [] => CRet acc
  | i :: starts' =>
      let batch := take BATCH_SIZE (drop i groups) in
      gather (map process_group batch)
        (fun results =>
           match tally_all acc results with
           | Returned acc' => batch_loop groups starts' acc'
           | Raised e => CThrow e
           end)
  end.

(** [batch_ban_operation(client, groups, user_id, rights, operation_name)]. *)
Definition batch_ban_operation (groups : list Scope)
    : coro St (bool * option string) BatchOutcome :=
  batch_loop groups (py_range 0 (length groups) BATCH_SIZE) (mkBatch 0 0 []).

End Dispatcher.

(** ** The caches (lines 16-24) *)

(** An element of the list that [get_managed_groups] builds, caches and
    returns: the dict of a group, or the [CancelledError] that [gather]
    reports for a probe task that was cancelled (line 252 keeps it: it is
    truthy and not an [Exception]). *)
Inductive Managed :=
| Group (g : Scope)
| Cancellation.

(** [_CACHE["groups"]]. *)
Record GroupsCache := mkGroupsCache {
  timestamp : Z;
  data : list Managed;
  lock : bool
}.

(** [_CACHE]; an entry of [permissions] or [entities] is the pair of its
    ["data"] and its ["timestamp"]. *)
Record Cache := mkCache {
  groups : GroupsCache;
  permissions : gmap Z (bool * Z);
  entities : gmap string (Entity * Z)
}.

(** [CACHE_DURATION is None or (now - timestamp < CACHE_DURATION)]. *)
Definition cache_valid (now timestamp : Z) : bool :=
  match CACHE_DURATION with
  | None => true
  | Some d => now - timestamp <? d
  end.

(** Python's truth value of a list. *)
Definition nonempty {X} (l : list X) : bool :=
  match l with [] => false | _ => true end.

Definition set_groups (f : GroupsCache -> GroupsCache) (c : Cache) : Cache :=
  mkCache (f (groups c)) (permissions c) (entities c).

(** [grp_cache["lock"]]: acquisition and release of the [asyncio.Lock]. *)
Definition lock_acquire (c : Cache) : option Cache :=
  if lock (groups c) then None
  else Some (set_groups (fun g => mkGroupsCache (timestamp g) (data g) true) c).

Definition lock_release (c : Cache) : Cache :=
  set_groups (fun g => mkGroupsCache (timestamp g) (data g) false) c.

(** ** The scope cache (lines 205-262) *)

(** [check_group(dialog)] (lines 235-243); [me] is the reply to
    [client.get_me()], and reading [me.id] of a reply that is no entity
    raises. *)
Definition check_group (me : response) (dialog : Dialog) : task Cache (option Scope) :=
  try_except
    (match reply_entity me with
     | Some me =>
         let* r := client (GetParticipantRequest (dialog_id dialog) (ent_id me)) in
         let* part := reply_participant r in
         match admin_rights part with
         | Some rights =>
             if ban_users rights
             then Ret (Some (mkScope (dialog_id dialog) (dialog_title dialog)))
             else Ret None
         | None => Ret None
         end
     | None => Throw (Error "AttributeError")
     end)
    (fun _ => Ret None).

(** [[r for r in results if r and not isinstance(r, Exception)]]: a dict
    is kept; [None] is falsy; an [Exception] is dropped; a [CancelledError]
    is truthy and, being a [BaseException] only, passes the test. *)
Definition kept (results : list (outcome (option Scope))) : list Managed :=
  omap (fun r => match r with
                 | Returned (Some sc) => Some (Group sc)
                 | Returned None => None
                 | Raised (Error _) => None
                 | Raised CancelledError => Some Cancellation
                 end) results.

Local Open Scope coro_scope.

(** The loop [for i in range(0, len(dialogs), 10)] (lines 246-253). *)
Fixpoint check_batches (me : response) (dialogs : list Dialog) (starts : list nat)
    (groups : list Managed) : coro Cache (option Scope) (list Managed) :=
  match starts with
  | [] => CRet groups
  | i :: starts' =>
      let batch := take 10 (drop i dialogs) in
      gather (map (check_group me) batch)
        (fun results => check_batches me dialogs starts' (groups ++ kept results))
  end.

(** Lines 255-259: the update of the cache. *)
Definition store_groups (found : list Managed) : coro Cache (option Scope) (list Managed) :=
  CModify (set_groups (fun g => mkGroupsCache (timestamp g) found (lock g)))
    (CNow (fun t =>
       CModify (set_groups (fun g => mkGroupsCache t (data g) (lock g)))
         (CLog "[AdvancedBan] Groups refreshed" (CRet found)))).

(** Lines 228-259: the dialogs are collected, probed in batches, and the
    result stored. *)
Definition enumerate (me : response) : coro Cache (option Scope) (list Managed) :=
  let* r := cclient IterDialogs in
  let* all := match r with
              | RDialogs ds => CRet ds
              | _ => CThrow (Error "TypeError")
              end in
  let dialogs := filter (fun d => is_group d || is_channel d) all in
  let* found := check_batches me dialogs (py_range 0 (length dialogs) 10) [] in
  store_groups found.

(** Lines 225-259: what runs when the cache is still empty under the
    lock. *)
Definition refresh_groups : coro Cache (option Scope) (list Managed) :=
  let* me := cclient GetMe in
  enumerate me.

(** [grp_cache["data"] and (CACHE_DURATION is None or ...)]. *)
Definition cache_hit (c : Cache) (now : Z) : bool :=
  nonempty (data (groups c)) && cache_valid now (timestamp (groups c)).

(** Lines 218-259: the body of [async with grp_cache["lock"]]. *)
Definition under_lock : coro Cache (option Scope) (list Managed) :=
  CGet (fun c => CNow (fun now =>
    if cache_hit c now then CRet (data (groups c)) else refresh_groups)).

(** Lines 260-262: the handler of the outer [try]. *)
Definition get_groups_error (msg : string) : coro Cache (option Scope) (list Managed) :=
  CLog "[AdvancedBan] Get groups error" (CRet []).

(** [get_managed_groups(client)]. *)
Definition get_managed_groups : coro Cache (option Scope) (list Managed) :=
  ctry_except
    (CGet (fun c => CNow (fun now =>
       if cache_hit c now then CRet (data (groups c))
       else casync_with lock_acquire lock_release under_lock)))
    get_groups_error.

(** What is wrapped around a coroutine that runs under the lock: the exit
    of the [async with] and the outer [try]. *)
Definition locked (c : coro Cache (option Scope) (list Managed))
    : coro Cache (option Scope) (list Managed) :=
  ctry_except (cfinally c lock_release) get_groups_error.

(** Lines 473-474 of [refresh_cache]: the cached groups and their timestamp
    are cleared. *)
Definition invalidate (c : Cache) : Cache :=
  set_groups (fun g => mkGroupsCache 0 [] (lock g)) c.

(** The same two lines, run by a refresh command while the coroutines of
    [σ] are suspended. *)
Definition clear_cache {A R} (σ : sys Cache A R) : sys Cache A R :=
  mkSys (mkEnv (invalidate (store (senv σ))) (now (senv σ)) (trace (senv σ))) (threads σ).

Local Close Scope coro_scope.

(** ** The racing resolver (lines 493-603) *)

(** The shared state of one call: the caches and the three objects the
    call creates for its probes, [found_user["val"]], [done_event] and the
    value of [semaphore]. *)
Record Resolver := mkResolver {
  cache : Cache;
  found_user : option Entity;
  done_event : bool;
  semaphore : nat
}.

(** [async with semaphore]: entry and exit. *)
Definition sem_acquire (s : Resolver) : option Resolver :=
  match semaphore s with
  | O => None
  | S n => Some (mkResolver (cache s) (found_user s) (done_event s) n)
  end.

Definition sem_release (s : Resolver) : Resolver :=
  mkResolver (cache s) (found_user s) (done_event s) (S (semaphore s)).

(** [found_user["val"] = u; done_event.set()]. *)
Definition report (u : Entity) (s : Resolver) : Resolver :=
  mkResolver (cache s) (Some u) true (semaphore s).

Section Resolver.
Variables (uid : Z) (per_limit : nat).

(** The loop [async for p in client.iter_participants(group_id,
    limit=per_limit)] (lines 564-568), with [fuel] elements left before the
    limit is reached. *)
Fixpoint scan_participants (group_id : Z) (fuel pos : nat) : task Resolver unit :=
  match fuel with
  | O => Ret tt
  | S fuel' =>
      let* p := client (IterParticipantsNext group_id per_limit pos) in
      match p with
      | RStop => Ret tt
      | REntity p =>
          if ent_id p =? uid then Modify (report p) (Ret tt)
          else scan_participants group_id fuel' (S pos)
      | _ => scan_participants group_id fuel' (S pos)
      end
  end.

(** Lines 544-557: the exact lookup; [true] when the function returned from
    inside the loop over [users_list]. *)
Definition exact_lookup (group_id : Z) : task Resolver bool :=
  if USE_GET_PARTICIPANT_FIRST then
    try_except
      (let* res := client (GetParticipantRequest group_id uid) in
       let users_list := match res with RParticipant p => users p | _ => [] end in
       match find (fun u => ent_id u =? uid) users_list with
       | Some u => Modify (report u) (Ret true)
       | None => Ret false
       end)
      (fun _ => Ret false)
  else Ret false.

(** Lines 541-575: the body of [async with semaphore] in
    [probe_group(g)]. *)
Definition probe_body (g : Scope) : task Resolver unit :=
  let group_id := scope_id g in
  let group_title := scope_title g in
  Get (fun s =>
    if done_event s then Ret tt
    else
      let* returned := exact_lookup group_id in
      if returned then Ret tt
      else
        Get (fun s =>
          if done_event s then Ret tt
          else
            try_except
              (scan_participants group_id per_limit 0)
              (fun _ =>
                 Log ("[AdvancedBan] Scan group " +:+ group_title +:+ " error")
                   (Ret tt)))).

(** [probe_group(g)] (lines 522-575) for [g] a dict with an id and a
    title. *)
Definition probe_group (g : Scope) : task Resolver unit :=
  async_with sem_acquire sem_release (probe_body g).

End Resolver.

Local Open Scope coro_scope.

(** [ent_cache[str(uid)] = {"data": user, "timestamp": time.time()}]. *)
Definition remember (uid : Z) (user : Entity) (t : Z) (s : Resolver) : Resolver :=
  mkResolver
    (mkCache (groups (cache s)) (permissions (cache s))
             (<[pretty uid := (user, t)]> (entities (cache s))))
    (found_user s) (done_event s) (semaphore s).

(** Lines 517-520: the objects created for the probes. *)
Definition fresh_probe_state (s : Resolver) : Resolver :=
  mkResolver (cache s) None false PARALLEL_LIMIT.

(** The condition of the polling loop (line 581):
    [not done_event.is_set() and any(not t.done() for t in tasks)]. *)
Definition race_pending (s : Resolver) (dones : list bool) : bool :=
  negb (done_event s) && existsb negb dones.

(** Lines 595-603: after the [gather], the identity found is written into
    the entity cache and returned. *)
Definition race_result (uid : Z) (results : list (outcome unit))
    : coro Resolver unit (option Entity) :=
  CGet (fun s =>
    match found_user s with
    | Some user => CNow (fun t => CModify (remember uid user t) (CRet (Some user)))
    | None => CRet None
    end).

(** Lines 583-593, the [finally] of the polling loop: the tasks that are
    not done are cancelled when the event is set, and all are awaited. *)
Definition race_finally (uid : Z) : coro Resolver unit (option Entity) :=
  CGet (fun s =>
    (if done_event s then CancelPending else (fun k => k))
      (JoinAll (race_result uid))).

(** The per-group limit in force: [per_group_limit or PER_GROUP_SCAN_LIMIT]. *)
Definition scan_limit (per_group_limit : option nat) : nat :=
  match per_group_limit with
  | Some (S n) => S n
  | _ => PER_GROUP_SCAN_LIMIT
  end.

(** Lines 517-603: the race, on a miss of the entity cache. *)
Definition race (groups : list Scope) (uid : Z) (per_group_limit : option nat)
    : coro Resolver unit (option Entity) :=
  let per_limit := scan_limit per_group_limit in
  CModify fresh_probe_state
    (Spawn (map (probe_group uid per_limit) groups)
       (PollWhile race_pending (race_finally uid))).

(** [_resolve_user_across_groups_by_id(client, groups, uid,
    per_group_limit)]. *)
Definition _resolve_user_across_groups_by_id (groups : list Scope) (uid : Z)
    (per_group_limit : option nat) : coro Resolver unit (option Entity) :=
  CGet (fun s => CNow (fun t =>
    match entities (cache s) !! pretty uid with
    | Some (user, timestamp) =>
        if cache_valid t timestamp then CRet (Some user)
        else race groups uid per_group_limit
    | None => race groups uid per_group_limit
    end)).

Local Close Scope coro_scope.

(** *** Coroutines that return *)

(** [returns c]: when it is not cancelled, [c] finishes by returning,
    whatever Telegram answers; [raises_only_errors c]: it finishes by
    returning or by raising an [Exception].  Neither waits for a guard or
    touches the shared state. *)
Inductive raises_only_errors {St A} : task St A -> Prop :=
| roe_ret a : raises_only_errors (Ret a)
| roe_throw msg : raises_only_errors (Throw (Error msg))
| roe_await q k : (forall r, raises_only_errors (k (Answer r))) -> raises_only_errors (Await q k)
| roe_log m k : raises_only_errors k -> raises_only_errors (Log m k).

Inductive returns {St A} : task St A -> Prop :=
| returns_ret a : returns (Ret a)
| returns_await q k : (forall r, returns (k (Answer r))) -> returns (Await q k)
| returns_log m k : returns k -> returns (Log m k).


(** [settles remote Q c]: when it is not cancelled, [c] finishes whatever
    the schedule, the replies being those of [remote] at any time, and its
    outcome satisfies [Q].  It waits for no guard and does not touch the
    shared state. *)
Inductive settles {St A} (remote : nat -> request -> response) (Q : outcome A -> Prop)
    : task St A -> Prop :=
| settles_ret a : Q (Returned a) -> settles remote Q (Ret a)
| settles_throw x : Q (Raised x) -> settles remote Q (Throw x)
| settles_await q k :
    (forall n, settles remote Q (k (Answer (remote n q)))) -> settles remote Q (Await q k)
| settles_log m k : settles remote Q k -> settles remote Q (Log m k).

(** The outcome is a returned value that satisfies [P]. *)
Definition returned_with {A} (P : A -> Prop) (o : outcome A) : Prop :=
  match o with
  | Returned a => P a
  | Raised _ => False
  end.

(** A task that nobody cancelled and that settles with [Q]. *)
Definition kid_ok {St A} (remote : nat -> request -> response) (Q : outcome A -> Prop)
    (k : kid St A) : Prop :=
  cancel_requested k = false /\
  match kid_state k with
  | KNew c | KWait c => settles remote Q c
  | KDone o => Q o
  end.

(** [runs remote c st]: [st] is a state of the task that was created for
    the coroutine [c]: the task has not started, or the steps of the event
    loop have taken it from the start of [c] to [st], or it was cancelled
    before it started. *)
Inductive runs {St A} (remote : nat -> request -> response) (c : task St A)
    : kstate St A -> Prop :=
| runs_new : runs remote c (KNew c)
| runs_started e : runs remote c (advance c e).1
| runs_resumed c' cancel e :
    runs remote c (KWait c') -> runs remote c (resume remote c' cancel e).1
| runs_cancelled : runs remote c (KDone (Raised CancelledError)).

(** A task that was created and has not run yet. *)
Definition unstarted {St A} (k : kid St A) : Prop := exists c, kid_state k = KNew c.

(** [asked_where_started first groups t e]: the [j]-th task of the thread
    is there for the [j]-th scope of [groups], and when it has started, the
    call [first g] that its coroutine begins with is in the trace. *)
Definition asked_where_started {St A R} (first : Scope -> request) (groups : list Scope)
    (t : thread St A R) (e : env St) : Prop :=
  forall j g k, groups !! j = Some g -> kids t !! j = Some k ->
    unstarted k \/ Request (first g) ∈ trace e.

(** *** The states of a dispatch *)

Section DispatcherStates.
Context {St : Type}.
Variable remote : nat -> request -> response.
Variable apply_action : Z -> Z -> ChatBannedRights -> task St bool.
Variables (user_id : Z) (rights : ChatBannedRights) (operation_name : string).
Variable groups : list Scope.
(** What [process_group] is known to return for a scope. *)
Variable expected : Scope -> bool * option string -> Prop.

Definition chunk (i : nat) : list Scope := take BATCH_SIZE (drop i groups).

(** [k] is the task of [process_group(g)]. *)
Definition task_of (g : Scope) (k : kid St (bool * option string)) : Prop :=
  runs remote (process_group apply_action user_id rights operation_name g) (kid_state k).

(** The states the thread of [batch_ban_operation] goes through: not
    started; waiting for the gather of the chunk at [i], the scopes [done]
    before it tallied in [acc] and their tasks [old] finished, the chunks at
    [starts] still to come; returned.  There is one task for each scope of
    [done] and of the chunk, the task of [process_group] for that scope, in
    the order of the list. *)
Inductive batch_state : thread St (bool * option string) BatchOutcome -> Prop :=
| batch_new :
    batch_state
      (mkThread (MNew (batch_ban_operation apply_action user_id rights operation_name groups))
                [] 0%nat)
| batch_gathering pre done i starts results acc old ks :
    py_range 0 (length groups) BATCH_SIZE = pre ++ i :: starts ->
    length done = i ->
    groups = done ++ concat (map chunk (i :: starts)) ->
    Forall2 expected done results ->
    tally_all (mkBatch 0 0 []) (map Returned results) = Returned acc ->
    Forall (fun k => kid_done k = true) old ->
    length old = length done ->
    Forall2 (fun g k => kid_ok remote (returned_with (expected g)) k) (chunk i) ks ->
    Forall2 task_of done old ->
    Forall2 task_of (chunk i) ks ->
    batch_state
      (mkThread
         (MWait (JoinAll (fun results =>
            match tally_all acc results with
            | Returned acc' =>
                batch_loop apply_action user_id rights operation_name groups starts acc'
            | Raised e => CThrow e
            end)))
         (old ++ ks) (length old))
| batch_returned results acc old b :
    Forall2 expected groups results ->
    tally_all (mkBatch 0 0 []) (map Returned results) = Returned acc ->
    Forall (fun k => kid_done k = true) old ->
    length old = length groups ->
    Forall2 task_of groups old ->
    batch_state (mkThread (MDone (Returned acc)) old b).

End DispatcherStates.

(** *** What the executor does for a scope *)

(** The executor returns [True], returns [False], or raises an
    [Exception]. *)
Inductive verdict :=
| Accepts
| Refuses
| Fails.

Definition verdict_of (v : verdict) (o : outcome bool) : Prop :=
  match v with
  | Accepts => o = Returned true
  | Refuses => o = Returned false
  | Fails => exists msg, o = Raised (Error msg)
  end.

(** What [process_group] returns for a scope under a verdict. *)
Definition report_of (v : verdict) (g : Scope) : bool * option string :=
  match v with
  | Accepts => (true, None)
  | Refuses => (false, Some (scope_title g))
  | Fails => (false, Some (scope_title g +:+ " (异常)"))
  end.

(** The entry of the failure list for a scope under a verdict, if any. *)
Definition failure_entry (v : verdict) (g : Scope) : option string :=
  match v with
  | Accepts => None
  | Refuses => if String.eqb (scope_title g) "" then None else Some (scope_title g)
  | Fails => Some (scope_title g +:+ " (异常)")
  end.

Definition accepted (v : verdict) : bool :=
  match v with Accepts => true | _ => false end.

(** A schedule that resumes, [rounds] times over, the coroutine of thread 0
    and then each of its first [n] tasks. *)
Definition round_robin (n rounds : nat) : list choice :=
  concat (replicate rounds (RunMain 0 :: map (RunKid 0) (seq 0 n))).

(** *** The states of the callers of [get_managed_groups] *)

(** [asks_only P c]: every remote call of [c] satisfies [P]. *)
Inductive asks_only {St A} (P : request -> Prop) : task St A -> Prop :=
| asks_ret a : asks_only P (Ret a)
| asks_throw x : asks_only P (Throw x)
| asks_await q k : P q -> (forall r, asks_only P (k r)) -> asks_only P (Await q k)
| asks_log m k : asks_only P k -> asks_only P (Log m k).

Definition kid_asks {St A} (P : request -> Prop) (k : kid St A) : Prop :=
  match kid_state k with
  | KNew c | KWait c => asks_only P c
  | KDone _ => True
  end.

Definition is_probe (q : request) : Prop :=
  match q with GetParticipantRequest _ _ => True | _ => False end.

Definition event_asks (P : request -> Prop) (ev : event) : Prop :=
  match ev with Request q => P q | Logged _ => True end.

(** The number of enumerations started: the calls of [client.get_me()]. *)
Definition is_get_me (ev : event) : bool :=
  match ev with Request GetMe => true | _ => false end.

Definition enumerations (tr : list event) : nat :=
  length (filter (fun ev => is_get_me ev = true) tr).

(** What a permission probe reports: the scope of the dialog when the
    reply carries admin rights with [ban_users], nothing otherwise. *)
Definition probe_verdict (d : Dialog) (r : response) : option Scope :=
  match r with
  | RParticipant p =>
      match admin_rights p with
      | Some rights =>
          if ban_users rights then Some (mkScope (dialog_id d) (dialog_title d)) else None
      | None => None
      end
  | _ => None
  end.

(** [v] is what the probe of [d] reports on some reply of Telegram ([me]
    being the reply to [client.get_me()], without whose id no probe can be
    sent). *)
Definition checked (remote : nat -> request -> response) (me : response) (d : Dialog)
    (v : option Scope) : Prop :=
  match reply_entity me with
  | Some m =>
      exists n, v = probe_verdict d
                      (remote n (GetParticipantRequest (dialog_id d) (ent_id m)))
  | None => v = None
  end.

(** [found] is the result of an enumeration that went through: the scopes,
    in the order of the dialogs, of the group and channel dialogs whose
    probe reported the right to ban. *)
Definition enumerated (remote : nat -> request -> response) (found : list Managed) : Prop :=
  exists n_me n_dialogs all verdicts,
    (forall msg, remote n_me GetMe <> RError msg)
    /\ remote n_dialogs IterDialogs = RDialogs all
    /\ Forall2 (checked remote (remote n_me GetMe))
         (filter (fun d => is_group d || is_channel d) all) verdicts
    /\ found = map Group (omap id verdicts).

(** An enumeration can fail as a whole: [get_me] or [iter_dialogs] raises
    (or does not yield dialogs). *)
Definition enumeration_failed (remote : nat -> request -> response) : Prop :=
  (exists n msg, remote n GetMe = RError msg)
  \/ (exists n, forall all, remote n IterDialogs <> RDialogs all).

(** Where a caller is: not started, waiting for the lock, refreshing under
    the lock, or returned. *)
Inductive phase :=
| Idle
| Waiting
| Refreshing
| Finished (r : list Managed).

Definition is_refreshing (p : phase) : bool :=
  match p with Refreshing => true | _ => false end.

Section CallerStates.
Variable remote : nat -> request -> response.

Local Open Scope coro_scope.

Inductive caller_state : thread Cache (option Scope) (list Managed) -> phase -> Prop :=
| caller_idle :
    caller_state (mkThread (MNew get_managed_groups) [] 0%nat) Idle
| caller_waiting :
    caller_state
      (mkThread
         (MWait (ctry_except (casync_with lock_acquire lock_release under_lock)
                   get_groups_error))
         [] 0%nat)
      Waiting
| caller_get_me :
    caller_state (mkThread (MWait (locked refresh_groups)) [] 0%nat) Refreshing
| caller_dialogs n :
    (forall msg, remote n GetMe <> RError msg) ->
    caller_state (mkThread (MWait (locked (enumerate (remote n GetMe)))) [] 0%nat)
      Refreshing
| caller_checking n n_dialogs all dialogs done i starts verdicts found old ks :
    (forall msg, remote n GetMe <> RError msg) ->
    remote n_dialogs IterDialogs = RDialogs all ->
    dialogs = filter (fun d => is_group d || is_channel d) all ->
    dialogs = done ++ concat (map (fun i => take 10 (drop i dialogs)) (i :: starts)) ->
    Forall2 (checked remote (remote n GetMe)) done verdicts ->
    found = map Group (omap id verdicts) ->
    Forall (fun k => kid_done k = true) old ->
    Forall2 (fun d k => kid_ok remote (returned_with (checked remote (remote n GetMe) d)) k
                        /\ kid_asks is_probe k)
      (take 10 (drop i dialogs)) ks ->
    caller_state
      (mkThread
         (MWait (locked
            (let* found :=
               JoinAll (fun results =>
                 check_batches (remote n GetMe) dialogs starts (found ++ kept results)) in
             store_groups found)))
         (old ++ ks) (length old))
      Refreshing
| caller_finished r ks b :
    Forall (fun k => kid_done k = true) ks ->
    (r = [] -> enumerated remote [] \/ enumeration_failed remote) ->
    caller_state (mkThread (MDone (Returned r)) ks b) (Finished r).

Local Close Scope coro_scope.

(** What a step of a caller or of one of its tasks does to the groups cache
    and to the number of enumerations: nothing; or the caller returns the
    cached groups, starts to wait for the lock, takes the lock and starts an
    enumeration, ends a failed enumeration, ends an enumeration by storing
    what it found. *)
Inductive transition : phase -> env Cache -> phase -> env Cache -> Prop :=
| tr_stay p e e' :
    data (groups (store e')) = data (groups (store e)) ->
    lock (groups (store e')) = lock (groups (store e)) ->
    enumerations (trace e') = enumerations (trace e) ->
    transition p e p e'
| tr_hit p e e' :
    p = Idle \/ p = Waiting ->
    data (groups (store e)) <> [] ->
    data (groups (store e')) = data (groups (store e)) ->
    lock (groups (store e')) = lock (groups (store e)) ->
    enumerations (trace e') = enumerations (trace e) ->
    transition p e (Finished (data (groups (store e)))) e'
| tr_wait e e' :
    lock (groups (store e)) = true ->
    data (groups (store e')) = data (groups (store e)) ->
    lock (groups (store e')) = lock (groups (store e)) ->
    enumerations (trace e') = enumerations (trace e) ->
    transition Idle e Waiting e'
| tr_enter p e e' :
    p = Idle \/ p = Waiting ->
    lock (groups (store e)) = false ->
    data (groups (store e)) = [] ->
    data (groups (store e')) = [] ->
    lock (groups (store e')) = true ->
    enumerations (trace e') = S (enumerations (trace e)) ->
    transition p e Refreshing e'
| tr_fail e e' :
    data (groups (store e')) = data (groups (store e)) ->
    lock (groups (store e')) = false ->
    enumerations (trace e') = enumerations (trace e) ->
    transition Refreshing e (Finished []) e'
| tr_store e e' found :
    enumerated remote found ->
    data (groups (store e')) = found ->
    lock (groups (store e')) = false ->
    enumerations (trace e') = enumerations (trace e) ->
    transition Refreshing e (Finished found) e'.

Definition started (p : phase) : bool :=
  match p with Refreshing | Finished _ => true | _ => false end.

(** The invariant of a system of callers that started on an empty cache
    with the lock free. *)
Definition callers_inv (σ : sys Cache (option Scope) (list Managed)) (phases : list phase)
    : Prop :=
  let c := groups (store (senv σ)) in
  let n := enumerations (trace (senv σ)) in
  Forall2 caller_state (threads σ) phases
  /\ (if lock c
      then exists i, phases !! i = Some Refreshing
                     /\ forall j, phases !! j = Some Refreshing -> j = i
      else forall j, phases !! j <> Some Refreshing)
  /\ (forall j, phases !! j = Some Refreshing -> data c = [])
  /\ (data c = [] \/ enumerated remote (data c))
  /\ (forall j r, phases !! j = Some (Finished r) -> r = [] \/ r = data c)
  /\ ((forall j r, phases !! j = Some (Finished r) -> r <> []) ->
      n = ((if lock c then 1 else 0) + (if nonempty (data c) then 1 else 0))%nat)
  /\ ((data c <> [] \/ exists j p, phases !! j = Some p /\ p <> Idle) -> (1 <= n)%nat)
  /\ (data c <> [] -> exists j, phases !! j = Some (Finished (data c)))
  /\ (n <= length (filter (fun p => started p = true) phases))%nat.

End CallerStates.

(** A caller has a refresh in flight when it is suspended inside lines
    225-250: at [client.get_me()], at [client.iter_dialogs()] or at the
    [gather] of a batch of probes.  (The one other suspension point of
    [get_managed_groups] is the wait for the lock.) *)
Definition refresh_in_flight {St A R} (t : thread St A R) : bool :=
  match main t with
  | MWait (CAwait _ _) | MWait (JoinAll _) => true
  | _ => false
  end.

(** *** The states of the racing resolver *)

(** A probe holds a slot of the semaphore while it is suspended at a remote
    call: every await of [probe_group] is inside [async with semaphore]. *)
Definition holds_slot {St A} (k : kid St A) : bool :=
  match kid_state k with
  | KWait (Await _ _) => true
  | _ => false
  end.

Definition slots_held {St A} (ks : list (kid St A)) : nat :=
  length (filter (fun k => holds_slot k = true) ks).

(** A task that is finished, or that has been asked to cancel and will be
    at its next step. *)
Definition called_off {St A} (k : kid St A) : Prop :=
  kid_done k = true \/ cancel_requested k = true.

Section RaceStates.
Variable remote : nat -> request -> response.
Variables (uid : Z) (per_limit : nat).

(** The remote calls of the probe of [g] for [uid]. *)
Definition probes_scope (g : Scope) (q : request) : Prop :=
  match q with
  | GetParticipantRequest chat u => chat = scope_id g /\ u = uid
  | IterParticipantsNext chat limit _ => chat = scope_id g /\ limit = per_limit
  | _ => False
  end.

(** [holder g c]: [c] is a probe of [g] inside [async with semaphore]: it
    calls Telegram about [g] only, reports only an entity whose id is [uid],
    leaves the caches alone, and releases its slot as the last thing it
    does; cancelled at a remote call, it releases its slot and ends with
    [CancelledError], which no handler of the probe catches. *)
Inductive holder (g : Scope) : task Resolver unit -> Prop :=
| holder_return a : holder g (Modify sem_release (Ret a))
| holder_raise x : holder g (Modify sem_release (Throw x))
| holder_await q k :
    probes_scope g q ->
    k Cancelled = Modify sem_release (Throw CancelledError) ->
    (forall r, holder g (k r)) -> holder g (Await q k)
| holder_get k : (forall s, holder g (k s)) -> holder g (Get k)
| holder_report u k : ent_id u = uid -> holder g k -> holder g (Modify (report u) k)
| holder_log m k : holder g k -> holder g (Log m k).

(** Where the probe of [g] is: not started, waiting for a slot, holding one
    at a remote call, or finished. *)
Inductive probe_state (g : Scope) : kid Resolver unit -> Prop :=
| probe_new b : probe_state g (mkKid (KNew (probe_group uid per_limit g)) b)
| probe_queued b : probe_state g (mkKid (KWait (probe_group uid per_limit g)) b)
| probe_holding q k b :
    holder g (Await q k) -> probe_state g (mkKid (KWait (Await q k)) b)
| probe_done o b : probe_state g (mkKid (KDone o) b).

(** What a step of a probe does to [found_user] and [done_event]: nothing,
    or it reports an entity whose id is [uid]. *)
Definition reported (s s' : Resolver) : Prop :=
  (found_user s' = found_user s /\ done_event s' = done_event s)
  \/ (exists u, ent_id u = uid /\ found_user s' = Some u /\ done_event s' = true).

(** [finder c]: unless the event is set by another probe before, [c]
    reports, whenever Telegram answers its calls. *)
Inductive finder : task Resolver unit -> Prop :=
| finder_report f k : (forall s, done_event (f s) = true) -> finder (Modify f k)
| finder_await q k : (forall n, finder (k (Answer (remote n q)))) -> finder (Await q k)
| finder_get k : (forall s, done_event s = false -> finder (k s)) -> finder (Get k)
| finder_acquire k : finder (k true) -> finder (Acquire sem_acquire k)
| finder_log m k : finder k -> finder (Log m k).

Definition hopeful (k : kid Resolver unit) : Prop :=
  match kid_state k with
  | KNew c | KWait c => finder c
  | KDone _ => False
  end.

(** The membership lookup of [g] answers with the target. *)
Definition answers_with_target (g : Scope) : Prop :=
  forall n, exists p u,
    remote n (GetParticipantRequest (scope_id g) uid) = RParticipant p
    /\ find (fun u => ent_id u =? uid) (users p) = Some u.

(** The iteration over the members of [g] yields the target at a position
    below the limit, and neither ends nor fails before. *)
Definition lists_target (g : Scope) : Prop :=
  exists pos u,
    (pos < per_limit)%nat /\ ent_id u = uid
    /\ (forall n, remote n (IterParticipantsNext (scope_id g) per_limit pos) = REntity u)
    /\ (forall n i, (i < pos)%nat ->
          match remote n (IterParticipantsNext (scope_id g) per_limit i) with
          | RStop | RError _ => False
          | _ => True
          end).

(** The scope [g] contains the target: Telegram tells so, by the lookup or
    by the iteration, whenever it is asked. *)
Definition contains (g : Scope) : Prop :=
  answers_with_target g \/ lists_target g.

(** The iteration over the members of [g] never yields the target, and the
    lookup never answers with it. *)
Definition lacks (g : Scope) : Prop :=
  (forall n p, remote n (GetParticipantRequest (scope_id g) uid) = RParticipant p ->
     find (fun u => ent_id u =? uid) (users p) = None)
  /\ (forall n pos u, remote n (IterParticipantsNext (scope_id g) per_limit pos) = REntity u ->
        ent_id u <> uid).

End RaceStates.

Section RaceInvariant.
Variable remote : nat -> request -> response.
Variable scopes : list Scope.
Variable uid : Z.
Variable per_group_limit : option nat.
Variable s0 : Resolver.

(** The shared state during the race: the caches are as the call found
    them; the free slots and the slots held add up to [PARALLEL_LIMIT];
    [found_user] holds nothing or an entity whose id is [uid], and the event
    is set exactly when it holds one; a task is asked to cancel only once
    the event is set. *)
Definition race_store (s : Resolver) (ks : list (kid Resolver unit)) : Prop :=
  cache s = cache s0
  /\ (semaphore s + slots_held ks = PARALLEL_LIMIT)%nat
  /\ (forall u, found_user s = Some u -> ent_id u = uid)
  /\ (done_event s = true <-> is_Some (found_user s))
  /\ Forall (fun k => cancel_requested k = true -> done_event s = true) ks
  /\ (Exists (fun g => finder remote (probe_group uid (scan_limit per_group_limit) g)) scopes ->
      done_event s = true \/ Exists (hopeful remote) ks).

(** The states of a call of the resolver.  Once it has left the polling
    loop, every probe is finished or has been asked to cancel. *)
Inductive race_state : thread Resolver unit (option Entity) -> env Resolver -> Prop :=
| race_new e :
    store e = s0 -> trace e = [] ->
    race_state
      (mkThread (MNew (_resolve_user_across_groups_by_id scopes uid per_group_limit))
                [] 0%nat) e
| race_hit user ts e :
    entities (cache s0) !! pretty uid = Some (user, ts) ->
    store e = s0 -> trace e = [] ->
    race_state (mkThread (MDone (Returned (Some user))) [] 0%nat) e
| race_polling ks e :
    entities (cache s0) !! pretty uid = None ->
    Forall2 (probe_state uid (scan_limit per_group_limit)) scopes ks ->
    race_store (store e) ks ->
    race_state (mkThread (MWait (PollWhile race_pending (race_finally uid))) ks 0%nat) e
| race_joining ks e :
    entities (cache s0) !! pretty uid = None ->
    Forall2 (probe_state uid (scan_limit per_group_limit)) scopes ks ->
    race_store (store e) ks ->
    Forall called_off ks ->
    race_state (mkThread (MWait (JoinAll (race_result uid))) ks 0%nat) e
| race_returned r ks e :
    entities (cache s0) !! pretty uid = None ->
    Forall2 (probe_state uid (scan_limit per_group_limit)) scopes ks ->
    Forall (fun k => kid_done k = true) ks ->
    found_user (store e) = r ->
    match r with
    | Some u =>
        ent_id u = uid
        /\ exists t, cache (store e)
                     = mkCache (groups (cache s0)) (permissions (cache s0))
                         (<[pretty uid := (u, t)]> (entities (cache s0)))
    | None => cache (store e) = cache s0 /\ done_event (store e) = false
    end ->
    (Exists (fun g => finder remote (probe_group uid (scan_limit per_group_limit) g)) scopes ->
     r <> None) ->
    race_state (mkThread (MDone (Returned r)) ks 0%nat) e.

End RaceInvariant.

(** ** Concrete scenarios *)

(** A target that is a channel persona, on a bad day: the bare id 777 is
    refused by [EditBannedRequest], the entity cannot be resolved, while the
    membership lookup does tell the channel 555 behind the participant, which
    [EditBannedRequest] accepts. *)
Definition persona_remote (n : nat) (q : request) : response :=
  match q with
  | EditBannedRequest _ (PeerId 777) _ => RError "PEER_ID_INVALID"
  | GetEntity _ => RError "Could not find the input entity"
  | GetParticipantRequest _ _ => RParticipant (mkParticipant None (Some 555) [])
  | _ => ROk
  end.

(** A fleet of [n] groups, numbered from 1. *)
Definition fleet (n : nat) : list Scope :=
  map (fun k => mkScope (Z.of_nat k) ("group " +:+ pretty k)) (seq 1 n).

(** The same 25 groups, the third with an empty title. *)
Definition fleet_with_untitled : list Scope := <[2%nat := mkScope 3 ""]> (fleet 25).

(** The groups in which the account has lost the right to ban. *)
Definition refusing : list Z := [3; 7; 12; 22; 25].

(** Telegram when the rights change is refused in the groups of [refusing]
    and accepted elsewhere, and the target cannot be resolved. *)
Definition fleet_remote (n : nat) (q : request) : response :=
  match q with
  | EditBannedRequest chat _ _ =>
      if bool_decide (chat ∈ refusing) then RError "CHAT_ADMIN_REQUIRED" else ROk
  | GetEntity _ => RError "Could not find the input entity"
  | GetParticipantRequest _ _ => RError "USER_NOT_PARTICIPANT"
  | _ => ROk
  end.

Definition fleet_verdicts (g : Scope) : verdict :=
  if bool_decide (scope_id g ∈ refusing) then Refuses else Accepts.

(** [ChatBannedRights(until_date=0)], the rights of an unban. *)
Definition unban_rights : ChatBannedRights := mkRights (Some 0) false false false.

(** [ChatBannedRights(until_date=None, view_messages=True, ...)], the rights
    of [sb]. *)
Definition ban_rights : ChatBannedRights := mkRights None true true true.


(** An executor that raises in group 2 and is [safe_ban_action]
    elsewhere. *)
Definition flaky_action (chat_id user_id : Z) (rights : ChatBannedRights)
    : task unit bool :=
  if chat_id =? 2 then Throw (Error "RPCError")
  else safe_ban_action chat_id user_id rights.

(** A cold cache. *)
Definition cold : Cache := mkCache (mkGroupsCache 0 [] false) ∅ ∅.

(** Thirteen dialogs: twelve groups, and a private chat in eleventh place. *)
Definition thirteen_dialogs : list Dialog :=
  map (fun k => mkDialog (Z.of_nat k) ("group " +:+ pretty k) (negb (k =? 11)%nat) false)
    (seq 1 13).

(** The groups in which the account may ban. *)
Definition administered : list Z := [1; 2; 4; 5; 6; 7; 9].

(** Telegram for an account, of id 100, that may ban in the seven groups of
    [administered]: the probe is refused in group 3, the account is an
    administrator without the right to ban in group 8, and a plain member
    elsewhere. *)
Definition seven_remote (n : nat) (q : request) : response :=
  match q with
  | GetMe => REntity (mkEntity 100 None false)
  | IterDialogs => RDialogs thirteen_dialogs
  | GetParticipantRequest chat 100 =>
      if bool_decide (chat ∈ administered)
      then RParticipant (mkParticipant (Some (mkAdminRights true)) None [])
      else if chat =? 3 then RError "CHANNEL_PRIVATE"
      else if chat =? 8 then RParticipant (mkParticipant (Some (mkAdminRights false)) None [])
      else RParticipant (mkParticipant None None [])
  | _ => RError "unexpected"
  end.

(** Telegram for an account that has no dialog at all. *)
Definition barren_remote (n : nat) (q : request) : response :=
  match q with
  | GetMe => REntity (mkEntity 100 None false)
  | IterDialogs => RDialogs []
  | _ => RError "unexpected"
  end.

(** Telegram when it answers [get_me] and refuses everything else. *)
Definition flood_remote (n : nat) (q : request) : response :=
  match q with
  | GetMe => REntity (mkEntity 100 None false)
  | _ => RError "FLOOD_WAIT"
  end.

(** A schedule that resumes, [rounds] times over, each of the first [n]
    threads and then each of its first [m] tasks. *)
Definition interleaved (n m rounds : nat) : list choice :=
  concat (replicate rounds
            (flat_map (fun i => RunMain i :: map (RunKid i) (seq 0 m)) (seq 0 n))).

(** The refresh of thread 0 over the thirteen dialogs, up to the moment
    when every probe has been answered and the coroutine has not yet been
    resumed to store what was found. *)
Definition first_refresh : list choice :=
  [RunMain 0; RunMain 0; RunMain 0]
  ++ map (RunKid 0) (seq 0 10) ++ map (RunKid 0) (seq 0 10)
  ++ [RunMain 0; RunKid 0 10; RunKid 0 11; RunKid 0 10; RunKid 0 11].

(** A cache that holds a group the account has left since. *)
Definition stale_cache : Cache :=
  mkCache (mkGroupsCache 1700000000 [Group (mkScope 99 "group 99")] false) ∅ ∅.

(** The target of the resolver scenarios, and the state the resolver starts
    from when nothing is cached. *)
Definition target_user : Entity := mkEntity 777 (Some 5) false.

Definition resolver_cold : Resolver := mkResolver cold None false 0.

(** Three groups of which the first, group 1, has the target among its
    members. *)
Definition race_scopes : list Scope :=
  [mkScope 1 "group 1"; mkScope 2 "group 2"; mkScope 3 "group 3"].

(** Telegram for these groups: the membership lookup tells the target in
    group 1 and fails in the others; the members of group 2 are many, none
    of them the target; those of group 3 cannot be listed. *)
Definition race_remote (n : nat) (q : request) : response :=
  match q with
  | GetParticipantRequest 1 777 => RParticipant (mkParticipant None None [target_user])
  | GetParticipantRequest _ _ => RError "USER_NOT_PARTICIPANT"
  | IterParticipantsNext 2 _ pos => REntity (mkEntity (1000 + Z.of_nat pos) None false)
  | IterParticipantsNext 3 _ _ => RError "CHAT_ADMIN_REQUIRED"
  | IterParticipantsNext _ _ _ => RStop
  | _ => RError "unexpected"
  end.

(** The schedule up to the match: the resolver starts its probes; the probe
    of group 2 looks the target up, fails, and starts to list the members;
    the probe of group 1 looks the target up and finds it. *)
Definition until_the_match : list choice :=
  [RunMain 0; RunKid 0 1; RunKid 0 1; RunKid 0 0; RunKid 0 0].

(** What follows: the probe of group 2 receives the first member and asks
    for the next; then the resolver wakes up and cancels, the probes end,
    and the resolver returns. *)
Definition after_the_match : list choice :=
  [RunKid 0 1; RunMain 0; RunKid 0 1; RunKid 0 2; RunMain 0].

(** ** The permission cache (lines 173-193) *)

Local Open Scope coro_scope.

(** [_CACHE["permissions"][chat_id] = {"data": result, "timestamp":
    time.time()}]. *)
Definition set_permission (chat_id : Z) (result : bool) (t : Z) (c : Cache) : Cache :=
  mkCache (groups c) (<[chat_id := (result, t)]> (permissions c)) (entities c).

(** Lines 190-196: the probe on a miss of the permission cache.  Reading
    [me.id] of a reply that is no entity, or [part.participant] of a reply
    that is no participant, raises [AttributeError]. *)
Definition permission_probe {A} (chat_id : Z) : coro Cache A bool :=
  let* me := cclient GetMe in
  match reply_entity me with
  | Some me =>
      let* part := cclient (GetParticipantRequest chat_id (ent_id me)) in
      match part with
      | RParticipant p =>
          let result := match admin_rights p with
                        | Some rights => ban_users rights
                        | None => false
                        end in
          CNow (fun t => CModify (set_permission chat_id result t) (CRet result))
      | _ => CThrow (Error "AttributeError")
      end
  | None => CThrow (Error "AttributeError")
  end.

(** [check_permissions(client, chat_id, action)]; [action] is not read. *)
Definition check_permissions {A} (chat_id : Z) : coro Cache A bool :=
  ctry_except
    (CGet (fun c => CNow (fun now =>
       match permissions c !! chat_id with
       | Some (data, timestamp) =>
           if cache_valid now timestamp then CRet data else permission_probe chat_id
       | None => permission_probe chat_id
       end)))
    (fun _ => CRet false).

Local Close Scope coro_scope.

(** ** The arguments of a command (lines 61-65) *)

(** A Python [str] is read here as the list of its characters.  The
    characters are those of any alphabet [C]; [isspace] is [str.isspace] on
    one character. *)
Section Words.
Context {C : Type}.
Variable isspace : C -> bool.

(** [s.split()]: the maximal runs of characters that are not whitespace, in
    order.  [word] holds, last character first, the run being read. *)
Fixpoint split_from (word : list C) (s : list C) : list (list C) :=
  match s with
  | [] => if nonempty word then [rev word] else []
  | c :: s' =>
      if isspace c
      then (if nonempty word then rev word :: split_from [] s' else split_from [] s')
      else split_from (c :: word) s'
  end.

Definition str_split (s : list C) : list (list C) := split_from [] s.

(** [sep.join(words)]. *)
Fixpoint str_join (sep : list C) (words : list (list C)) : list C :=
  match words with
  | [] => []
  | [w] => w
  | w :: ws => w ++ sep ++ str_join sep ws
  end.

(** What [message.parameter] may hold: a string, a list of strings, or
    anything else. *)
Inductive parameter :=
| ParamStr (s : list C)
| ParamList (l : list (list C))
| ParamOther.

(** [parse_args(parameter)]. *)
Definition parse_args (p : parameter) : list (list C) :=
  match p with
  | ParamStr s => if nonempty s then str_split s else []
  | ParamList l => l
  | ParamOther => []
  end.

(** A word as [split] yields them: not empty, and free of whitespace. *)
Definition is_word (w : list C) : Prop :=
  w <> [] /\ Forall (fun c => isspace c = false) w.

End Words.

(** [str.isspace] on the characters below U+0100: the separators U+001C to
    U+001F, tab to carriage return, the space, NEL and the no-break space. *)
Definition latin1_isspace (c : Ascii.ascii) : bool :=
  let n := Ascii.nat_of_ascii c in
  ((9 <=? n) && (n <=? 13) || (28 <=? n) && (n <=? 32)
   || (n =? 133) || (n =? 160))%nat.

(** The parameter of a [mute] command, with blanks of several kinds: two
    spaces, a tab followed by a no-break space, a trailing space. *)
Definition mute_parameter : list Ascii.ascii :=
  String.list_ascii_of_string "  @user" ++ [Ascii.ascii_of_nat 9; Ascii.ascii_of_nat 160]
  ++ String.list_ascii_of_string "60 spam  and ads ".

(** ** What Telegram is asked, and what it answers *)

(** The rights changes among the events of a trace. *)
Definition is_rights_change (ev : event) : bool :=
  match ev with Request (EditBannedRequest _ _ _) => true | _ => false end.

Definition rights_changes (tr : list event) : nat :=
  length (filter (fun ev => is_rights_change ev = true) tr).

(** Telegram accepts, whenever it is asked, the change of [rights] in
    [chat] for the target addressed by its bare id. *)
Definition accepts_direct (remote : nat -> request -> response) (chat uid : Z)
    (rights : ChatBannedRights) : Prop :=
  forall n msg, remote n (EditBannedRequest chat (PeerId uid) rights) <> RError msg.

(** Telegram refuses, whenever it is asked, the change of [rights] in
    [chat], however the target is addressed. *)
Definition refuses_all (remote : nat -> request -> response) (chat : Z)
    (rights : ChatBannedRights) : Prop :=
  forall n peer, exists msg, remote n (EditBannedRequest chat peer rights) = RError msg.

(** The remote calls of a dispatch of [rights] for [uid] over the chats
    [ids]: rights changes and membership lookups in these chats, the
    resolution of [uid], and, when the rights revoke [view_messages], the
    deletion of the target's messages in these chats. *)
Definition dispatch_request (ids : list Z) (uid : Z) (rights : ChatBannedRights)
    (q : request) : Prop :=
  match q with
  | EditBannedRequest chat _ r => chat ∈ ids /\ r = rights
  | DeleteParticipantHistoryRequest chat _ => chat ∈ ids /\ view_messages rights = true
  | GetParticipantRequest chat u => chat ∈ ids /\ u = uid
  | GetEntity t => t = TargetId uid
  | _ => False
  end.

(** [spawns_only P F c]: every remote call of [c], and of the tasks it
    creates, satisfies [P]; every update of the shared state by [c] is a
    step of [F], and its tasks leave the shared state alone. *)
Inductive spawns_only {St A R} (P : request -> Prop) (F : St -> St -> Prop)
    : coro St A R -> Prop :=
| so_ret r : spawns_only P F (CRet r)
| so_throw x : spawns_only P F (CThrow x)
| so_await q k : P q -> (forall r, spawns_only P F (k r)) -> spawns_only P F (CAwait q k)
| so_get k : (forall s, spawns_only P F (k s)) -> spawns_only P F (CGet k)
| so_modify f k :
    (forall s, F s (f s)) -> spawns_only P F k -> spawns_only P F (CModify f k)
| so_acquire g k :
    (forall s s', g s = Some s' -> F s s') -> spawns_only P F k ->
    spawns_only P F (CAcquire g k)
| so_log m k : spawns_only P F k -> spawns_only P F (CLog m k)
| so_now k : (forall t, spawns_only P F (k t)) -> spawns_only P F (CNow k)
| so_spawn cs k :
    Forall (asks_only P) cs -> spawns_only P F k -> spawns_only P F (Spawn cs k)
| so_poll cond k : spawns_only P F k -> spawns_only P F (PollWhile cond k)
| so_cancel k : spawns_only P F k -> spawns_only P F (CancelPending k)
| so_join k : (forall os, spawns_only P F (k os)) -> spawns_only P F (JoinAll k).

(** A thread whose coroutine and tasks stay within [P] and [F]. *)
Definition thread_asks {St A R} (P : request -> Prop) (F : St -> St -> Prop)
    (t : thread St A R) : Prop :=
  match main t with
  | MNew c | MWait c => spawns_only P F c
  | MDone _ => True
  end
  /\ Forall (kid_asks P) (kids t).

(** A system that was started in store [s0] and has stayed within [P] and
    [F] since. *)
Definition sys_asks {St A R} (P : request -> Prop) (F : St -> St -> Prop) (s0 : St)
    (σ : sys St A R) : Prop :=
  Forall (thread_asks P F) (threads σ)
  /\ Forall (event_asks P) (trace (senv σ))
  /\ F s0 (store (senv σ)).

(** The caches of the permissions and of the entities are the same in [c']
    as in [c]. *)
Definition same_but_groups (c c' : Cache) : Prop :=
  permissions c' = permissions c /\ entities c' = entities c.

(** A caller of [get_managed_groups] on the cache [c0], when the groups of
    [c0] are enumerated: it has not started, or it has returned them. *)
Definition served (c0 : Cache) (t : thread Cache (option Scope) (list Managed)) : Prop :=
  t = mkThread (MNew get_managed_groups) [] 0%nat
  \/ t = mkThread (MDone (Returned (data (groups c0)))) [] 0%nat.

(** Callers on such a cache: nothing has been asked and nothing written. *)
Definition warm_inv (c0 : Cache) (σ : sys Cache (option Scope) (list Managed)) : Prop :=
  senv σ = mkEnv c0 0%nat [] /\ Forall (served c0) (threads σ).

(** The calls of an enumeration of the managed groups: they read. *)
Definition reads_only (q : request) : Prop :=
  match q with
  | GetMe | IterDialogs | GetParticipantRequest _ _ => True
  | _ => False
  end.

(** ** How much Telegram is asked *)

(** The remote calls among the events of a trace. *)
Definition is_request (ev : event) : bool :=
  match ev with Request _ => true | Logged _ => false end.

Definition count_events (p : event -> bool) (tr : list event) : nat :=
  length (filter (fun ev => p ev = true) tr).

Definition requests (tr : list event) : nat := count_events is_request tr.

Definition counted (p : event -> bool) (ev : event) : nat := if p ev then 1 else 0.

(** [costs p n c]: whatever the replies, [c] leaves at most [n] events that
    satisfy [p]. *)
Inductive costs {St A} (p : event -> bool) : nat -> task St A -> Prop :=
| costs_ret n a : costs p n (Ret a)
| costs_throw n x : costs p n (Throw x)
| costs_await n m q k :
    (forall r, costs p m (k r)) -> (counted p (Request q) + m <= n)%nat ->
    costs p n (Await q k)
| costs_log n m msg k :
    costs p m k -> (counted p (Logged msg) + m <= n)%nat -> costs p n (Log msg k).

(** Telegram on the worst day for [safe_ban_action]: every rights change and
    every deletion is refused, while the target resolves and is a member
    under a channel identity. *)
Definition worst_remote (n : nat) (q : request) : response :=
  match q with
  | GetEntity _ => REntity target_user
  | GetParticipantRequest _ _ => RParticipant (mkParticipant None (Some 555) [])
  | _ => RError "CHAT_ADMIN_REQUIRED"
  end.

(** The groups of the fleet that accept a rights change. *)
Definition fleet_accepting (g : Scope) : bool :=
  negb (bool_decide (scope_id g ∈ refusing)).
(** * Properties *)

Create HintDb coroutines.
#[export] Hint Constructors raises_only_errors returns : coroutines.

Lemma returns_raises_only_errors {St A} (c : task St A) :
  returns c -> raises_only_errors c.
Proof. induction 1; auto with coroutines. Qed.

Lemma raises_only_errors_bind {St A B} (c : task St A) (f : A -> task St B) :
  raises_only_errors c -> (forall a, raises_only_errors (f a)) ->
  raises_only_errors (bind c f).
Proof. induction 1; intros Hf; simpl; auto with coroutines. Qed.

Lemma returns_bind {St A B} (c : task St A) (f : A -> task St B) :
  returns c -> (forall a, returns (f a)) -> returns (bind c f).
Proof. induction 1; intros Hf; simpl; auto with coroutines. Qed.

Lemma returns_try_except {St A} (c : task St A) h :
  raises_only_errors c -> (forall m, returns (h m)) -> returns (try_except c h).
Proof. induction 1; intros Hh; simpl; auto with coroutines. Qed.

Lemma raises_only_errors_try_except {St A} (c : task St A) h :
  raises_only_errors c -> (forall m, raises_only_errors (h m)) ->
  raises_only_errors (try_except c h).
Proof. induction 1; intros Hh; simpl; auto with coroutines. Qed.

Lemma raises_only_errors_client {St} q : raises_only_errors (@client St q).
Proof. constructor. intros []; auto with coroutines. Qed.

#[export] Hint Resolve returns_raises_only_errors raises_only_errors_bind returns_bind
  returns_try_except raises_only_errors_try_except raises_only_errors_client : coroutines.

Lemma run_task_returns {St A} remote (c : task St A) e :
  returns c -> exists a e', run_task remote c e = (KDone (Returned a), e').
Proof.
  intros H. revert e. induction H; intros e; simpl; eauto.
Qed.

(** Running a sequence is running its parts in turn. *)
Lemma run_task_bind {St A B} remote (c : task St A) (f : A -> task St B) e a e' :
  run_task remote c e = (KDone (Returned a), e') ->
  run_task remote (bind c f) e = run_task remote (f a) e'.
Proof.
  revert e. induction c as [b|x|q k IH|k IH|g k IH|g k IH|m k IH]; intros e; simpl.
  - intros [= -> ->]. reflexivity.
  - intros [= ].
  - apply IH.
  - apply IH.
  - apply IH.
  - destruct (g (store e)); [apply IH | intros [= ]].
  - apply IH.
Qed.

Lemma run_task_try_except_returned {St A} remote (c : task St A) h e a e' :
  run_task remote c e = (KDone (Returned a), e') ->
  run_task remote (try_except c h) e = (KDone (Returned a), e').
Proof.
  revert e. induction c as [b|x|q k IH|k IH|g k IH|g k IH|m k IH]; intros e; simpl.
  - intros [= -> ->]. reflexivity.
  - intros [= ].
  - apply IH.
  - apply IH.
  - apply IH.
  - destruct (g (store e)); [apply IH | intros [= ]].
  - apply IH.
Qed.

(** The trace of a run extends the trace it started from. *)
Lemma run_task_trace {St A} remote (c : task St A) e :
  exists evs, trace (run_task remote c e).2 = trace e ++ evs.
Proof.
  revert e. induction c as [b|x|q k IH|k IH|g k IH|g k IH|m k IH]; intros e; simpl.
  - exists []. by rewrite app_nil_r.
  - exists []. by rewrite app_nil_r.
  - destruct (IH (Answer (remote (now e) q))
                 (mkEnv (store e) (S (now e)) (trace e ++ [Request q]))) as [evs ->].
    simpl. exists (Request q :: evs). by rewrite <- app_assoc.
  - apply IH.
  - destruct (IH (mkEnv (g (store e)) (now e) (trace e))) as [evs ->]. by exists evs.
  - destruct (g (store e)) as [s'|].
    + destruct (IH true (mkEnv s' (now e) (trace e))) as [evs ->]. by exists evs.
    + exists []. by rewrite app_nil_r.
  - destruct (IH (mkEnv (store e) (now e) (trace e ++ [Logged m]))) as [evs ->].
    simpl. exists (Logged m :: evs). by rewrite <- app_assoc.
Qed.

(** ** The fallback-chain executor *)

Section ExecutorFacts.
Context {St : Type}.

Lemma safe_get_entity_returns t : returns (@safe_get_entity St t).
Proof.
  unfold safe_get_entity. apply returns_try_except.
  - destruct t; auto with coroutines.
  - auto with coroutines.
Qed.

Lemma method3_returns chat uid rights : returns (@method3 St chat uid rights).
Proof.
  unfold method3. apply returns_try_except; [|auto with coroutines].
  apply raises_only_errors_bind; [auto with coroutines|]. intros r.
  apply raises_only_errors_bind.
  - destruct r; simpl; auto with coroutines.
  - intros p. destruct (peer_channel_id p); auto 6 with coroutines.
Qed.

Lemma method4_returns chat uid rights : returns (@method4 St chat uid rights).
Proof.
  unfold method4. apply returns_try_except; [|auto with coroutines].
  apply raises_only_errors_bind.
  - apply returns_raises_only_errors, safe_get_entity_returns.
  - intros [ent|]; [|auto with coroutines].
    destruct (ent_access_hash ent) as [h|]; [|auto with coroutines].
    destruct (h =? 0); auto with coroutines.
Qed.

Lemma ban_methods_returns chat uid rights : returns (@ban_methods St chat uid rights).
Proof.
  unfold ban_methods. apply returns_try_except; [auto with coroutines|].
  intros _. constructor. apply returns_try_except.
  - apply raises_only_errors_bind.
    + apply returns_raises_only_errors, safe_get_entity_returns.
    + intros [ent|]; auto with coroutines.
  - intros _. constructor. apply returns_bind; [apply method3_returns|].
    intros []; simpl; [auto with coroutines | apply method4_returns].
Qed.

Lemma delete_history_returns chat uid : returns (@delete_history St chat uid).
Proof.
  unfold delete_history. apply returns_try_except; [|auto with coroutines].
  apply returns_raises_only_errors, returns_try_except; [auto with coroutines|].
  intros _. constructor. apply returns_try_except; [|auto with coroutines].
  apply raises_only_errors_bind.
  - apply returns_raises_only_errors, safe_get_entity_returns.
  - intros [ent|]; auto with coroutines.
Qed.

(** [safe_ban_action] swallows every exception: it returns a boolean
    whatever Telegram answers. *)
Lemma safe_ban_action_returns chat uid rights :
  returns (@safe_ban_action St chat uid rights).
Proof.
  unfold safe_ban_action. apply returns_try_except; [|auto with coroutines].
  apply returns_raises_only_errors, returns_bind; [apply ban_methods_returns|].
  intros b. apply returns_bind; [|auto with coroutines].
  destruct (view_messages rights); [apply delete_history_returns | auto with coroutines].
Qed.

(** C3, at the failing input: the direct id is refused and the entity does
    not resolve; [safe_ban_action] returns [False] after these two calls,
    and the membership lookup of method 3 is never issued, although method 3
    run at that point would have banned the channel persona. *)
Theorem safe_ban_action_skips_methods_3_and_4 (s : St) :
  run_task persona_remote (safe_ban_action (-1001) 777 unban_rights) (mkEnv s 0%nat [])
  = (KDone (Returned false),
     mkEnv s 2%nat
       [Request (EditBannedRequest (-1001) (PeerId 777) unban_rights);
        Logged "[AdvancedBan] Method 1 (direct ID) failed";
        Request (GetEntity (TargetId 777));
        Logged "[AdvancedBan] Get entity error"])
  /\ (run_task persona_remote (method3 (-1001) 777 unban_rights) (mkEnv s 2%nat [])).1
     = KDone (Returned true).
Proof. split; reflexivity. Qed.

(** C6: whatever Telegram answers, [safe_ban_action] returns the value
    [ban_success] that the four methods (lines 311-368) left, and the purge
    of lines 370-406 that runs in between, exactly when [view_messages] is
    set, always completes; it starts with the deletion by the bare id, and
    goes on, when that raises and the entity resolves, with the deletion by
    the entity. *)
Theorem purge_never_changes_the_result remote chat uid rights (e : env St) :
  exists b e0 e1,
    run_task remote (ban_methods chat uid rights) e = (KDone (Returned b), e0)
    /\ run_task remote (safe_ban_action chat uid rights) e = (KDone (Returned b), e1)
    /\ (if view_messages rights
        then run_task remote (delete_history chat uid) e0 = (KDone (Returned tt), e1)
             /\ (exists evs,
                  trace e1 = trace e0
                    ++ Request (DeleteParticipantHistoryRequest chat (PeerId uid)) :: evs)
             /\ (forall msg ent,
                  remote (now e0) (DeleteParticipantHistoryRequest chat (PeerId uid))
                    = RError msg ->
                  remote (S (now e0)) (GetEntity (TargetId uid)) = REntity ent ->
                  exists evs,
                    trace e1 = trace e0
                      ++ [Request (DeleteParticipantHistoryRequest chat (PeerId uid));
                          Logged "[AdvancedBan] Method 1 delete failed";
                          Request (GetEntity (TargetId uid));
                          Request (DeleteParticipantHistoryRequest chat (PeerEntity ent))]
                      ++ evs)
        else e1 = e0).
Proof.
  destruct (run_task_returns remote _ e (ban_methods_returns chat uid rights))
    as (b & e0 & Hb).
  exists b, e0.
  unfold safe_ban_action.
  destruct (view_messages rights).
  - destruct (run_task_returns remote _ e0 (delete_history_returns chat uid))
      as ([] & e1 & Hd).
    exists e1. split; [exact Hb|]. split; [|split; [exact Hd|split]].
    + apply run_task_try_except_returned.
      rewrite (run_task_bind _ _ _ _ _ _ Hb).
      rewrite (run_task_bind _ _ _ _ _ _ Hd). reflexivity.
    + pose proof (f_equal (fun r => trace r.2) Hd) as Ht. simpl in Ht.
      rewrite <- Ht. unfold delete_history. simpl.
      match goal with |- context [run_task remote ?c ?e'] =>
        destruct (run_task_trace remote c e') as [evs ->] end.
      simpl. rewrite <- app_assoc. eauto.
    + intros msg ent H1 H2.
      pose proof (f_equal (fun r => trace r.2) Hd) as Ht. simpl in Ht.
      rewrite <- Ht. unfold delete_history. simpl. rewrite H1. simpl.
      rewrite H2. simpl.
      match goal with |- context [run_task remote ?c ?e'] =>
        destruct (run_task_trace remote c e') as [evs ->] end.
      simpl. exists evs. rewrite <- !app_assoc. reflexivity.
  - exists e0. split; [exact Hb|]. split; [|reflexivity].
    apply run_task_try_except_returned.
    rewrite (run_task_bind _ _ _ _ _ _ Hb). reflexivity.
Qed.

End ExecutorFacts.

(** ** Tasks that settle *)

Lemma settles_mono {St A} remote (Q Q' : outcome A -> Prop) (c : task St A) :
  settles remote Q c -> (forall o, Q o -> Q' o) -> settles remote Q' c.
Proof. induction 1; intros HQ; constructor; auto. Qed.

Lemma returns_settles {St A} remote (c : task St A) :
  returns c -> settles remote (returned_with (fun _ => True)) c.
Proof. induction 1; constructor; simpl; auto. Qed.

Lemma settles_bind {St A B} remote (Q1 : outcome A -> Prop) (Q : outcome B -> Prop)
    (c : task St A) (f : A -> task St B) :
  settles remote Q1 c ->
  (forall a, Q1 (Returned a) -> settles remote Q (f a)) ->
  (forall x, Q1 (Raised x) -> Q (Raised x)) ->
  settles remote Q (bind c f).
Proof. induction 1; intros Hf Hx; simpl; try constructor; auto. Qed.

Lemma settles_try_except {St A} remote (Q1 Q : outcome A -> Prop) (c : task St A) h :
  settles remote Q1 c ->
  (forall a, Q1 (Returned a) -> Q (Returned a)) ->
  (forall m, Q1 (Raised (Error m)) -> settles remote Q (h m)) ->
  (Q1 (Raised CancelledError) -> Q (Raised CancelledError)) ->
  settles remote Q (try_except c h).
Proof.
  induction 1; intros Ha Hh Hc; simpl; try (constructor; auto; fail).
  destruct x; [auto | constructor; auto].
Qed.

Lemma advance_settles {St A} remote (Q : outcome A -> Prop) (c : task St A) e :
  settles remote Q c ->
  match (advance c e).1 with
  | KNew c' | KWait c' => settles remote Q c'
  | KDone o => Q o
  end.
Proof.
  intros H. revert e. induction H; intros e; simpl; auto.
  - constructor; auto.
  - apply IHsettles.
Qed.

Lemma step_kid_ok {St A} remote (Q : outcome A -> Prop) (k : kid St A) e :
  kid_ok remote Q k -> kid_ok remote Q (step_kid remote k e).1.
Proof.
  destruct k as [st cancel]. intros [Hc H]. simpl in *. subst cancel.
  unfold step_kid. simpl. destruct st as [c|c|o]; simpl.
  - pose proof (advance_settles remote Q c e H) as H'.
    destruct (advance c e) as [st e']. split; [reflexivity | exact H'].
  - assert (match (resume remote c false e).1 with
            | KNew c' | KWait c' => settles remote Q c'
            | KDone o => Q o
            end) as H'.
    { destruct H; simpl.
      - assumption.
      - assumption.
      - apply advance_settles. auto.
      - apply advance_settles. assumption. }
    destruct (resume remote c false e) as [st e']. split; [reflexivity | exact H'].
  - split; [reflexivity | exact H].
Qed.

(** A finished task stays as it is. *)
Lemma step_kid_done {St A} remote (k : kid St A) e :
  kid_done k = true -> step_kid remote k e = (k, e).
Proof.
  unfold kid_done, step_kid. destruct (kid_state k); intros; try discriminate. reflexivity.
Qed.

(** ** Systems of one thread *)

Lemma run_app {St A R} remote s1 s2 (σ : sys St A R) :
  run remote (s1 ++ s2) σ = run remote s2 (run remote s1 σ).
Proof. unfold run. apply foldl_app. Qed.

(** An invariant of the thread that the steps of the coroutine and of its
    tasks preserve holds after every schedule. *)
Lemma run_single_thread {St A R} remote (I : thread St A R -> env St -> Prop) :
  (forall t e, I t e -> I (step_main remote t e).1 (step_main remote t e).2) ->
  (forall t j e, I t e -> I (step_kid_of remote t j e).1 (step_kid_of remote t j e).2) ->
  forall sched t e, I t e ->
    exists t' e', run remote sched (mkSys e [t]) = mkSys e' [t'] /\ I t' e'.
Proof.
  intros Hmain Hkid sched. induction sched as [|ch sched IH]; intros t e HI.
  - exists t, e. split; [reflexivity | exact HI].
  - change (run remote (ch :: sched) (mkSys e [t]))
      with (run remote sched (step remote ch (mkSys e [t]))).
    destruct ch as [[|i]|[|i] j]; simpl; try (apply IH; exact HI).
    + specialize (Hmain t e HI). destruct (step_main remote t e) as [t' e'].
      apply IH. exact Hmain.
    + specialize (Hkid t j e HI). destruct (step_kid_of remote t j e) as [t' e'].
      apply IH. exact Hkid.
Qed.

(** ** Chunks *)

Lemma chunks_cover_aux {X} (step n : nat) (l : list X) :
  (length l <= n * step)%nat ->
  concat (map (fun i => take step (drop i l)) (map (fun j => j * step)%nat (seq 0 n))) = l.
Proof.
  revert l. induction n as [|n IH]; intros l Hl.
  - destruct l; [reflexivity | simpl in Hl; lia].
  - simpl. rewrite <- fmap_S_seq. rewrite drop_0.
    transitivity (take step l ++ drop step l); [|apply take_drop]. f_equal.
    etransitivity; [|apply (IH (drop step l)); rewrite length_drop; lia].
    f_equal. rewrite <- !list_fmap_compose. apply list_fmap_ext. intros _ j _. simpl.
    rewrite drop_drop. reflexivity.
Qed.

(** The slices [l[i : i + step]] for [i] in [range(0, len(l), step)] are the
    list [l] cut into pieces. *)
Lemma chunks_cover {X} (step : nat) (l : list X) :
  (0 < step)%nat ->
  concat (map (fun i => take step (drop i l)) (py_range 0 (length l) step)) = l.
Proof.
  intros Hs. unfold py_range.
  change (fun j => 0 + j * step)%nat with (fun j => j * step)%nat.
  apply chunks_cover_aux.
  rewrite Nat.sub_0_r.
  pose proof (Nat.div_mod (length l + step - 1) step ltac:(lia)) as Hd.
  pose proof (Nat.mod_upper_bound (length l + step - 1) step ltac:(lia)) as Hm.
  nia.
Qed.

Lemma py_range_lookup (len step k x : nat) :
  (0 < step)%nat ->
  py_range 0 len step !! k = Some x -> x = (k * step)%nat /\ (x < len)%nat.
Proof.
  intros Hs. unfold py_range. rewrite list_lookup_fmap.
  destruct (seq 0 ((len - 0 + step - 1) / step) !! k) as [j|] eqn:Hj; [|discriminate].
  apply lookup_seq in Hj as [-> Hk]. simpl. intros [= <-]. split; [reflexivity|].
  pose proof (Nat.div_mod (len - 0 + step - 1) step ltac:(lia)) as Hd.
  pose proof (Nat.mod_upper_bound (len - 0 + step - 1) step ltac:(lia)) as Hm.
  nia.
Qed.

(** Consecutive values of the loop variable are [step] apart, and a chunk
    that is not the last one is full. *)
Lemma py_range_next {X} (l : list X) (step : nat) pre i i' rest :
  (0 < step)%nat ->
  py_range 0 (length l) step = pre ++ i :: i' :: rest ->
  i' = (i + step)%nat /\ length (take step (drop i l)) = step.
Proof.
  intros Hs Hr.
  assert (py_range 0 (length l) step !! length pre = Some i) as H1
    by (rewrite Hr; by apply list_lookup_middle).
  assert (py_range 0 (length l) step !! S (length pre) = Some i') as H2.
  { rewrite Hr. rewrite lookup_app_r by lia.
    replace (S (length pre) - length pre)%nat with 1%nat by lia. reflexivity. }
  apply py_range_lookup in H1 as [-> _]; [|assumption].
  apply py_range_lookup in H2 as [-> Hlt]; [|assumption].
  split; [lia|]. rewrite length_take, length_drop. lia.
Qed.

(** ** The batch dispatcher *)

Lemma tally_returned acc r :
  exists acc', tally acc (Returned r) = Returned acc'
    /\ (success acc' + failed acc' = S (success acc + failed acc))%nat.
Proof.
  destruct r as [[] reason]; simpl; eexists; (split; [reflexivity|simpl; lia]).
Qed.

Lemma tally_all_returned acc rs :
  exists acc', tally_all acc (map Returned rs) = Returned acc'
    /\ (success acc' + failed acc' = success acc + failed acc + length rs)%nat.
Proof.
  revert acc. induction rs as [|r rs IH]; intros acc; simpl.
  - exists acc. split; [reflexivity | lia].
  - destruct r as [[] reason]; simpl;
      match goal with |- context [tally_all ?a _] =>
        destruct (IH a) as (acc2 & -> & H2) end;
      exists acc2; (split; [reflexivity | simpl in H2; lia]).
Qed.

Lemma tally_all_app acc rs1 rs2 acc1 :
  tally_all acc rs1 = Returned acc1 ->
  tally_all acc (rs1 ++ rs2) = tally_all acc1 rs2.
Proof.
  revert acc. induction rs1 as [|r rs1 IH]; intros acc; simpl.
  - intros [= ->]. reflexivity.
  - destruct (tally acc r); [apply IH | discriminate].
Qed.

Lemma join_results_done {St A} (ks : list (kid St A)) os :
  join_results ks = Some os -> Forall (fun k => kid_done k = true) ks.
Proof.
  revert os. induction ks as [|k ks IH]; intros os; simpl; [constructor|].
  unfold kid_done at 1.
  destruct (kid_state k) eqn:Hk; try discriminate.
  destruct (join_results ks) eqn:Hj; try discriminate.
  intros _. constructor; [unfold kid_done; by rewrite Hk | eapply IH; eauto].
Qed.

Lemma join_results_returned {St A X} remote (P : X -> A -> Prop) (xs : list X)
    (ks : list (kid St A)) os :
  Forall2 (fun x k => kid_ok remote (returned_with (P x)) k) xs ks ->
  join_results ks = Some os ->
  exists rs, os = map Returned rs /\ Forall2 P xs rs.
Proof.
  intros H. revert os. induction H as [|x k xs ks [_ Hk] H IH]; intros os; simpl.
  - intros [= <-]. exists []. split; [reflexivity | constructor].
  - destruct (kid_state k) as [| |o]; try discriminate.
    destruct (join_results ks) as [os'|]; try discriminate.
    intros [= <-]. destruct (IH os' eq_refl) as (rs & -> & Hrs).
    destruct o as [a|]; [|contradiction].
    exists (a :: rs). split; [reflexivity | constructor; assumption].
Qed.

Lemma in_flight_done {St A} (ks : list (kid St A)) :
  Forall (fun k => kid_done k = true) ks -> in_flight ks = 0%nat.
Proof.
  unfold in_flight. induction 1 as [|k ks Hk H IH]; [reflexivity|].
  rewrite filter_cons. destruct (decide (kid_done k = false)); [congruence | exact IH].
Qed.

Lemma in_flight_app {St A} (ks1 ks2 : list (kid St A)) :
  in_flight (ks1 ++ ks2) = (in_flight ks1 + in_flight ks2)%nat.
Proof. unfold in_flight. by rewrite filter_app, length_app. Qed.

Lemma in_flight_le {St A} (ks : list (kid St A)) : (in_flight ks <= length ks)%nat.
Proof. unfold in_flight. apply length_filter. Qed.

Lemma advance_not_new {St A} (c : task St A) e c' : (advance c e).1 <> KNew c'.
Proof.
  revert e. induction c as [a|x|q k IH|k IH|f k IH|g k IH|m k IH]; intros e; simpl;
    try discriminate; auto.
  destruct (g (store e)); [auto | discriminate].
Qed.

Lemma resume_not_new {St A} remote (c : task St A) cancel e c' :
  (resume remote c cancel e).1 <> KNew c'.
Proof.
  destruct c as [a|x|q k|k|f k|g k|m k]; cbn [resume];
    try destruct cancel; apply advance_not_new.
Qed.

(** A task that has not started is the coroutine it was created for. *)
Lemma runs_new_inv {St A} remote (c c0 : task St A) : runs remote c (KNew c0) -> c0 = c.
Proof.
  intros H. inversion H as [|e He|c' cancel e Hc' He|].
  - reflexivity.
  - by apply advance_not_new in He.
  - by apply resume_not_new in He.
Qed.

(** The steps of a task keep it the task of its coroutine. *)
Lemma step_kid_runs {St A} remote (c : task St A) (k : kid St A) e :
  runs remote c (kid_state k) -> runs remote c (kid_state (step_kid remote k e).1).
Proof.
  destruct k as [st cancel]. unfold step_kid. simpl. intros H.
  destruct st as [c0|c0|o]; simpl.
  - apply runs_new_inv in H as ->. destruct cancel; simpl; [apply runs_cancelled|].
    pose proof (runs_started remote c e) as Hs.
    destruct (advance c e) as [st e']. exact Hs.
  - pose proof (runs_resumed remote c c0 cancel e H) as Hs.
    destruct (resume remote c0 cancel e) as [st e']. exact Hs.
  - exact H.
Qed.

Section DispatcherFacts.
Context {St : Type}.
Variable remote : nat -> request -> response.
Variable apply_action : Z -> Z -> ChatBannedRights -> task St bool.
Variables (user_id : Z) (rights : ChatBannedRights) (operation_name : string).
Variable groups : list Scope.
Variable expected : Scope -> bool * option string -> Prop.

Hypothesis process_group_expected : forall g, g ∈ groups ->
  settles remote (returned_with (expected g))
    (process_group apply_action user_id rights operation_name g).

Local Abbreviation batch_state :=
  (batch_state remote apply_action user_id rights operation_name groups expected).
Local Abbreviation batch_loop :=
  (batch_loop apply_action user_id rights operation_name groups).
Local Abbreviation task_of :=
  (task_of remote apply_action user_id rights operation_name).

Lemma chunk_elem_of i g : g ∈ chunk groups i -> g ∈ groups.
Proof.
  unfold chunk. intros H.
  apply list_elem_of_lookup in H as [j Hj].
  apply lookup_take_Some in Hj as [Hj _]. rewrite lookup_drop in Hj.
  eapply list_elem_of_lookup_2; eauto.
Qed.

(** Entering the loop with the chunks at [starts] to come. *)
Lemma batch_loop_enter pre starts done results acc old b e :
  py_range 0 (length groups) BATCH_SIZE = pre ++ starts ->
  match starts with i :: _ => length done = i | [] => True end ->
  groups = done ++ concat (map (chunk groups) starts) ->
  Forall2 expected done results ->
  tally_all (mkBatch 0 0 []) (map Returned results) = Returned acc ->
  Forall (fun k => kid_done k = true) old ->
  length old = length done ->
  Forall2 task_of done old ->
  batch_state (cadvance (batch_loop starts acc) e old b).1.
Proof.
  intros Hp Hi Hg Hd Ht Ho Hl Hto. destruct starts as [|i starts]; simpl.
  - simpl in Hg. rewrite app_nil_r in Hg. subst done.
    eapply batch_returned; eauto.
  - eapply batch_gathering; eauto.
    + apply Forall2_fmap_r, Forall2_fmap_r, Forall_Forall2_diag, Forall_forall.
      intros g Hin. split; [reflexivity|]. simpl.
      apply process_group_expected. eapply chunk_elem_of; eauto.
    + apply Forall2_fmap_r, Forall2_fmap_r, Forall_Forall2_diag, Forall_forall.
      intros g Hin. apply runs_new.
Qed.

Lemma batch_step_main t e : batch_state t -> batch_state (step_main remote t e).1.
Proof.
  intros [|pre done i starts results acc old ks Hp Hi Hg Hd Ht Ho Hl Hk Hto Htk
          |results acc old b Hr Ht Ho Hl Hto];
    unfold step_main; simpl.
  - apply (batch_loop_enter [] _ [] []); auto.
    + destruct (py_range 0 (length groups) BATCH_SIZE) as [|i starts] eqn:Hr; [done|].
      assert (py_range 0 (length groups) BATCH_SIZE !! 0%nat = Some i) as H0
        by (by rewrite Hr).
      apply py_range_lookup in H0 as [-> _]; [reflexivity | unfold BATCH_SIZE; lia].
    + simpl. symmetry. apply chunks_cover. unfold BATCH_SIZE. lia.
  - rewrite drop_app_length.
    destruct (join_results ks) as [os|] eqn:Hj; simpl.
    + destruct (join_results_returned _ _ _ _ _ Hk Hj) as (rs & -> & Hrs).
      destruct (tally_all_returned acc rs) as (acc' & Hacc & _). rewrite Hacc.
      apply (batch_loop_enter (pre ++ [i]) starts (done ++ chunk groups i) (results ++ rs)).
      * by rewrite <- app_assoc.
      * destruct starts as [|i' starts']; [done|].
        destruct (py_range_next groups BATCH_SIZE pre i i' starts') as [-> Hfull];
          [unfold BATCH_SIZE; lia | assumption |].
        rewrite length_app. unfold chunk. lia.
      * rewrite Hg at 1. simpl. by rewrite <- app_assoc.
      * by apply Forall2_app.
      * rewrite map_app. erewrite tally_all_app; eauto.
      * apply Forall_app. split; [assumption | eapply join_results_done; eauto].
      * rewrite !length_app, Hl. f_equal. symmetry. eapply Forall2_length; eauto.
      * by apply Forall2_app.
    + eapply batch_gathering; eauto.
  - eapply batch_returned; eauto.
Qed.

Lemma batch_step_kid t j e : batch_state t -> batch_state (step_kid_of remote t j e).1.
Proof.
  intros [|pre done i starts results acc old ks Hp Hi Hg Hd Ht Ho Hl Hk Hto Htk
          |results acc old b Hr Ht Ho Hl Hto];
    unfold step_kid_of; simpl.
  - constructor.
  - destruct ((old ++ ks) !! j) as [k|] eqn:Hj; [|eapply batch_gathering; eauto].
    destruct (decide (j < length old)%nat) as [Hlt|Hge].
    + rewrite lookup_app_l in Hj by assumption.
      rewrite step_kid_done by (eapply Forall_lookup_1 in Ho; eauto).
      simpl. rewrite list_insert_id by (by rewrite lookup_app_l).
      eapply batch_gathering; eauto.
    + rewrite lookup_app_r in Hj by lia.
      pose proof (Forall2_lookup_r _ _ _ _ _ Hk Hj) as (g & Hg' & Hok).
      pose proof (step_kid_ok remote _ k e Hok) as Hok'.
      pose proof (Forall2_lookup_lr _ _ _ _ _ _ Htk Hg' Hj) as Hrun.
      apply (step_kid_runs remote _ k e) in Hrun.
      destruct (step_kid remote k e) as [k' e']. cbn [fst] in *.
      rewrite insert_app_r_alt by lia.
      eapply batch_gathering with (i := i); eauto.
      * rewrite <- (list_insert_id _ _ _ Hg'). apply Forall2_insert; assumption.
      * rewrite <- (list_insert_id _ _ _ Hg'). apply Forall2_insert; assumption.
  - destruct (old !! j) as [k|] eqn:Hj; [|eapply batch_returned; eauto].
    rewrite step_kid_done by (eapply Forall_lookup_1 in Ho; eauto).
    simpl. rewrite list_insert_id by assumption. eapply batch_returned; eauto.
Qed.

(** Whatever the schedule, the dispatch is in one of the states of
    [batch_state]. *)
Lemma batch_reachable sched (s : St) :
  exists t e,
    run remote sched
      (boot s [batch_ban_operation apply_action user_id rights operation_name groups])
    = mkSys e [t] /\ batch_state t.
Proof.
  destruct (run_single_thread remote (fun t _ => batch_state t)
              (fun t e => batch_step_main t e) (fun t j e => batch_step_kid t j e)
              sched _ (mkEnv s 0%nat []) (batch_new _ _ _ _ _ _ _)) as (t & e & H & Hs).
  exists t, e. split; [exact H | exact Hs].
Qed.

End DispatcherFacts.

(** ** Running to completion is one of the schedules *)

Section CompletionFacts.
Context {St A R : Type}.
Variable remote : nat -> request -> response.

Lemma step_main_at (ths : list (thread St A R)) i t e :
  (i < length ths)%nat ->
  step remote (RunMain i) (mkSys e (<[i := t]> ths))
  = mkSys (step_main remote t e).2 (<[i := (step_main remote t e).1]> ths).
Proof.
  intros Hi. unfold step. simpl. rewrite list_lookup_insert_eq by assumption.
  destruct (step_main remote t e) as [t' e']. simpl. by rewrite list_insert_insert_eq.
Qed.

Lemma step_kid_at (ths : list (thread St A R)) i m ks b j k e :
  (i < length ths)%nat -> (j < length ks)%nat ->
  step remote (RunKid i j) (mkSys e (<[i := mkThread m (<[j := k]> ks) b]> ths))
  = mkSys (step_kid remote k e).2
          (<[i := mkThread m (<[j := (step_kid remote k e).1]> ks) b]> ths).
Proof.
  intros Hi Hj. unfold step, step_kid_of. simpl.
  rewrite list_lookup_insert_eq by assumption. simpl.
  rewrite list_lookup_insert_eq by assumption.
  destruct (step_kid remote k e) as [k' e']. simpl.
  by rewrite !list_insert_insert_eq.
Qed.

Lemma run_cons ch sched (σ : sys St A R) :
  run remote (ch :: sched) σ = run remote sched (step remote ch σ).
Proof. reflexivity. Qed.

(** From the suspension point that [advance] reaches, the steps of the task
    lead where [run_task] leads. *)
Lemma run_task_sound (ths : list (thread St A R)) i m ks b j (c : task St A) e :
  (i < length ths)%nat -> (j < length ks)%nat ->
  exists sched,
    run remote sched
      (mkSys (advance c e).2
             (<[i := mkThread m (<[j := mkKid (advance c e).1 false]> ks) b]> ths))
    = mkSys (run_task remote c e).2
            (<[i := mkThread m (<[j := mkKid (run_task remote c e).1 false]> ks) b]> ths).
Proof.
  intros Hi Hj. revert e.
  induction c as [a|x|q k IH|k IH|f k IH|g k IH|msg k IH]; intros e; simpl.
  - by exists [].
  - by exists [].
  - destruct (IH (Answer (remote (now e) q))
                 (mkEnv (store e) (S (now e)) (trace e ++ [Request q]))) as [sched Hs].
    exists (RunKid i j :: sched). rewrite run_cons, step_kid_at by assumption.
    unfold step_kid. simpl.
    destruct (advance (k (Answer (remote (now e) q)))
                (mkEnv (store e) (S (now e)) (trace e ++ [Request q]))) as [st e'] eqn:Ha.
    simpl in *. exact Hs.
  - apply IH.
  - apply IH.
  - destruct (g (store e)); [apply IH | by exists []].
  - apply IH.
Qed.

Lemma finish_kid_sound (ths : list (thread St A R)) i m ks b j k e :
  (i < length ths)%nat -> (j < length ks)%nat ->
  exists sched,
    run remote sched (mkSys e (<[i := mkThread m (<[j := k]> ks) b]> ths))
    = mkSys (finish_kid remote k e).2
            (<[i := mkThread m (<[j := (finish_kid remote k e).1]> ks) b]> ths).
Proof.
  intros Hi Hj. destruct k as [st cancel]. unfold finish_kid. simpl.
  destruct st as [c|c|o].
  - destruct cancel.
    + exists [RunKid i j]. rewrite run_cons, step_kid_at by assumption. reflexivity.
    + destruct (run_task_sound ths i m ks b j c e Hi Hj) as [sched Hs].
      exists (RunKid i j :: sched). rewrite run_cons, step_kid_at by assumption.
      unfold step_kid. simpl.
      destruct (advance c e) as [st e'], (run_task remote c e) as [st' e'']. exact Hs.
  - assert (forall c' e', exists sched,
              run remote sched
                (mkSys (advance c' e').2
                   (<[i := mkThread m (<[j := mkKid (advance c' e').1 false]> ks) b]> ths))
              = mkSys (run_task remote c' e').2
                  (<[i := mkThread m
                           (<[j := mkKid (run_task remote c' e').1 false]> ks) b]> ths))
      as Hsound by (intros; by apply run_task_sound).
    assert (forall c' e',
              resume remote c cancel e = advance c' e' ->
              exists sched,
                run remote sched (mkSys e (<[i := mkThread m
                                     (<[j := mkKid (KWait c) cancel]> ks) b]> ths))
                = mkSys (run_task remote c' e').2
                    (<[i := mkThread m
                             (<[j := mkKid (run_task remote c' e').1 false]> ks) b]> ths))
      as Hstep.
    { intros c' e' Hr. destruct (Hsound c' e') as [sched Hs].
      exists (RunKid i j :: sched). rewrite run_cons, step_kid_at by assumption.
      unfold step_kid. simpl. rewrite Hr.
      destruct (advance c' e') as [st e'']. exact Hs. }
    assert (forall c' e',
              resume remote c cancel e = advance c' e' ->
              forall r, r = run_task remote c' e' ->
              exists sched,
                run remote sched (mkSys e (<[i := mkThread m
                                     (<[j := mkKid (KWait c) cancel]> ks) b]> ths))
                = mkSys (let '(st, e') := r in (mkKid st false, e')).2
                    (<[i := mkThread m
                         (<[j := (let '(st, e') := r in (mkKid st false, e')).1]> ks)
                         b]> ths))
      as Hgo.
    { intros c' e' Hr r ->. destruct (Hstep c' e' Hr) as [sched Hs].
      exists sched. destruct (run_task remote c' e'). exact Hs. }
    destruct c as [a|x|q k|k|f k|g k|msg k].
    + apply (Hgo (Ret a) e); reflexivity.
    + apply (Hgo (Throw x) e); reflexivity.
    + destruct cancel.
      * apply (Hgo (k Cancelled) e); reflexivity.
      * apply (Hgo (k (Answer (remote (now e) q)))
                   (mkEnv (store e) (S (now e)) (trace e))); reflexivity.
    + apply (Hgo (Get k) e); reflexivity.
    + apply (Hgo (Modify f k) e); reflexivity.
    + destruct cancel.
      * apply (Hgo (k false) e); reflexivity.
      * apply (Hgo (Acquire g k) e); reflexivity.
    + apply (Hgo (Log msg k) e); reflexivity.
  - by exists [].
Qed.

Lemma finish_kids_length (ks : list (kid St A)) e :
  length (finish_kids remote ks e).1 = length ks.
Proof.
  revert e. induction ks as [|k ks IH]; intros e; simpl; [reflexivity|].
  destruct (finish_kid remote k e) as [k1 e1].
  specialize (IH e1). destruct (finish_kids remote ks e1) as [ks1 e2].
  simpl in *. by rewrite IH.
Qed.

Lemma finish_kids_sound_aux (ths : list (thread St A R)) i m b pre ks e :
  (i < length ths)%nat ->
  exists sched,
    run remote sched (mkSys e (<[i := mkThread m (pre ++ ks) b]> ths))
    = mkSys (finish_kids remote ks e).2
            (<[i := mkThread m (pre ++ (finish_kids remote ks e).1) b]> ths).
Proof.
  intros Hi. revert pre e. induction ks as [|k ks IH]; intros pre e; simpl.
  - by exists [].
  - destruct (finish_kid_sound ths i m (pre ++ k :: ks) b (length pre) k e Hi)
      as [s1 H1]; [rewrite length_app; simpl; lia|].
    rewrite (list_insert_id (pre ++ k :: ks) (length pre) k) in H1
      by (by apply list_lookup_middle).
    destruct (finish_kid remote k e) as [k1 e1]. simpl in H1.
    destruct (IH (pre ++ [k1]) e1) as [s2 H2].
    destruct (finish_kids remote ks e1) as [ks1 e2]. simpl in *.
    exists (s1 ++ s2). rewrite run_app, H1.
    replace (length pre) with (length pre + 0)%nat by lia.
    rewrite insert_app_r. simpl.
    rewrite <- !app_assoc in H2. exact H2.
Qed.

Lemma finish_kids_sound (ths : list (thread St A R)) i m b ks e :
  (i < length ths)%nat ->
  exists sched,
    run remote sched (mkSys e (<[i := mkThread m ks b]> ths))
    = mkSys (finish_kids remote ks e).2
            (<[i := mkThread m (finish_kids remote ks e).1 b]> ths).
Proof. intros Hi. apply (finish_kids_sound_aux ths i m b [] ks e Hi). Qed.

(** From the suspension point that [cadvance] reaches, the steps of the
    coroutine and of its tasks lead where [complete] leads. *)
Lemma complete_sound (ths : list (thread St A R)) i (c : coro St A R) e ks b :
  (i < length ths)%nat ->
  exists sched,
    run remote sched (mkSys (cadvance c e ks b).2 (<[i := (cadvance c e ks b).1]> ths))
    = mkSys (complete remote c e ks b).2 (<[i := (complete remote c e ks b).1]> ths).
Proof.
  intros Hi. revert e ks b.
  induction c as [r|x|q k IH|k IH|f k IH|g k IH|msg k IH|k IH|cs k IH|cond k IH|k IH|k IH];
    intros e ks b; simpl.
  - by exists [].
  - by exists [].
  - destruct (IH (remote (now e) q)
                 (mkEnv (store e) (S (now e)) (trace e ++ [Request q])) ks b) as [sched Hs].
    exists (RunMain i :: sched). rewrite run_cons, step_main_at by assumption.
    exact Hs.
  - apply IH.
  - apply IH.
  - destruct (g (store e)); [apply IH | by exists []].
  - apply IH.
  - apply IH.
  - apply IH.
  - destruct (cond (store e) (map kid_done (drop b ks))) eqn:Hc; [|apply IH].
    destruct (finish_kids_sound ths i (MWait (PollWhile cond k)) b ks e Hi) as [s1 H1].
    destruct (finish_kids remote ks e) as [ks' e']. simpl in H1.
    destruct (cond (store e') (map kid_done (drop b ks'))) eqn:Hc'.
    + exists s1. exact H1.
    + destruct (IH e' ks' b) as [s2 H2].
      exists (s1 ++ RunMain i :: s2). simpl.
      rewrite run_app, H1, run_cons, step_main_at by assumption.
      unfold step_main. simpl. rewrite Hc'. exact H2.
  - apply IH.
  - destruct (finish_kids_sound ths i (MWait (JoinAll k)) b ks e Hi) as [s1 H1].
    destruct (finish_kids remote ks e) as [ks' e']. simpl in H1.
    destruct (join_results (drop b ks')) as [os|] eqn:Hj.
    + destruct (IH os e' ks' b) as [s2 H2].
      exists (s1 ++ RunMain i :: s2). simpl.
      rewrite run_app, H1, run_cons, step_main_at by assumption.
      unfold step_main. simpl. rewrite Hj. exact H2.
    + exists s1. exact H1.
Qed.

(** Some schedule takes a thread from where it is to where [finish_thread]
    leads. *)
Lemma finish_thread_sound (ths : list (thread St A R)) i t e :
  ths !! i = Some t ->
  exists sched,
    run remote sched (mkSys e ths)
    = mkSys (finish_thread remote t e).2 (<[i := (finish_thread remote t e).1]> ths).
Proof.
  intros Ht. pose proof (lookup_lt_Some _ _ _ Ht) as Hi.
  enough (exists sched,
            run remote sched (mkSys e (<[i := t]> ths))
            = mkSys (finish_thread remote t e).2
                    (<[i := (finish_thread remote t e).1]> ths)) as [sched Hs].
  { exists sched. rewrite (list_insert_id ths i t Ht) in Hs. exact Hs. }
  destruct t as [m ks b]. unfold finish_thread. simpl.
  assert (forall c' e',
            step_main remote (mkThread m ks b) e = cadvance c' e' ks b ->
            exists sched,
              run remote sched (mkSys e (<[i := mkThread m ks b]> ths))
              = mkSys (complete remote c' e' ks b).2
                      (<[i := (complete remote c' e' ks b).1]> ths)) as Hstep.
  { intros c' e' Hr. destruct (complete_sound ths i c' e' ks b Hi) as [sched Hs].
    exists (RunMain i :: sched). rewrite run_cons, step_main_at by assumption.
    rewrite Hr. exact Hs. }
  destruct m as [c|c|o].
  - apply Hstep. reflexivity.
  - destruct c as [r|x|q k|k|f k|g k|msg k|k|cs k|cond k|k|k];
      try (apply Hstep; reflexivity).
    apply (complete_sound ths i (JoinAll k) e ks b Hi).
  - by exists [].
Qed.

End CompletionFacts.

(** ** What the dispatcher returns *)

Lemma run_task_settles {St A} remote (Q : outcome A -> Prop) (c : task St A) e :
  settles remote Q c -> exists o e', run_task remote c e = (KDone o, e') /\ Q o.
Proof.
  intros H. revert e. induction H; intros e; simpl; eauto.
Qed.

Lemma finish_kid_ok {St A} remote (Q : outcome A -> Prop) (k : kid St A) e :
  kid_ok remote Q k ->
  exists o e', finish_kid remote k e = (mkKid (KDone o) false, e') /\ Q o.
Proof.
  destruct k as [st cancel]. intros [Hc H]. simpl in *. subst cancel.
  unfold finish_kid. simpl. destruct st as [c|c|o].
  - destruct (run_task_settles remote Q c e H) as (o & e' & -> & Ho). eauto.
  - destruct H; simpl; eauto.
    + destruct (run_task_settles remote Q _
                  (mkEnv (store e) (S (now e)) (trace e)) (H (now e)))
        as (o & e' & -> & Ho). eauto.
    + destruct (run_task_settles remote Q _
                  (mkEnv (store e) (now e) (trace e ++ [Logged m])) H)
        as (o & e' & -> & Ho). eauto.
  - eauto.
Qed.

Lemma finish_kids_app {St A} remote (ks1 ks2 : list (kid St A)) e :
  finish_kids remote (ks1 ++ ks2) e
  = let '(ks1', e1) := finish_kids remote ks1 e in
    let '(ks2', e2) := finish_kids remote ks2 e1 in
    (ks1' ++ ks2', e2).
Proof.
  revert e. induction ks1 as [|k ks1 IH]; intros e; simpl.
  - destruct (finish_kids remote ks2 e). reflexivity.
  - destruct (finish_kid remote k e) as [k1 e1]. rewrite IH.
    destruct (finish_kids remote ks1 e1) as [ks1' e2].
    destruct (finish_kids remote ks2 e2). reflexivity.
Qed.

(** Tasks that settle are all finished by [finish_kids], with results that
    [join_results] collects. *)
Lemma finish_kids_ok {St A X} remote (P : X -> A -> Prop) (xs : list X)
    (ks : list (kid St A)) e :
  Forall2 (fun x k => kid_ok remote (returned_with (P x)) k) xs ks ->
  exists rs, join_results (finish_kids remote ks e).1 = Some (map Returned rs)
             /\ Forall2 P xs rs.
Proof.
  intros H. revert e. induction H as [|x k xs ks Hk H IH]; intros e; simpl.
  - exists []. split; [reflexivity | constructor].
  - destruct (finish_kid_ok remote _ k e Hk) as (o & e1 & -> & Ho).
    destruct (IH e1) as (rs & Hj & Hrs).
    destruct (finish_kids remote ks e1) as [ks1 e2]. simpl in *. rewrite Hj.
    destruct o as [a|]; [|contradiction].
    exists (a :: rs). split; [reflexivity | constructor; assumption].
Qed.

(** The counters and the failure list after a tally. *)
Lemma tally_all_counts acc rs acc' :
  tally_all acc (map Returned rs) = Returned acc' ->
  success acc' = (success acc + length (filter (fun r => r.1 = true) rs))%nat
  /\ failed acc' = (failed acc + length (filter (fun r => r.1 = false) rs))%nat
  /\ failed_groups acc'
     = failed_groups acc
       ++ omap (fun r : bool * option string =>
                  if r.1 then None else if truthy r.2 then r.2 else None) rs.
Proof.
  revert acc. induction rs as [|[[] reason] rs IH]; intros acc H; simpl in H.
  - injection H as <-. rewrite app_nil_r. simpl. repeat split; lia.
  - apply IH in H as (H1 & H2 & H3).
    rewrite filter_cons_True by done. rewrite filter_cons_False by done.
    simpl in *. split; [lia|]. split; [lia|]. exact H3.
  - apply IH in H as (H1 & H2 & H3).
    rewrite filter_cons_False by done. rewrite filter_cons_True by done.
    simpl in *. split; [lia|]. split; [lia|].
    rewrite H3. destruct reason as [r|]; simpl; [|reflexivity].
    destruct (negb (String.eqb r "")); simpl; [|reflexivity].
    by rewrite <- app_assoc.
Qed.

Lemma filter_true_false_length {X} (f : X -> bool) (l : list X) :
  (length (filter (fun x => f x = true) l) + length (filter (fun x => f x = false) l)
   = length l)%nat.
Proof.
  induction l as [|x l IH]; [reflexivity|].
  rewrite !filter_cons. destruct (f x); simpl; lia.
Qed.

Section DispatcherCompletes.
Context {St : Type}.
Variable remote : nat -> request -> response.
Variable apply_action : Z -> Z -> ChatBannedRights -> task St bool.
Variables (user_id : Z) (rights : ChatBannedRights) (operation_name : string).
Variable groups : list Scope.
Variable expected : Scope -> bool * option string -> Prop.

Hypothesis process_group_expected : forall g, g ∈ groups ->
  settles remote (returned_with (expected g))
    (process_group apply_action user_id rights operation_name g).

Local Abbreviation batch_state :=
  (batch_state remote apply_action user_id rights operation_name groups expected).
Local Abbreviation batch_loop :=
  (batch_loop apply_action user_id rights operation_name groups).

Lemma batch_loop_completes starts acc e ks b :
  exists acc', main (complete remote (batch_loop starts acc) e ks b).1
               = MDone (Returned acc').
Proof.
  revert acc e ks b. induction starts as [|i starts IH]; intros acc e ks b; simpl.
  - eauto.
  - rewrite finish_kids_app.
    destruct (finish_kids remote ks e) as [ks1 e1] eqn:H1.
    pose proof (finish_kids_length remote ks e) as Hl. rewrite H1 in Hl. simpl in Hl.
    destruct (finish_kids_ok remote expected (chunk groups i)
                (map (fun c => mkKid (KNew c) false)
                   (map (process_group apply_action user_id rights operation_name)
                      (take BATCH_SIZE (drop i groups)))) e1) as (rs & Hj & Hrs).
    { apply Forall2_fmap_r, Forall2_fmap_r, Forall_Forall2_diag, Forall_forall.
      intros g Hin. split; [reflexivity|]. simpl.
      apply process_group_expected. eapply chunk_elem_of; eauto. }
    destruct (finish_kids remote _ e1) as [ks2 e2]. simpl in *.
    rewrite <- Hl, drop_app_length, Hj.
    destruct (tally_all_returned acc rs) as (acc1 & -> & _). apply IH.
Qed.

(** From every state of a dispatch, some schedule leads to its return. *)
Lemma batch_state_completes t e :
  batch_state t -> exists acc, main (finish_thread remote t e).1 = MDone (Returned acc).
Proof.
  intros [|pre done i starts results acc old ks Hp Hi Hg Hd Ht Ho Hlen Hk Hto Htk
          |results acc old b Hr Ht Ho Hlen Hto];
    unfold finish_thread; simpl.
  - apply batch_loop_completes.
  - rewrite finish_kids_app.
    destruct (finish_kids remote old e) as [old1 e1] eqn:H1.
    pose proof (finish_kids_length remote old e) as Hl. rewrite H1 in Hl. simpl in Hl.
    destruct (finish_kids_ok remote expected (chunk groups i) ks e1 Hk) as (rs & Hj & Hrs).
    destruct (finish_kids remote ks e1) as [ks2 e2]. simpl in *.
    rewrite <- Hl, drop_app_length, Hj.
    destruct (tally_all_returned acc rs) as (acc1 & -> & _).
    apply batch_loop_completes.
  - eauto.
Qed.

(** The dispatch ends: every schedule can be continued into one after which
    [batch_ban_operation] has returned; and what it returns is the tally of
    the values of [process_group] for the scopes, in the order of the
    list. *)
Lemma batch_returns sched (s : St) :
  let start := boot s [batch_ban_operation apply_action user_id rights operation_name groups] in
  (exists more acc,
     result (run remote (sched ++ more) start) 0 = Some (Returned acc))
  /\ (forall o, result (run remote sched start) 0 = Some o ->
      exists acc results,
        o = Returned acc
        /\ Forall2 expected groups results
        /\ tally_all (mkBatch 0 0 []) (map Returned results) = Returned acc).
Proof.
  intros start.
  destruct (batch_reachable remote apply_action user_id rights operation_name groups
              expected process_group_expected sched s) as (t & e & Hrun & Hst).
  fold start in Hrun. split.
  - destruct (finish_thread_sound remote [t] 0 t e eq_refl) as [more Hmore].
    destruct (batch_state_completes t e Hst) as [acc Hacc].
    exists more, acc. rewrite run_app, Hrun, Hmore. unfold result. simpl.
    by rewrite Hacc.
  - intros o. rewrite Hrun. unfold result. simpl.
    destruct Hst as [|pre done i starts results acc old ks Hp Hi Hg Hd Ht Ho Hl Hk Hto Htk
                      |results acc old b Hr Ht Ho Hl Hto]; simpl; try discriminate.
    intros [= <-]. eauto.
Qed.

End DispatcherCompletes.

(** ** The trace grows, and tasks are created unstarted *)

Lemma advance_extends {St A} (c : task St A) e :
  exists evs, trace (advance c e).2 = trace e ++ evs.
Proof.
  revert e. induction c as [a|x|q k IH|k IH|f k IH|g k IH|m k IH]; intros e; simpl.
  - exists []. by rewrite app_nil_r.
  - exists []. by rewrite app_nil_r.
  - by exists [Request q].
  - apply IH.
  - apply (IH (mkEnv (f (store e)) (now e) (trace e))).
  - destruct (g (store e)) as [s'|].
    + apply (IH true (mkEnv s' (now e) (trace e))).
    + exists []. by rewrite app_nil_r.
  - destruct (IH (mkEnv (store e) (now e) (trace e ++ [Logged m]))) as [evs ->].
    simpl. exists (Logged m :: evs). by rewrite <- app_assoc.
Qed.

Lemma step_kid_extends {St A} remote (k : kid St A) e :
  exists evs, trace (step_kid remote k e).2 = trace e ++ evs.
Proof.
  assert (exists evs : list event, trace e = trace e ++ evs) as Hsame
    by (exists []; by rewrite app_nil_r).
  destruct k as [st cancel]. unfold step_kid. simpl. destruct st as [c|c|o]; simpl.
  - destruct cancel; [exact Hsame|].
    pose proof (advance_extends c e) as H. by destruct (advance c e).
  - assert (exists evs, trace (resume remote c cancel e).2 = trace e ++ evs) as H.
    { destruct c as [a|x|q k|k|f k|g k|m k]; cbn [resume];
        try apply advance_extends.
      - destruct cancel; [apply advance_extends|].
        apply (advance_extends _ (mkEnv (store e) (S (now e)) (trace e))).
      - destruct cancel; apply advance_extends. }
    by destruct (resume remote c cancel e).
  - exact Hsame.
Qed.

Lemma cadvance_grows {St A R} (c : coro St A R) e ks b :
  (exists evs, trace (cadvance c e ks b).2 = trace e ++ evs)
  /\ exists ks1 ks2,
       kids (cadvance c e ks b).1 = ks1 ++ ks2
       /\ map kid_state ks1 = map kid_state ks
       /\ Forall unstarted ks2.
Proof.
  revert e ks b.
  induction c as [r|x|q k IH|k IH|f c IH|g c IH|m c IH|k IH|cs c IH|cond c IH|c IH|k];
    intros e ks b; cbn [cadvance];
    try (split; [exists []; by rewrite app_nil_r
                |exists ks, []; rewrite app_nil_r; by repeat split]).
  - split; [by exists [Request q]|]. exists ks, []. rewrite app_nil_r. by repeat split.
  - apply IH.
  - apply (IH (mkEnv (f (store e)) (now e) (trace e))).
  - destruct (g (store e)) as [s'|].
    + apply (IH (mkEnv s' (now e) (trace e))).
    + split; [exists []; by rewrite app_nil_r|].
      exists ks, []. rewrite app_nil_r. by repeat split.
  - destruct (IH (mkEnv (store e) (now e) (trace e ++ [Logged m])) ks b)
      as [[evs Hevs] Hks].
    split; [|exact Hks]. rewrite Hevs. simpl. exists (Logged m :: evs).
    by rewrite <- app_assoc.
  - apply IH.
  - destruct (IH e (ks ++ map (fun c => mkKid (KNew c) false) cs) (length ks))
      as [Hevs (ks1 & ks2 & Hk & Hst & Hnew)].
    split; [exact Hevs|].
    exists (take (length ks) ks1), (drop (length ks) ks1 ++ ks2).
    split; [by rewrite app_assoc, take_drop|]. split.
    + rewrite <- List.firstn_map, Hst, List.map_app, take_app_length'; [reflexivity|].
      by rewrite length_map.
    + apply Forall_app. split; [|exact Hnew].
      apply Forall_forall. intros k Hk'.
      apply list_elem_of_In, (List.in_map kid_state) in Hk'.
      rewrite <- List.skipn_map, Hst, List.map_app, drop_app_length' in Hk'
        by (by rewrite length_map).
      rewrite List.map_map in Hk'. apply List.in_map_iff in Hk'.
      destruct Hk' as (c0 & Hc0 & _). by exists c0.
  - destruct (cond (store e) (map kid_done (drop b ks))).
    + split; [exists []; by rewrite app_nil_r|].
      exists ks, []. rewrite app_nil_r. by repeat split.
    + apply IH.
  - destruct (IH e (take b ks ++ map request_cancel (drop b ks)) b)
      as [Hevs (ks1 & ks2 & Hk & Hst & Hnew)].
    split; [exact Hevs|]. exists ks1, ks2. split; [exact Hk|]. split; [|exact Hnew].
    rewrite Hst, List.map_app, List.map_map.
    rewrite <- (take_drop b ks) at 3. rewrite List.map_app. f_equal.
    apply List.map_ext. intros k. unfold request_cancel.
    by destruct (kid_done k).
Qed.

Lemma step_main_grows {St A R} remote (t : thread St A R) e :
  (exists evs, trace (step_main remote t e).2 = trace e ++ evs)
  /\ exists ks1 ks2,
       kids (step_main remote t e).1 = ks1 ++ ks2
       /\ map kid_state ks1 = map kid_state (kids t)
       /\ Forall unstarted ks2.
Proof.
  assert ((exists evs : list event, trace e = trace e ++ evs)
          /\ exists ks1 ks2, kids t = ks1 ++ ks2
               /\ map kid_state ks1 = map kid_state (kids t)
               /\ Forall (@unstarted St A) ks2) as Hsame.
  { split; [exists []; by rewrite app_nil_r|].
    exists (kids t), []. rewrite app_nil_r. by repeat split. }
  destruct t as [m ks b]. unfold step_main. simpl in *.
  destruct m as [c|c|o]; simpl; [apply cadvance_grows| |exact Hsame].
  destruct c; cbn [cresume]; try apply cadvance_grows.
  - apply (cadvance_grows _ (mkEnv (store e) (S (now e)) (trace e))).
  - destruct (join_results (drop b ks)); [apply cadvance_grows | exact Hsame].
Qed.

Lemma asked_step_main {St A R} remote first groups (t : thread St A R) e :
  asked_where_started first groups t e ->
  asked_where_started first groups (step_main remote t e).1 (step_main remote t e).2.
Proof.
  intros Hcov j g k' Hg Hk'.
  destruct (step_main_grows remote t e) as [[evs Hevs] (ks1 & ks2 & Hk & Hst & Hnew)].
  rewrite Hk in Hk'. rewrite Hevs.
  apply lookup_app_Some in Hk' as [H1|[_ H2]].
  - assert (exists k, kids t !! j = Some k /\ kid_state k = kid_state k') as (k & Hj & Hs).
    { pose proof (f_equal (fun l => l !! j) Hst) as Hl. cbv beta in Hl.
      change (map kid_state ks1) with (kid_state <$> ks1) in Hl.
      change (map kid_state (kids t)) with (kid_state <$> kids t) in Hl.
      rewrite !list_lookup_fmap, H1 in Hl. simpl in Hl.
      destruct (kids t !! j) as [k|]; [|discriminate]. injection Hl as Hl. eauto. }
    destruct (Hcov j g k Hg Hj) as [[c Hc]|Hin].
    + left. exists c. congruence.
    + right. apply elem_of_app. by left.
  - left. eapply Forall_lookup_1 in Hnew; eauto.
Qed.

Section DispatcherTasks.
Context {St : Type}.
Variable remote : nat -> request -> response.
Variable apply_action : Z -> Z -> ChatBannedRights -> task St bool.
Variables (user_id : Z) (rights : ChatBannedRights) (operation_name : string).
Variable groups : list Scope.
Variable expected : Scope -> bool * option string -> Prop.
Variable first : Scope -> request.

Hypothesis process_group_expected : forall g, g ∈ groups ->
  settles remote (returned_with (expected g))
    (process_group apply_action user_id rights operation_name g).
Hypothesis process_group_first : forall g (e : env St),
  Request (first g)
  ∈ trace (advance (process_group apply_action user_id rights operation_name g) e).2.

Local Abbreviation batch_state :=
  (batch_state remote apply_action user_id rights operation_name groups expected).
Local Abbreviation task_of :=
  (task_of remote apply_action user_id rights operation_name).

(** The tasks are those of the first scopes of the list, in its order; a
    task that is not finished has not been asked to cancel. *)
Lemma batch_state_tasks t :
  batch_state t ->
  (forall j k, kids t !! j = Some k -> exists g, groups !! j = Some g /\ task_of g k)
  /\ Forall (fun k => kid_done k = true \/ cancel_requested k = false) (kids t).
Proof.
  intros [|pre done i starts results acc old ks Hp Hi Hg Hd Ht Ho Hl Hk Hto Htk
          |results acc old b Hr Ht Ho Hl Hto]; simpl.
  - split; [intros j k Hj; by rewrite lookup_nil in Hj | constructor].
  - split.
    + intros j k Hj.
      assert (Forall2 task_of (done ++ chunk groups i) (old ++ ks)) as Hall
        by (by apply Forall2_app).
      destruct (Forall2_lookup_r _ _ _ _ _ Hall Hj) as (g & Hgj & Hgk).
      exists g. split; [|exact Hgk].
      rewrite Hg. simpl. rewrite app_assoc. by apply lookup_app_l_Some.
    + apply Forall_app. split.
      * eapply Forall_impl; [exact Ho|]. by left.
      * apply Forall_forall. intros k Hin.
        apply list_elem_of_lookup in Hin as [j Hj].
        destruct (Forall2_lookup_r _ _ _ _ _ Hk Hj) as (g & _ & [Hc _]). by right.
  - split.
    + intros j k Hj. destruct (Forall2_lookup_r _ _ _ _ _ Hto Hj) as (g & ? & ?). eauto.
    + eapply Forall_impl; [exact Ho|]. by left.
Qed.

Local Abbreviation asked := (asked_where_started first groups).

Lemma asked_step_kid t j e :
  batch_state t -> asked t e ->
  asked (step_kid_of remote t j e).1 (step_kid_of remote t j e).2.
Proof.
  intros Hst Hcov. destruct (batch_state_tasks t Hst) as [Htasks Hflags].
  unfold step_kid_of. destruct (kids t !! j) as [k|] eqn:Hj; [|exact Hcov].
  destruct (step_kid_extends remote k e) as [evs Hevs].
  assert (forall g, groups !! j = Some g ->
            unstarted (step_kid remote k e).1
            \/ Request (first g) ∈ trace (step_kid remote k e).2) as Hown.
  { intros g Hg. destruct (Htasks j k Hj) as (g' & Hg' & Hrun).
    assert (g' = g) as -> by congruence.
    destruct (Hcov j g k Hg Hj) as [[c Hc]|Hin].
    - right. red in Hrun. rewrite Hc in Hrun.
      apply runs_new_inv in Hrun as ->.
      eapply Forall_lookup_1 in Hflags; [|exact Hj].
      destruct Hflags as [Hd|Hcancel].
      { unfold kid_done in Hd. rewrite Hc in Hd. discriminate. }
      unfold step_kid. rewrite Hc, Hcancel.
      pose proof (process_group_first g e) as Hf.
      by destruct (advance _ e).
    - right. rewrite Hevs. apply elem_of_app. by left. }
  destruct (step_kid remote k e) as [k' e']. simpl in *.
  intros j' g k'' Hg Hk''. simpl in Hk''.
  destruct (decide (j' = j)) as [->|Hne].
  - rewrite list_lookup_insert_eq in Hk'' by (by eapply lookup_lt_Some).
    injection Hk'' as <-. by apply Hown.
  - rewrite list_lookup_insert_ne in Hk'' by done.
    destruct (Hcov j' g k'' Hg Hk'') as [Hnew|Hin]; [by left|].
    right. rewrite Hevs. apply elem_of_app. by left.
Qed.

Lemma batch_tasks_reachable sched (s : St) :
  exists t e,
    run remote sched
      (boot s [batch_ban_operation apply_action user_id rights operation_name groups])
    = mkSys e [t]
    /\ batch_state t /\ asked t e.
Proof.
  apply (run_single_thread remote (fun t e => batch_state t /\ asked t e)).
  - intros t e [Hst Hcov]. split.
    + by apply batch_step_main.
    + by apply asked_step_main.
  - intros t j e [Hst Hcov]. split.
    + by apply batch_step_kid.
    + by apply asked_step_kid.
  - split; [constructor|]. intros j g k _ Hk. simpl in Hk. by rewrite lookup_nil in Hk.
Qed.

(** Whatever the schedule: the tasks are those of the first scopes of the
    list, one each and in its order, and a task that has started has made
    the first call of its scope; before the dispatch starts there is none;
    while it waits for the chunk at [n * BATCH_SIZE], which is not empty,
    there are the tasks of the scopes up to the end of that chunk, those of
    the chunks before it finished; when it has returned there is a finished
    task for every scope. *)
Lemma batch_chunks sched (s : St) :
  exists t e,
    run remote sched
      (boot s [batch_ban_operation apply_action user_id rights operation_name groups])
    = mkSys e [t]
    /\ (in_flight (kids t) <= BATCH_SIZE)%nat
    /\ (forall j k, kids t !! j = Some k ->
          exists g, groups !! j = Some g /\ task_of g k
                    /\ (unstarted k \/ Request (first g) ∈ trace e))
    /\ match main t with
       | MNew _ => kids t = []
       | MWait _ =>
           exists n,
             (n * BATCH_SIZE < length groups)%nat
             /\ length (kids t) = Nat.min ((n + 1) * BATCH_SIZE) (length groups)
             /\ Forall (fun k => kid_done k = true) (take (n * BATCH_SIZE) (kids t))
       | MDone o =>
           (exists acc, o = Returned acc)
           /\ length (kids t) = length groups
           /\ Forall (fun k => kid_done k = true) (kids t)
           /\ Forall (fun g => Request (first g) ∈ trace e) groups
       end.
Proof.
  destruct (batch_tasks_reachable sched s) as (t & e & Hrun & Hst & Hcov).
  exists t, e. split; [exact Hrun|].
  destruct (batch_state_tasks t Hst) as [Htasks _].
  assert (forall j k, kids t !! j = Some k ->
          exists g, groups !! j = Some g /\ task_of g k
                    /\ (unstarted k \/ Request (first g) ∈ trace e)) as Hall.
  { intros j k Hj. destruct (Htasks j k Hj) as (g & Hg & Hrun').
    exists g. split; [exact Hg|]. split; [exact Hrun'|]. by apply (Hcov j g k). }
  split; [|split; [exact Hall|]];
    destruct Hst as [|pre done i starts results acc old ks Hp Hi Hg Hd Ht Ho Hl Hk Hto Htk
                      |results acc old b Hr Ht Ho Hl Hto]; cbn [main kids] in *.
  - unfold in_flight. simpl. lia.
  - assert (length ks = length (chunk groups i)) as Hks
      by (symmetry; eapply Forall2_length; eauto).
    assert (length (chunk groups i) <= BATCH_SIZE)%nat as Hc
      by (unfold chunk; rewrite length_take; lia).
    rewrite in_flight_app, in_flight_done by assumption.
    pose proof (in_flight_le ks). lia.
  - rewrite in_flight_done by assumption. lia.
  - reflexivity.
  - assert (py_range 0 (length groups) BATCH_SIZE !! length pre = Some i) as H1
      by (rewrite Hp; by apply list_lookup_middle).
    apply py_range_lookup in H1 as [Hn Hlt]; [|unfold BATCH_SIZE; lia].
    assert (length ks = length (chunk groups i)) as Hks
      by (symmetry; eapply Forall2_length; eauto).
    exists (length pre). rewrite <- Hn. split; [exact Hlt|]. split.
    + rewrite length_app, Hks, Hl, Hi. unfold chunk.
      rewrite length_take, length_drop. unfold BATCH_SIZE in *. lia.
    + rewrite take_app_length' by lia. exact Ho.
  - split; [eauto|]. split; [exact Hl|]. split; [exact Ho|].
    apply Forall_forall. intros g Hin. apply list_elem_of_lookup in Hin as [j Hj].
    destruct (lookup_lt_is_Some_2 old j) as [k Hk].
    { rewrite Hl. by eapply lookup_lt_Some. }
    destruct (Hcov j g k Hj Hk) as [[c Hc]|Hin]; [|exact Hin].
    eapply Forall_lookup_1 in Ho; [|exact Hk].
    unfold kid_done in Ho. rewrite Hc in Ho. discriminate.
Qed.

End DispatcherTasks.


(** ** The claims on the dispatcher *)

Lemma process_group_settles {St} remote
    (apply_action : Z -> Z -> ChatBannedRights -> task St bool) uid rights op g
    (Qa : outcome bool -> Prop) (P : bool * option string -> Prop) :
  settles remote Qa (apply_action (scope_id g) uid rights) ->
  ~ Qa (Raised CancelledError) ->
  (Qa (Returned true) -> P (true, None)) ->
  (Qa (Returned false) -> P (false, Some (scope_title g))) ->
  (forall msg, Qa (Raised (Error msg)) -> P (false, Some (scope_title g +:+ " (异常)"))) ->
  settles remote (returned_with P) (process_group apply_action uid rights op g).
Proof.
  intros Ha Hc Ht Hf He. unfold process_group.
  eapply (settles_try_except remote
            (fun o => match o with
                      | Returned r => P r
                      | Raised (Error msg) => Qa (Raised (Error msg))
                      | Raised CancelledError => False
                      end)).
  - eapply settles_bind; [exact Ha| |].
    + intros [] Hb; constructor; auto.
    + intros [msg|] Hx; [exact Hx | contradiction].
  - intros a Ha'. exact Ha'.
  - intros msg Hm. do 2 constructor. simpl. eapply He, Hm.
  - intros [].
Qed.

(** A synthesized reason is never empty. *)
Lemma synthesized_reason_truthy title : truthy (Some (title +:+ " (异常)")) = true.
Proof. destruct title; reflexivity. Qed.

Lemma tally_all_reports (verdicts : Scope -> verdict) groups acc :
  tally_all acc (map Returned (map (fun g => report_of (verdicts g) g) groups))
  = Returned
      (mkBatch
         (success acc + length (filter (fun g => accepted (verdicts g) = true) groups))
         (failed acc + length (filter (fun g => accepted (verdicts g) = false) groups))
         (failed_groups acc ++ omap (fun g => failure_entry (verdicts g) g) groups)).
Proof.
  revert acc. induction groups as [|g groups IH]; intros acc.
  - simpl. rewrite app_nil_r, !Nat.add_0_r. by destruct acc.
  - simpl. rewrite !filter_cons.
    destruct (verdicts g) eqn:Hv; cbn [report_of tally failure_entry accepted].
    + rewrite IH. simpl. f_equal. f_equal; lia.
    + unfold truthy. destruct (String.eqb (scope_title g) ""); simpl;
        rewrite IH; simpl; rewrite <- ?app_assoc; (f_equal; f_equal; lia).
    + rewrite synthesized_reason_truthy, IH. simpl. rewrite <- app_assoc.
      f_equal. f_equal; lia.
Qed.

(** Away from cancellation the counts add up: for every executor that
    finishes by returning or by raising an [Exception], every list of scopes
    and every schedule, [batch_ban_operation] returns (some continuation of
    the schedule reaches the return), and what it returns satisfies
    [success + failed = len(groups)]: it is the tally of one result per
    scope, a result with [True] counted in [success] and one with [False] in
    [failed]. *)
Lemma batch_counts_without_cancellation {St} remote
    (apply_action : Z -> Z -> ChatBannedRights -> task St bool) uid rights op
    (groups : list Scope) (s : St) (sched : list choice) :
  Forall (fun g => settles remote (fun o => o <> Raised CancelledError)
                     (apply_action (scope_id g) uid rights)) groups ->
  let start := boot s [batch_ban_operation apply_action uid rights op groups] in
  (exists more acc, result (run remote (sched ++ more) start) 0 = Some (Returned acc))
  /\ (forall o, result (run remote sched start) 0 = Some o ->
      exists acc results,
        o = Returned acc
        /\ length results = length groups
        /\ tally_all (mkBatch 0 0 []) (map Returned results) = Returned acc
        /\ success acc = length (filter (fun r => r.1 = true) results)
        /\ failed acc = length (filter (fun r => r.1 = false) results)
        /\ (success acc + failed acc = length groups)%nat).
Proof.
  intros Hact start.
  assert (forall g, g ∈ groups ->
            settles remote (returned_with (fun _ => True))
              (process_group apply_action uid rights op g)) as Hpg.
  { intros g Hg. rewrite Forall_forall in Hact.
    eapply process_group_settles; [apply Hact, Hg | | | |]; simpl; auto. }
  destruct (batch_returns remote apply_action uid rights op groups (fun _ _ => True)
              Hpg sched s) as [Hlive Hsafe].
  split; [exact Hlive|].
  intros o Ho. destruct (Hsafe o Ho) as (acc & results & -> & Hres & Htally).
  exists acc, results. split; [reflexivity|].
  pose proof (Forall2_length _ _ _ Hres) as Hlen.
  destruct (tally_all_counts _ _ _ Htally) as (Hs & Hf & _). simpl in Hs, Hf.
  pose proof (filter_true_false_length fst results).
  repeat split; auto; lia.
Qed.

(** C4, as amended: for every executor whose verdict on each scope is
    settled (it returns [True], returns [False], or raises an [Exception]),
    every schedule can be continued until [batch_ban_operation] returns, an
    exception of the executor aborts nothing, and the value returned counts
    the accepted scopes in [success], the others in [failed], and lists, in
    the order of the scopes, the title of each scope where the executor
    returned [False] unless that title is empty, and the title followed by
    " (异常)" of each scope where it raised. *)
Theorem batch_tally_by_verdict {St} remote
    (apply_action : Z -> Z -> ChatBannedRights -> task St bool) uid rights op
    (groups : list Scope) (verdicts : Scope -> verdict) (s : St) (sched : list choice) :
  Forall (fun g => settles remote (verdict_of (verdicts g))
                     (apply_action (scope_id g) uid rights)) groups ->
  let start := boot s [batch_ban_operation apply_action uid rights op groups] in
  let accepts := length (filter (fun g => accepted (verdicts g) = true) groups) in
  (exists more acc, result (run remote (sched ++ more) start) 0 = Some (Returned acc))
  /\ (forall o, result (run remote sched start) 0 = Some o ->
      o = Returned
            (mkBatch accepts (length groups - accepts)
                     (omap (fun g => failure_entry (verdicts g) g) groups))).
Proof.
  intros Hact start accepts.
  assert (forall g, g ∈ groups ->
            settles remote (returned_with (fun r => r = report_of (verdicts g) g))
              (process_group apply_action uid rights op g)) as Hpg.
  { intros g Hg. rewrite Forall_forall in Hact. specialize (Hact g Hg).
    eapply process_group_settles; [exact Hact | | | |];
      destruct (verdicts g); simpl; try congruence; try (intros [? ?]; congruence);
      intros ? [? ?]; congruence. }
  destruct (batch_returns remote apply_action uid rights op groups
              (fun g r => r = report_of (verdicts g) g) Hpg sched s) as [Hlive Hsafe].
  split; [exact Hlive|].
  intros o Ho. destruct (Hsafe o Ho) as (acc & results & -> & Hres & Htally).
  assert (results = map (fun g => report_of (verdicts g) g) groups) as ->.
  { clear -Hres. induction Hres; simpl; congruence. }
  rewrite tally_all_reports in Htally. injection Htally as <-. simpl.
  pose proof (filter_true_false_length (fun g => accepted (verdicts g)) groups) as Hsum.
  cbv beta in Hsum. subst accepts. f_equal. f_equal. lia.
Qed.

(** C7: whatever Telegram answers and whatever the schedule, the dispatch
    returns (some continuation of the schedule takes it to its return), and
    at every moment:
    - at most 20 tasks are in flight;
    - the [j]-th task is the task of [process_group] for the [j]-th scope,
      and once it has started, the direct rights change of that scope,
      which [safe_ban_action] begins with, has been asked of Telegram;
    - before the dispatch starts there is no task; while it waits for the
      chunk number [n], which is not empty, there is one task for every
      scope of the chunks up to [n], all created, and no task for a later
      scope, and the tasks of the chunks before [n] have finished; so the
      members of a chunk are launched together, and only after the chunk
      before has completed;
    - when the dispatch has returned there is a finished task for every
      scope of the list, and [safe_ban_action] has been invoked for each. *)
Theorem batch_chunks_run_one_after_the_other {St} remote uid rights op
    (groups : list Scope) (s : St) (sched : list choice) :
  let start := boot s [batch_ban_operation safe_ban_action uid rights op groups] in
  let task_of := task_of remote (@safe_ban_action St) uid rights op in
  let first g := Request (EditBannedRequest (scope_id g) (PeerId uid) rights) in
  (exists more acc, result (run remote (sched ++ more) start) 0 = Some (Returned acc))
  /\ exists t e,
       run remote sched start = mkSys e [t]
       /\ (in_flight (kids t) <= 20)%nat
       /\ (forall j k, kids t !! j = Some k ->
             exists g, groups !! j = Some g /\ task_of g k
                       /\ (unstarted k \/ first g ∈ trace e))
       /\ match main t with
          | MNew _ => kids t = []
          | MWait _ =>
              exists n,
                (n * 20 < length groups)%nat
                /\ length (kids t) = Nat.min ((n + 1) * 20) (length groups)
                /\ Forall (fun k => kid_done k = true) (take (n * 20) (kids t))
          | MDone o =>
              (exists acc, o = Returned acc)
              /\ length (kids t) = length groups
              /\ Forall (fun k => kid_done k = true) (kids t)
              /\ Forall (fun g => first g ∈ trace e) groups
          end.
Proof.
  intros start task_of first.
  assert (forall g, g ∈ groups ->
            settles remote (returned_with (fun _ => True))
              (process_group (@safe_ban_action St) uid rights op g)) as Hpg.
  { intros g _. eapply process_group_settles; simpl; auto.
    - apply (returns_settles remote). apply safe_ban_action_returns.
    - simpl. auto. }
  split.
  - exact (proj1 (batch_returns remote safe_ban_action uid rights op groups
                    (fun _ _ => True) Hpg sched s)).
  - apply (batch_chunks remote safe_ban_action uid rights op groups (fun _ _ => True)
             (fun g => EditBannedRequest (scope_id g) (PeerId uid) rights) Hpg).
    intros g e. cbn. apply elem_of_app. right. by apply list_elem_of_singleton.
Qed.

(** Settles a task against a concrete oracle, by running through its
    awaits. *)
Ltac settle_by_computation :=
  cbv;
  repeat first
    [ apply settles_ret; first [reflexivity | eexists; reflexivity | discriminate]
    | apply settles_throw; first [reflexivity | eexists; reflexivity | discriminate]
    | apply settles_await; intros ?; cbv
    | apply settles_log ].

(** Three groups: the first accepts the ban, the executor raises in the
    second, the third refuses. *)
Lemma batch_counts_without_cancellation_example :
  Forall (fun g => settles fleet_remote (fun o => o <> Raised CancelledError)
                     (flaky_action (scope_id g) 42 ban_rights)) (fleet 3)
  /\ ((exists more acc,
         result (run fleet_remote (round_robin 3 2 ++ more)
                   (boot tt [batch_ban_operation flaky_action 42 ban_rights "封禁" (fleet 3)]))
           0 = Some (Returned acc))
      /\ (forall o,
            result (run fleet_remote (round_robin 3 2)
                      (boot tt [batch_ban_operation flaky_action 42 ban_rights "封禁"
                                  (fleet 3)]))
              0 = Some o ->
            exists acc results,
              o = Returned acc
              /\ length results = length (fleet 3)
              /\ tally_all (mkBatch 0 0 []) (map Returned results) = Returned acc
              /\ success acc = length (filter (fun r => r.1 = true) results)
              /\ failed acc = length (filter (fun r => r.1 = false) results)
              /\ (success acc + failed acc = length (fleet 3))%nat)).
Proof.
  assert (Forall (fun g => settles fleet_remote (fun o => o <> Raised CancelledError)
                             (flaky_action (scope_id g) 42 ban_rights)) (fleet 3)) as H.
  { let l := eval vm_compute in (fleet 3) in change (fleet 3) with l.
    repeat (apply List.Forall_cons; [settle_by_computation|]). apply List.Forall_nil. }
  split; [exact H|].
  exact (batch_counts_without_cancellation fleet_remote flaky_action 42 ban_rights "封禁"
           (fleet 3) tt (round_robin 3 2) H).
Defined.

(** C9, at the failing input: a dispatch over three groups in which the
    task of the second group is cancelled from outside while
    [safe_ban_action] awaits Telegram's answer to the rights change.  The
    task ends with [CancelledError], which [gather] reports as its result;
    line 440 takes it for no [Exception], [result[0]] raises [TypeError],
    and [batch_ban_operation] raises instead of returning counts. *)
Theorem batch_raises_on_a_cancelled_task :
  let start :=
    boot tt [batch_ban_operation safe_ban_action 42 ban_rights "封禁" (fleet 3)] in
  let launched := run fleet_remote [RunMain 0; RunKid 0 1] start in
  let σ := run fleet_remote (round_robin 3 6) (cancel_task 0 1 launched) in
  trace (senv launched) = [Request (EditBannedRequest 2 (PeerId 42) ban_rights)]
  /\ map (fun t => map (fun k => match kid_state k with KDone o => Some o | _ => None end)
                     (kids t)) (threads σ)
     = [[Some (Returned (true, None)); Some (Raised CancelledError);
         Some (Returned (false, Some "group 3"))]]
  /\ tally (mkBatch 1 0 []) (Raised CancelledError) = Raised (Error "TypeError")
  /\ result σ 0 = Some (Raised (Error "TypeError")).
Proof. vm_compute. repeat split; reflexivity. Qed.

(** The run of these three groups to its end. *)
Example dispatch_of_three_groups :
  result (run fleet_remote (round_robin 3 6)
            (boot tt [batch_ban_operation flaky_action 42 ban_rights "封禁" (fleet 3)])) 0
  = Some (Returned (mkBatch 1 2 ["group 2 (异常)"; "group 3"])).
Proof. vm_compute. reflexivity. Qed.

(** 25 groups of which the five of [refusing] refuse the ban. *)
Lemma batch_tally_by_verdict_witness :
  Forall (fun g => settles fleet_remote (verdict_of (fleet_verdicts g))
                     (@safe_ban_action unit (scope_id g) 42 ban_rights)) (fleet 25)
  /\ ((exists more acc,
         result (run fleet_remote (round_robin 25 10 ++ more)
                   (boot tt [batch_ban_operation safe_ban_action 42 ban_rights "封禁"
                               (fleet 25)]))
           0 = Some (Returned acc))
      /\ (forall o,
            result (run fleet_remote (round_robin 25 10)
                      (boot tt [batch_ban_operation safe_ban_action 42 ban_rights "封禁"
                                  (fleet 25)]))
              0 = Some o ->
            o = Returned
                  (mkBatch 20 5 ["group 3"; "group 7"; "group 12"; "group 22"; "group 25"]))).
Proof.
  assert (Forall (fun g => settles fleet_remote (verdict_of (fleet_verdicts g))
                     (@safe_ban_action unit (scope_id g) 42 ban_rights)) (fleet 25)) as H.
  { let l := eval vm_compute in (fleet 25) in change (fleet 25) with l.
    repeat (apply List.Forall_cons; [settle_by_computation|]). apply List.Forall_nil. }
  split; [exact H|].
  exact (batch_tally_by_verdict fleet_remote safe_ban_action 42 ban_rights "封禁"
           (fleet 25) fleet_verdicts tt (round_robin 25 10) H).
Defined.

(** The run of these 25 groups to its end. *)
Example dispatch_of_25_groups :
  result (run fleet_remote (round_robin 25 10)
            (boot tt [batch_ban_operation safe_ban_action 42 ban_rights "封禁" (fleet 25)])) 0
  = Some (Returned (mkBatch 20 5 ["group 3"; "group 7"; "group 12"; "group 22"; "group 25"])).
Proof. vm_compute. reflexivity. Qed.

(** A dispatch over 45 groups: the 20 tasks of the first chunk are created
    together and are all in flight once each has made its first call; at
    the end there are 45 finished tasks. *)
Example dispatch_of_45_groups :
  let start := boot tt [batch_ban_operation safe_ban_action 42 unban_rights "解封" (fleet 45)] in
  let launched := run fleet_remote (RunMain 0 :: map (RunKid 0) (seq 0 20)) start in
  let σ := run fleet_remote (round_robin 45 12) start in
  map (fun t => (length (kids t), in_flight (kids t))) (threads launched) = [(20, 20)]%nat
  /\ length (trace (senv launched)) = 20%nat
  /\ map (fun t => (length (kids t), in_flight (kids t))) (threads σ) = [(45, 0)]%nat
  /\ result σ 0 = Some (Returned (mkBatch 40 5 (map (fun k => "group " +:+ pretty k) refusing))).
Proof. vm_compute. repeat split; reflexivity. Qed.

(** C4, as stated, at 25 groups of which five refuse the ban, the third
    having an empty title: the dispatch returns 20 and 5, and a failure list
    of four titles, which is not the list of the titles of the five groups
    that failed. *)
Lemma batch_omits_an_empty_title :
  exists acc,
    result (run fleet_remote (round_robin 25 10)
              (boot tt [batch_ban_operation safe_ban_action 42 ban_rights "封禁"
                          fleet_with_untitled])) 0
    = Some (Returned acc)
    /\ map scope_title (filter (fun g => scope_id g ∈ refusing) fleet_with_untitled)
       = [""; "group 7"; "group 12"; "group 22"; "group 25"]
    /\ success acc = 20%nat
    /\ failed acc = 5%nat
    /\ failed_groups acc = ["group 7"; "group 12"; "group 22"; "group 25"]
    /\ ~ failed_groups acc
         ≡ₚ map scope_title (filter (fun g => scope_id g ∈ refusing) fleet_with_untitled).
Proof.
  eexists. split; [vm_compute; reflexivity|].
  split; [vm_compute; reflexivity|].
  split; [reflexivity|]. split; [reflexivity|]. split; [reflexivity|].
  intros Hp. apply Permutation_length in Hp. vm_compute in Hp. discriminate.
Qed.

(** ** The scope cache *)

Lemma advance_store {St A} remote (Q : outcome A -> Prop) (c : task St A) e :
  settles remote Q c -> store (advance c e).2 = store e.
Proof.
  intros H. revert e. induction H; intros e; simpl; auto.
  rewrite IHsettles. reflexivity.
Qed.

Lemma advance_trace {St A} (P : request -> Prop) (c : task St A) e :
  asks_only P c ->
  exists evs, trace (advance c e).2 = trace e ++ evs /\ Forall (event_asks P) evs.
Proof.
  intros H. revert e. induction H as [a|x|q k Hq Hk IH|m k Hk IH]; intros e; simpl.
  - exists []. by rewrite app_nil_r.
  - exists []. by rewrite app_nil_r.
  - exists [Request q]. split; [reflexivity | by constructor].
  - destruct (IH (mkEnv (store e) (now e) (trace e ++ [Logged m]))) as (evs & -> & Hevs).
    exists (Logged m :: evs). simpl. rewrite <- app_assoc. split; [reflexivity|].
    by constructor.
Qed.

Lemma advance_asks {St A} (P : request -> Prop) (c : task St A) e :
  asks_only P c ->
  match (advance c e).1 with
  | KNew c' | KWait c' => asks_only P c'
  | KDone _ => True
  end.
Proof.
  intros H. revert e. induction H as [a|x|q k Hq Hk IH|m k Hk IH]; intros e; simpl; auto.
  - by constructor.
  - apply IH.
Qed.

(** A step of a task that settles and asks only [P] leaves the shared state
    alone and adds only such requests to the trace. *)
Lemma step_kid_quiet {St A} remote (Q : outcome A -> Prop) (P : request -> Prop)
    (k : kid St A) e :
  kid_ok remote Q k -> kid_asks P k ->
  kid_asks P (step_kid remote k e).1
  /\ store (step_kid remote k e).2 = store e
  /\ exists evs, trace (step_kid remote k e).2 = trace e ++ evs
                 /\ Forall (event_asks P) evs.
Proof.
  destruct k as [st cancel]. unfold kid_ok, kid_asks. simpl. intros [-> Hs] Ha.
  unfold step_kid. simpl. destruct st as [c|c|o]; simpl.
  - pose proof (advance_store remote Q c e Hs) as H1.
    pose proof (advance_trace P c e Ha) as H2.
    pose proof (advance_asks P c e Ha) as H3.
    destruct (advance c e) as [st e']. simpl in *. auto.
  - destruct Hs as [a|x|q k Hk|m k Hk]; simpl.
    + split; [exact I|]. split; [reflexivity|]. exists []. by rewrite app_nil_r.
    + split; [exact I|]. split; [reflexivity|]. exists []. by rewrite app_nil_r.
    + assert (asks_only P (k (Answer (remote (now e) q)))) as Ha'
        by (inversion Ha; auto).
      pose proof (advance_store remote Q _ (mkEnv (store e) (S (now e)) (trace e))
                    (Hk (now e))) as HS.
      pose proof (advance_trace P _ (mkEnv (store e) (S (now e)) (trace e)) Ha') as HT.
      pose proof (advance_asks P _ (mkEnv (store e) (S (now e)) (trace e)) Ha') as HA.
      destruct (advance _ _) as [st e']. simpl in *. auto.
    + assert (asks_only P k) as Ha' by (inversion Ha; auto).
      pose proof (advance_store remote Q _ (mkEnv (store e) (now e) (trace e ++ [Logged m]))
                    Hk) as HS.
      pose proof (advance_trace P _ (mkEnv (store e) (now e) (trace e ++ [Logged m]))
                    Ha') as (evs & HT & Hevs).
      pose proof (advance_asks P _ (mkEnv (store e) (now e) (trace e ++ [Logged m]))
                    Ha') as HA.
      destruct (advance _ _) as [st e']. simpl in *.
      split; [exact HA|]. split; [exact HS|].
      exists (Logged m :: evs). rewrite HT, <- app_assoc. split; [reflexivity|].
      by constructor.
  - split; [exact I|]. split; [reflexivity|]. exists []. by rewrite app_nil_r.
Qed.

Lemma enumerations_app tr evs :
  enumerations (tr ++ evs) = (enumerations tr + enumerations evs)%nat.
Proof. unfold enumerations. by rewrite filter_app, length_app. Qed.

Lemma enumerations_probes evs :
  Forall (event_asks is_probe) evs -> enumerations evs = 0%nat.
Proof.
  unfold enumerations. induction 1 as [|ev evs Hev H IH]; [reflexivity|].
  rewrite filter_cons. destruct ev as [[]|]; simpl in *; try contradiction; exact IH.
Qed.

Lemma check_group_settles remote me d :
  settles remote (returned_with (checked remote me d)) (check_group me d).
Proof.
  unfold check_group, checked.
  destruct (reply_entity me) as [m|]; simpl.
  - constructor. intros n.
    destruct (remote n (GetParticipantRequest (dialog_id d) (ent_id m))) as [| | |p| |msg] eqn:Hr;
      simpl; try (constructor; simpl; exists n; rewrite Hr; reflexivity).
    destruct (admin_rights p) as [[[]]|] eqn:Ha; simpl;
      constructor; simpl; exists n; rewrite Hr; simpl; rewrite Ha; reflexivity.
  - constructor. reflexivity.
Qed.

Lemma check_group_asks me d : asks_only is_probe (check_group me d).
Proof.
  unfold check_group. destruct (reply_entity me) as [m|]; simpl.
  - constructor; [exact I|]. intros [[| | |p| |msg]|]; simpl; try constructor.
    destruct (admin_rights p) as [[[]]|]; simpl; constructor.
  - constructor.
Qed.

Lemma cache_hit_nonempty c now : cache_hit c now = nonempty (data (groups c)).
Proof. unfold cache_hit, cache_valid, CACHE_DURATION. apply andb_true_r. Qed.

Lemma nonempty_true {X} (l : list X) : nonempty l = true <-> l <> [].
Proof. destruct l; simpl; split; congruence. Qed.

Lemma nonempty_false {X} (l : list X) : nonempty l = false <-> l = [].
Proof. destruct l; simpl; split; congruence. Qed.

Lemma lock_acquire_busy c : lock (groups c) = true -> lock_acquire c = None.
Proof. unfold lock_acquire. by intros ->. Qed.

Lemma lock_acquire_free c :
  lock (groups c) = false ->
  lock_acquire c
  = Some (set_groups (fun g => mkGroupsCache (timestamp g) (data g) true) c).
Proof. unfold lock_acquire. by intros ->. Qed.

Section CallerSteps.
Variable remote : nat -> request -> response.

Local Abbreviation caller_state := (caller_state remote).
Local Abbreviation transition := (transition remote).

Lemma transition_rebase p e1 e2 p' e' :
  store e1 = store e2 -> trace e1 = trace e2 ->
  transition p e1 p' e' -> transition p e2 p' e'.
Proof.
  intros Hs Ht H. destruct H; rewrite ?Hs, ?Ht in *.
  - apply tr_stay; auto.
  - apply tr_hit; auto.
  - apply tr_wait; auto.
  - apply tr_enter; auto.
  - apply tr_fail; auto.
  - apply tr_store; auto.
Qed.

(** Under the lock: the cached groups are returned, or an enumeration
    starts. *)
Lemma under_lock_enter e ks b :
  let r := cadvance (locked under_lock) e ks b in
  (data (groups (store e)) <> []
   /\ r.1 = mkThread (MDone (Returned (data (groups (store e))))) ks b
   /\ data (groups (store r.2)) = data (groups (store e))
   /\ lock (groups (store r.2)) = false
   /\ trace r.2 = trace e)
  \/ (data (groups (store e)) = []
      /\ r.1 = mkThread (MWait (locked refresh_groups)) ks b
      /\ store r.2 = store e
      /\ trace r.2 = trace e ++ [Request GetMe]).
Proof.
  simpl. rewrite cache_hit_nonempty.
  destruct (data (groups (store e))) as [|sc l] eqn:Hd; simpl.
  - right. auto.
  - left. repeat split; auto; congruence.
Qed.

Lemma enumerations_snoc_log tr m : enumerations (tr ++ [Logged m]) = enumerations tr.
Proof. rewrite enumerations_app. unfold enumerations. simpl. lia. Qed.

Lemma enumerations_snoc_quiet tr ev :
  is_get_me ev = false -> enumerations (tr ++ [ev]) = enumerations tr.
Proof.
  intros H. rewrite enumerations_app. unfold enumerations.
  rewrite filter_cons_False by (rewrite H; discriminate). simpl. lia.
Qed.

Lemma enumerations_snoc_get_me tr : enumerations (tr ++ [Request GetMe]) = S (enumerations tr).
Proof. rewrite enumerations_app. unfold enumerations. simpl. lia. Qed.

Lemma kept_returned (vs : list (option Scope)) :
  kept (map Returned vs) = map Group (omap id vs).
Proof.
  induction vs as [|[sc|] vs IH]; simpl; [reflexivity| |exact IH].
  f_equal. exact IH.
Qed.

(** Entering the loop over the batches of dialogs, the dialogs [done]
    probed. *)
Lemma check_batches_enter n n_dialogs all dialogs done starts verdicts found old b e :
  (forall msg, remote n GetMe <> RError msg) ->
  remote n_dialogs IterDialogs = RDialogs all ->
  dialogs = filter (fun d => is_group d || is_channel d) all ->
  dialogs = done ++ concat (map (fun i => take 10 (drop i dialogs)) starts) ->
  Forall2 (checked remote (remote n GetMe)) done verdicts ->
  found = map Group (omap id verdicts) ->
  Forall (fun k => kid_done k = true) old ->
  let r := cadvance
             (locked (cbind (check_batches (remote n GetMe) dialogs starts found)
                        store_groups)) e old b in
  exists p', caller_state r.1 p' /\ transition Refreshing e p' r.2.
Proof.
  intros Hme Hall Hdl Hsplit Hv Hf Hold. destruct starts as [|i starts]; simpl.
  - assert (enumerated remote found) as Henum.
    { exists n, n_dialogs, all, verdicts. simpl in Hsplit. rewrite app_nil_r in Hsplit.
      split; [exact Hme|]. split; [exact Hall|]. split; [|exact Hf].
      rewrite <- Hdl, Hsplit. exact Hv. }
    exists (Finished found). split.
    + apply caller_finished; [assumption|]. intros <-. by left.
    + apply tr_store; simpl; auto. apply enumerations_snoc_log.
  - exists Refreshing. split.
    + eapply (caller_checking remote n n_dialogs all dialogs done i starts verdicts found);
        eauto.
      apply Forall2_fmap_r, Forall2_fmap_r, Forall_Forall2_diag, Forall_forall.
      intros d _. split.
      * split; [reflexivity|]. simpl. apply check_group_settles.
      * simpl. apply check_group_asks.
    + apply tr_stay; reflexivity.
Qed.

(** The failure exit: the lock is released and [[]] returned. *)
Lemma locked_raise msg e ks b :
  cadvance (locked (CThrow (Error msg))) e ks b
  = (mkThread (MDone (Returned [])) ks b,
     mkEnv (lock_release (store e)) (now e)
           (trace e ++ [Logged "[AdvancedBan] Get groups error"])).
Proof. reflexivity. Qed.

(** A step of a caller. *)
Lemma caller_step_main t p e :
  caller_state t p ->
  exists p', caller_state (step_main remote t e).1 p'
             /\ transition p e p' (step_main remote t e).2.
Proof.
  intros [| | |n Hme|n n_dialogs all dialogs done i starts verdicts found old ks
                    Hme Hall Hdl Hsplit Hv Hf Hold Hks|r ks b Hks Hr];
    unfold step_main; cbn [main kids base].
  - (* not started: the first look at the cache *)
    cbn [get_managed_groups ctry_except cadvance]. rewrite cache_hit_nonempty.
    destruct (nonempty (data (groups (store e)))) eqn:Hd;
      cbn [ctry_except cadvance fst snd].
    + apply nonempty_true in Hd. exists (Finished (data (groups (store e)))). split.
      * apply caller_finished; [constructor | done].
      * apply tr_hit; auto.
    + apply nonempty_false in Hd.
      cbn [casync_with ctry_except cadvance].
      destruct (lock (groups (store e))) eqn:Hl.
      * rewrite (lock_acquire_busy _ Hl). exists Waiting. cbn [fst snd].
        split; [apply caller_waiting | apply tr_wait; auto].
      * rewrite (lock_acquire_free _ Hl). pose proof (under_lock_enter
                      (mkEnv (set_groups (fun g => mkGroupsCache (timestamp g) (data g) true)
                                (store e)) (now e) (trace e)) [] 0%nat) as Hu.
        cbv zeta in Hu. cbn [store now trace] in Hu.
        destruct Hu as [(Hne & _)|(_ & H1 & H2 & H3)]; [simpl in Hne; congruence|].
        change (ctry_except (cfinally under_lock lock_release) get_groups_error)
          with (locked under_lock).
        destruct (cadvance (locked under_lock) _ [] 0%nat) as [t' e']. simpl in *. subst t'.
        exists Refreshing. split; [apply caller_get_me|].
        apply tr_enter; auto; rewrite ?H2, ?H3; simpl; auto.
        apply enumerations_snoc_get_me.
  - (* waiting for the lock *)
    cbn [cresume casync_with ctry_except cadvance].
    destruct (lock (groups (store e))) eqn:Hl.
    + rewrite (lock_acquire_busy _ Hl). exists Waiting. cbn [fst snd].
      split; [apply caller_waiting | apply tr_stay; auto].
    + rewrite (lock_acquire_free _ Hl). pose proof (under_lock_enter
                    (mkEnv (set_groups (fun g => mkGroupsCache (timestamp g) (data g) true)
                              (store e)) (now e) (trace e)) [] 0%nat) as Hu.
      cbv zeta in Hu. cbn [store now trace] in Hu.
      change (ctry_except (cfinally under_lock lock_release) get_groups_error)
        with (locked under_lock).
      destruct (cadvance (locked under_lock) _ [] 0%nat) as [t' e'].
      destruct Hu as [(Hne & H1 & H2 & H3 & H4)|(Hd & H1 & H2 & H3)]; simpl in *; subst t'.
      * exists (Finished (data (groups (store e)))). split.
        -- apply caller_finished; [constructor | done].
        -- apply tr_hit; auto; congruence.
      * exists Refreshing. split; [apply caller_get_me|].
        apply tr_enter; auto; rewrite ?H2, ?H3; simpl; auto.
        apply enumerations_snoc_get_me.
  - (* the reply to get_me *)
    cbn [cresume locked refresh_groups cclient cbind cfinally ctry_except].
    pose proof (caller_dialogs remote (now e)) as Hc.
    destruct (remote (now e) GetMe) as [| | | | |msg] eqn:Hme;
      try (exists Refreshing; split;
           [ refine (Hc _); congruence
           | apply tr_stay; [reflexivity | reflexivity |];
             apply (enumerations_snoc_quiet _ (Request IterDialogs)); reflexivity ]).
    exists (Finished []). split.
    + apply caller_finished; [constructor|]. intros _. right. left. eauto.
    + apply tr_fail; simpl; auto. apply enumerations_snoc_log.
  - (* the reply to iter_dialogs *)
    cbn [cresume locked enumerate cclient cbind cfinally ctry_except].
    destruct (remote (now e) IterDialogs) as [| |all| | |msg] eqn:Hds;
      try (exists (Finished []); split;
           [ apply caller_finished; [constructor|]; intros _; right; right;
             exists (now e); intros all'; congruence
           | apply tr_fail; simpl; auto; apply enumerations_snoc_log ]).
    destruct (check_batches_enter n (now e) all
                (filter (fun d => is_group d || is_channel d) all) []
                (py_range 0 (length (filter (fun d => is_group d || is_channel d) all)) 10)
                [] [] [] 0%nat (mkEnv (store e) (S (now e)) (trace e)))
      as (p' & Hs & Ht); auto.
    { simpl. symmetry. apply (chunks_cover 10). lia. }
    exists p'. split; [exact Hs|].
    eapply transition_rebase; [| |exact Ht]; reflexivity.
  - (* the end of a batch of probes *)
    cbn [cresume locked cbind cfinally ctry_except].
    rewrite drop_app_length.
    destruct (join_results ks) as [os|] eqn:Hj.
    + destruct (join_results_returned remote (checked remote (remote n GetMe))
                  (take 10 (drop i dialogs)) ks os) as (vs & -> & Hvs).
      { eapply Forall2_impl; [exact Hks|]. by intros ? ? [? _]. }
      { exact Hj. }
      rewrite kept_returned.
      apply (check_batches_enter n n_dialogs all dialogs
               (done ++ take 10 (drop i dialogs)) starts (verdicts ++ vs)); auto.
      * rewrite Hsplit at 1. simpl. by rewrite <- app_assoc.
      * by apply Forall2_app.
      * rewrite omap_app, map_app. congruence.
      * apply Forall_app. split; [assumption | eapply join_results_done; eauto].
    + exists Refreshing. split; [|apply tr_stay; reflexivity].
      eapply caller_checking; eauto.
  - exists (Finished r). split; [by apply caller_finished | apply tr_stay; reflexivity].
Qed.

(** A step of a task of a caller. *)
Lemma caller_step_kid t p j e :
  caller_state t p ->
  caller_state (step_kid_of remote t j e).1 p
  /\ transition p e p (step_kid_of remote t j e).2.
Proof.
  intros Hs. unfold step_kid_of.
  destruct (kids t !! j) as [k|] eqn:Hj; [|split; [exact Hs | apply tr_stay; reflexivity]].
  destruct Hs as [| | |n Hme|n n_dialogs all dialogs done i starts verdicts found old ks
                    Hme Hall Hdl Hsplit Hv Hf Hold Hks|r ks b Hks Hr];
    cbn [main kids base] in *; try (rewrite lookup_nil in Hj; discriminate).
  - destruct (decide (j < length old)%nat) as [Hlt|Hge].
    + rewrite lookup_app_l in Hj by assumption.
      rewrite step_kid_done by (eapply Forall_lookup_1 in Hold; eauto).
      simpl. rewrite list_insert_id by (by rewrite lookup_app_l).
      split; [eapply caller_checking; eauto | apply tr_stay; reflexivity].
    + rewrite lookup_app_r in Hj by lia.
      pose proof (Forall2_lookup_r _ _ _ _ _ Hks Hj) as (d & Hd & Hok & Hask).
      pose proof (step_kid_ok remote _ k e Hok) as Hok'.
      pose proof (step_kid_quiet remote _ is_probe k e Hok Hask)
        as (Hask' & Hstore & evs & Htrace & Hevs).
      destruct (step_kid remote k e) as [k' e']. cbn [fst snd] in *.
      rewrite insert_app_r_alt by lia. split.
      * eapply caller_checking; eauto.
        rewrite <- (list_insert_id _ _ _ Hd). apply Forall2_insert; auto.
      * apply tr_stay; rewrite ?Hstore; auto.
        rewrite Htrace, enumerations_app, (enumerations_probes evs Hevs). lia.
  - rewrite step_kid_done by (eapply Forall_lookup_1 in Hks; eauto).
    simpl. rewrite list_insert_id by assumption.
    split; [by apply caller_finished | apply tr_stay; reflexivity].
Qed.

End CallerSteps.

Lemma filter_length_insert {X} (f : X -> bool) (l : list X) i x y :
  l !! i = Some x ->
  (length (filter (fun z => f z = true) (<[i := y]> l)) + (if f x then 1 else 0)
   = length (filter (fun z => f z = true) l) + (if f y then 1 else 0))%nat.
Proof.
  revert i. induction l as [|z l IH]; intros [|i] H; simpl in H; try discriminate.
  - injection H as ->. simpl. rewrite !filter_cons.
    destruct (f x), (f y); simpl; lia.
  - simpl. rewrite !filter_cons. specialize (IH i H).
    destruct (f z); simpl; lia.
Qed.

Section CallersInvariant.
Variable remote : nat -> request -> response.

(** The invariant survives the transition of one caller. *)
Lemma callers_inv_update σ phs i t p t' p' e' :
  callers_inv remote σ phs ->
  threads σ !! i = Some t -> phs !! i = Some p ->
  caller_state remote t' p' ->
  transition remote p (senv σ) p' e' ->
  callers_inv remote (mkSys e' (<[i := t']> (threads σ))) (<[i := p']> phs).
Proof.
  intros (Hst & Hlock & Hcold & Henum & Hfin & Hone & Hlow & Hown & Hup) Ht Hp Hs' Htr.
  pose proof (filter_length_insert started phs i p p' Hp) as Hcount.
  assert (forall j x, <[i := p']> phs !! j = Some x ->
            (j = i /\ x = p') \/ (j <> i /\ phs !! j = Some x)) as Hcases.
  { intros j x H. apply list_lookup_insert_Some in H as [(-> & <- & _)|[Hne Hj]]; auto. }
  assert (<[i := p']> phs !! i = Some p') as Hi
    by (apply list_lookup_insert_eq; eapply lookup_lt_Some; eauto).
  assert (forall j, j <> i -> <[i := p']> phs !! j = phs !! j) as Hother
    by (intros j Hj; by apply list_lookup_insert_ne).
  unfold callers_inv. cbn [senv threads].
  split; [apply Forall2_insert; assumption|].
  destruct Htr as [p e e' Hd Hl Hn|p e e' Hp0 Hne Hd Hl Hn|e e' Hl0 Hd Hl Hn
                  |p e e' Hp0 Hl0 Hd0 Hd Hl Hn|e e' Hd Hl Hn|e e' found Hf Hd Hl Hn];
    rewrite ?Hd, ?Hl, ?Hn in *.
  - (* nothing changes *)
    rewrite (list_insert_id phs i p Hp). tauto.
  - (* the cached groups are returned *)
    split; [|split; [|split; [|split; [|split; [|split; [|split]]]]]].
    + destruct (lock (groups (store e))).
      * destruct Hlock as (i0 & H0 & Huniq). exists i0.
        assert (i0 <> i) by (intros ->; destruct Hp0; congruence).
        split; [by rewrite Hother|].
        intros j Hj. apply Hcases in Hj as [[_ ?]|[_ Hj]]; [discriminate | auto].
      * intros j Hj. apply Hcases in Hj as [[_ ?]|[_ Hj]]; [discriminate|].
        by apply (Hlock j).
    + intros j Hj. apply Hcases in Hj as [[_ ?]|[_ Hj]]; [discriminate | eauto].
    + assumption.
    + intros j r Hj. apply Hcases in Hj as [[_ [= ->]]|[_ Hj]]; [by right | eauto].
    + intros Hall. apply Hone. intros j r Hj.
      destruct (decide (j = i)) as [->|Hji]; [destruct Hp0; congruence|].
      apply (Hall j). by rewrite Hother.
    + intros _. apply Hlow. by left.
    + intros _. exists i. exact Hi.
    + destruct Hp0 as [-> | ->]; simpl in Hcount; lia.
  - (* the caller starts to wait *)
    split; [|split; [|split; [|split; [|split; [|split; [|split]]]]]].
    + rewrite Hl0 in *. destruct Hlock as (i0 & H0 & Huniq). exists i0.
      assert (i0 <> i) by (intros ->; congruence).
      split; [by rewrite Hother|].
      intros j Hj. apply Hcases in Hj as [[_ ?]|[_ Hj]]; [discriminate | auto].
    + intros j Hj. apply Hcases in Hj as [[_ ?]|[_ Hj]]; [discriminate | eauto].
    + assumption.
    + intros j r Hj. apply Hcases in Hj as [[_ ?]|[_ Hj]]; [discriminate | eauto].
    + intros Hall. apply Hone. intros j r Hj.
      destruct (decide (j = i)) as [->|Hji]; [congruence|].
      apply (Hall j). by rewrite Hother.
    + intros _. apply Hlow. right. rewrite Hl0 in Hlock.
      destruct Hlock as (i0 & H0 & _). exists i0, Refreshing. split; [assumption | discriminate].
    + intros Hne. destruct (Hown Hne) as [j Hj]. exists j.
      rewrite Hother; [assumption | intros ->; congruence].
    + simpl in Hcount. lia.
  - (* the caller takes the lock and starts an enumeration *)
    rewrite Hl0, Hd0 in *.
    split; [|split; [|split; [|split; [|split; [|split; [|split]]]]]].
    + exists i. split; [exact Hi|].
      intros j Hj. apply Hcases in Hj as [[? _]|[_ Hj]]; [assumption|].
      by destruct (Hlock j).
    + reflexivity.
    + by left.
    + intros j r Hj. apply Hcases in Hj as [[_ ?]|[_ Hj]]; [discriminate | eauto].
    + intros Hall. rewrite Hone; [reflexivity|]. intros j r Hj.
      destruct (decide (j = i)) as [->|Hji]; [destruct Hp0; congruence|].
      apply (Hall j). by rewrite Hother.
    + intros _. lia.
    + intros Hne. congruence.
    + destruct Hp0 as [-> | ->]; simpl in Hcount; lia.
  - (* a failed enumeration ends *)
    assert (data (groups (store e)) = []) as Hd0 by eauto.
    assert (lock (groups (store e)) = true) as Hl0.
    { destruct (lock (groups (store e))); [reflexivity|]. by destruct (Hlock i). }
    rewrite Hl0, Hd0 in *. destruct Hlock as (i0 & H0 & Huniq).
    split; [|split; [|split; [|split; [|split; [|split; [|split]]]]]].
    + intros j Hj. apply Hcases in Hj as [[_ ?]|[Hne Hj]]; [discriminate|].
      rewrite (Huniq j Hj), (Huniq i Hp) in Hne. congruence.
    + reflexivity.
    + by left.
    + intros j r Hj. apply Hcases in Hj as [[_ [= <-]]|[_ Hj]]; [by left | eauto].
    + intros Hall. by destruct (Hall i [] Hi).
    + intros _. apply Hlow. right. exists i, Refreshing. split; [assumption | discriminate].
    + intros Hne. congruence.
    + simpl in Hcount. lia.
  - (* an enumeration ends and stores what it found *)
    assert (data (groups (store e)) = []) as Hd0 by eauto.
    assert (lock (groups (store e)) = true) as Hl0.
    { destruct (lock (groups (store e))); [reflexivity|]. by destruct (Hlock i). }
    rewrite Hl0, Hd0 in *. destruct Hlock as (i0 & H0 & Huniq).
    split; [|split; [|split; [|split; [|split; [|split; [|split]]]]]].
    + intros j Hj. apply Hcases in Hj as [[_ ?]|[Hne Hj]]; [discriminate|].
      rewrite (Huniq j Hj), (Huniq i Hp) in Hne. congruence.
    + intros j Hj. apply Hcases in Hj as [[_ ?]|[Hne Hj]]; [discriminate|].
      rewrite (Huniq j Hj), (Huniq i Hp) in Hne. congruence.
    + by right.
    + intros j r Hj. apply Hcases in Hj as [[_ [= <-]]|[_ Hj]]; [by right|].
      destruct (Hfin j r Hj) as [-> | ->]; by left.
    + intros Hall. rewrite Hone.
      * assert (found <> []) as Hne by (apply (Hall i); exact Hi).
        apply nonempty_true in Hne. rewrite Hne. reflexivity.
      * intros j r Hj. destruct (decide (j = i)) as [->|Hji]; [congruence|].
        apply (Hall j). by rewrite Hother.
    + intros _. apply Hlow. right. exists i, Refreshing. split; [assumption | discriminate].
    + intros _. exists i. exact Hi.
    + simpl in Hcount. lia.
Qed.

End CallersInvariant.

(** A finished coroutine keeps its result. *)
Lemma result_step {St A R} remote ch (σ : sys St A R) i o :
  result σ i = Some o -> result (step remote ch σ) i = Some o.
Proof.
  unfold result. destruct (threads σ !! i) as [t|] eqn:Ht; [|discriminate].
  destruct (main t) as [| |o'] eqn:Hm; try discriminate. intros [= ->].
  destruct ch as [i'|i' j]; simpl.
  - destruct (threads σ !! i') as [t1|] eqn:Ht1; [|by rewrite Ht, Hm].
    destruct (decide (i' = i)) as [->|Hne].
    + rewrite Ht in Ht1. injection Ht1 as <-. unfold step_main. rewrite Hm. simpl.
      rewrite list_lookup_insert_eq by (eapply lookup_lt_Some; eauto). by rewrite Hm.
    + destruct (step_main remote t1 (senv σ)) as [t1' e']. simpl.
      rewrite list_lookup_insert_ne by assumption. by rewrite Ht, Hm.
  - destruct (threads σ !! i') as [t1|] eqn:Ht1; [|by rewrite Ht, Hm].
    destruct (decide (i' = i)) as [->|Hne].
    + rewrite Ht in Ht1. injection Ht1 as <-. unfold step_kid_of.
      destruct (kids t !! j) as [k|]; simpl.
      * destruct (step_kid remote k (senv σ)) as [k' e']. simpl.
        rewrite list_lookup_insert_eq by (eapply lookup_lt_Some; eauto). simpl.
        by rewrite Hm.
      * rewrite list_lookup_insert_eq by (eapply lookup_lt_Some; eauto). by rewrite Hm.
    + destruct (step_kid_of remote t1 j (senv σ)) as [t1' e']. simpl.
      rewrite list_lookup_insert_ne by assumption. by rewrite Ht, Hm.
Qed.

Lemma result_run {St A R} remote sched (σ : sys St A R) i o :
  result σ i = Some o -> result (run remote sched σ) i = Some o.
Proof.
  revert σ. induction sched as [|ch sched IH]; intros σ H; [exact H|].
  rewrite run_cons. apply IH. by apply result_step.
Qed.

Lemma step_threads_length {St A R} remote ch (σ : sys St A R) :
  length (threads (step remote ch σ)) = length (threads σ).
Proof.
  destruct ch as [i|i j]; simpl; destruct (threads σ !! i) as [t|]; try reflexivity.
  - destruct (step_main remote t (senv σ)). simpl. apply length_insert.
  - destruct (step_kid_of remote t j (senv σ)). simpl. apply length_insert.
Qed.

Lemma run_threads_length {St A R} remote sched (σ : sys St A R) :
  length (threads (run remote sched σ)) = length (threads σ).
Proof.
  revert σ. induction sched as [|ch sched IH]; intros σ; [reflexivity|].
  rewrite run_cons, IH. apply step_threads_length.
Qed.

Section CallersRun.
Variable remote : nat -> request -> response.

Lemma callers_step σ phs ch :
  callers_inv remote σ phs -> exists phs', callers_inv remote (step remote ch σ) phs'.
Proof.
  intros Hinv. pose proof Hinv as (Hst & _).
  destruct ch as [i|i j]; simpl.
  - destruct (threads σ !! i) as [t|] eqn:Ht; [|eauto].
    destruct (Forall2_lookup_l _ _ _ _ _ Hst Ht) as (p & Hp & Hs).
    destruct (caller_step_main remote t p (senv σ) Hs) as (p' & Hs' & Htr).
    destruct (step_main remote t (senv σ)) as [t' e']. simpl in *.
    exists (<[i := p']> phs). eapply callers_inv_update; eauto.
  - destruct (threads σ !! i) as [t|] eqn:Ht; [|eauto].
    destruct (Forall2_lookup_l _ _ _ _ _ Hst Ht) as (p & Hp & Hs).
    destruct (caller_step_kid remote t p j (senv σ) Hs) as (Hs' & Htr).
    destruct (step_kid_of remote t j (senv σ)) as [t' e']. simpl in *.
    exists (<[i := p]> phs). eapply callers_inv_update; eauto.
Qed.

Lemma callers_run σ phs sched :
  callers_inv remote σ phs -> exists phs', callers_inv remote (run remote sched σ) phs'.
Proof.
  revert σ phs. induction sched as [|ch sched IH]; intros σ phs H; [eauto|].
  rewrite run_cons. destruct (callers_step σ phs ch H) as [phs' H']. eauto.
Qed.

(** [n] callers on a cold cache whose lock is free. *)
Lemma callers_boot c0 n :
  data (groups c0) = [] -> lock (groups c0) = false ->
  callers_inv remote (boot c0 (replicate n get_managed_groups)) (replicate n Idle).
Proof.
  intros Hd Hl. unfold callers_inv, boot. cbn [senv threads store trace].
  rewrite Hd, Hl.
  assert (forall j p, replicate n Idle !! j = Some p -> p = Idle) as Hidle
    by (intros j p H; by apply lookup_replicate in H as [-> _]).
  split; [|split; [|split; [|split; [|split; [|split; [|split; [|split]]]]]]].
  - clear Hidle. induction n as [|n IH]; simpl; constructor;
      [apply caller_idle | exact IH].
  - intros j Hj. apply Hidle in Hj. discriminate.
  - reflexivity.
  - by left.
  - intros j r Hj. apply Hidle in Hj. discriminate.
  - reflexivity.
  - intros [?|(j & p & Hj & Hp)]; [done|]. apply Hidle in Hj. contradiction.
  - done.
  - unfold enumerations. simpl. lia.
Qed.

End CallersRun.

Section CallersComplete.
Variable remote : nat -> request -> response.

Local Abbreviation returned_unlocked r :=
  (exists found, main r.1 = MDone (Returned found)
                 /\ lock (groups (store r.2)) = false).

Lemma complete_batches me dialogs starts found e ks b :
  returned_unlocked
    (complete remote
       (locked (cbind (check_batches me dialogs starts found) store_groups)) e ks b).
Proof.
  revert found e ks b. induction starts as [|i starts IH]; intros found e ks b.
  - simpl. eauto.
  - cbn [check_batches gather locked cbind cfinally ctry_except complete].
    rewrite finish_kids_app.
    destruct (finish_kids remote ks e) as [ks1 e1] eqn:H1.
    pose proof (finish_kids_length remote ks e) as Hl. rewrite H1 in Hl. simpl in Hl.
    destruct (finish_kids_ok remote (checked remote me) (take 10 (drop i dialogs))
                (map (fun c => mkKid (KNew c) false)
                   (map (check_group me) (take 10 (drop i dialogs)))) e1)
      as (vs & Hj & Hvs).
    { apply Forall2_fmap_r, Forall2_fmap_r, Forall_Forall2_diag, Forall_forall.
      intros d _. split; [reflexivity|]. simpl. apply check_group_settles. }
    destruct (finish_kids remote _ e1) as [ks2 e2]. simpl in *.
    rewrite <- Hl, drop_app_length, Hj. apply IH.
Qed.

Lemma complete_enumerate me e ks b :
  returned_unlocked (complete remote (locked (enumerate me)) e ks b).
Proof.
  cbn [locked enumerate cclient cbind cfinally ctry_except complete].
  destruct (remote (now e) IterDialogs) as [| |all| | |msg]; try (simpl; eauto; fail).
  apply complete_batches.
Qed.

Lemma complete_refresh e ks b :
  returned_unlocked (complete remote (locked refresh_groups) e ks b).
Proof.
  cbn [locked refresh_groups cclient cbind cfinally ctry_except complete].
  destruct (remote (now e) GetMe) as [| | | | |msg];
    try apply complete_enumerate.
  simpl. eauto.
Qed.

Lemma complete_under_lock e ks b :
  returned_unlocked (complete remote (locked under_lock) e ks b).
Proof.
  cbn [locked under_lock cfinally ctry_except complete]. rewrite cache_hit_nonempty.
  destruct (nonempty (data (groups (store e)))); [simpl; eauto|].
  apply complete_refresh.
Qed.

(** A caller that holds the lock, or finds it free, runs to its return and
    leaves the lock free. *)
Lemma caller_completes t p e :
  caller_state remote t p ->
  lock (groups (store e)) = false \/ p = Refreshing ->
  returned_unlocked (finish_thread remote t e).
Proof.
  intros [| | |n Hme|n n_dialogs all dialogs done i starts verdicts found old ks
                    Hme Hall Hdl Hsplit Hv Hf Hold Hks|r ks b Hks Hr] Hfree;
    unfold finish_thread; cbn [main kids base].
  - destruct Hfree as [Hl|]; [|discriminate].
    cbn [get_managed_groups ctry_except complete]. rewrite cache_hit_nonempty.
    destruct (nonempty (data (groups (store e)))); [simpl; eauto|].
    cbn [casync_with ctry_except complete]. rewrite (lock_acquire_free _ Hl).
    apply complete_under_lock.
  - destruct Hfree as [Hl|]; [|discriminate].
    cbn [casync_with ctry_except complete]. rewrite (lock_acquire_free _ Hl).
    apply complete_under_lock.
  - cbn [locked refresh_groups cclient cbind cfinally ctry_except].
    destruct (remote (now e) GetMe) as [| | | | |msg];
      try apply complete_enumerate.
    simpl. eauto.
  - cbn [locked enumerate cclient cbind cfinally ctry_except].
    destruct (remote (now e) IterDialogs) as [| |all| | |msg]; try (simpl; eauto; fail).
    apply complete_batches.
  - cbn [locked cbind cfinally ctry_except complete].
    rewrite finish_kids_app.
    destruct (finish_kids remote old e) as [old1 e1] eqn:H1.
    pose proof (finish_kids_length remote old e) as Hl. rewrite H1 in Hl. simpl in Hl.
    destruct (finish_kids_ok remote (checked remote (remote n GetMe))
                (take 10 (drop i dialogs)) ks e1) as (vs & Hj & Hvs).
    { eapply Forall2_impl; [exact Hks|]. by intros ? ? [? _]. }
    destruct (finish_kids remote ks e1) as [ks2 e2]. simpl in *.
    rewrite <- Hl, drop_app_length, Hj. apply complete_batches.
  - destruct Hfree as [Hl|]; [|discriminate]. simpl. eauto.
Qed.

(** Some schedule takes a caller that holds the lock, or finds it free, to
    its return. *)
Lemma callers_finish_thread σ phs i p :
  callers_inv remote σ phs ->
  phs !! i = Some p ->
  lock (groups (store (senv σ))) = false \/ p = Refreshing ->
  exists sched,
    is_Some (result (run remote sched σ) i)
    /\ lock (groups (store (senv (run remote sched σ)))) = false.
Proof.
  intros Hinv Hp Hfree. pose proof Hinv as (Hst & _).
  destruct (Forall2_lookup_r _ _ _ _ _ Hst Hp) as (t & Ht & Hs).
  destruct (finish_thread_sound remote (threads σ) i t (senv σ) Ht) as [sched Hrun].
  destruct (caller_completes t p (senv σ) Hs Hfree) as (found & Hm & Hl).
  exists sched. destruct σ as [e ths]. simpl in *. rewrite Hrun. split.
  - unfold result. simpl.
    rewrite list_lookup_insert_eq by (eapply lookup_lt_Some; eauto). rewrite Hm. eauto.
  - exact Hl.
Qed.

(** Every state of the callers can be continued until all have returned. *)
Lemma callers_all_return σ phs :
  callers_inv remote σ phs ->
  exists sched, forall i, (i < length (threads σ))%nat ->
    is_Some (result (run remote sched σ) i).
Proof.
  intros Hinv.
  (* first the caller that holds the lock, if any *)
  assert (exists s0, lock (groups (store (senv (run remote s0 σ)))) = false)
    as [s0 Hfree].
  { destruct (lock (groups (store (senv σ)))) eqn:Hl; [|by exists []].
    pose proof Hinv as (_ & Hlock & _). rewrite Hl in Hlock.
    destruct Hlock as (i & Hi & _).
    destruct (callers_finish_thread σ phs i Refreshing Hinv Hi) as (s0 & _ & H0); eauto. }
  (* then every caller in turn *)
  assert (forall k, (k <= length (threads σ))%nat ->
            exists s, lock (groups (store (senv (run remote (s0 ++ s) σ)))) = false
                      /\ forall i, (i < k)%nat ->
                           is_Some (result (run remote (s0 ++ s) σ) i)) as Hall.
  { induction k as [|k IH]; intros Hk.
    - exists []. rewrite app_nil_r. split; [exact Hfree | lia].
    - destruct IH as (s & Hl & Hdone); [lia|].
      destruct (callers_run remote σ phs (s0 ++ s) Hinv) as [phs' Hinv'].
      pose proof Hinv' as (Hst' & _).
      assert (k < length phs')%nat as Hk'.
      { rewrite <- (Forall2_length _ _ _ Hst'), run_threads_length. lia. }
      destruct (lookup_lt_is_Some_2 phs' k Hk') as [p Hp].
      destruct (callers_finish_thread _ phs' k p Hinv' Hp (or_introl Hl))
        as (s1 & Hres & Hl1).
      exists (s ++ s1). rewrite app_assoc, run_app. split; [exact Hl1|].
      intros i Hi. destruct (decide (i = k)) as [->|Hne]; [exact Hres|].
      destruct (Hdone i ltac:(lia)) as [o Ho]. exists o. by apply result_run. }
  destruct (Hall (length (threads σ)) (le_n _)) as (s & _ & Hdone).
  exists (s0 ++ s). exact Hdone.
Qed.

End CallersComplete.

(** *** What the invariant says of the results *)

Section CallersFacts.
Variable remote : nat -> request -> response.

Lemma caller_refresh_in_flight t p :
  caller_state remote t p -> refresh_in_flight t = true <-> p = Refreshing.
Proof. intros []; cbn; split; congruence. Qed.

Lemma caller_state_result t p o :
  caller_state remote t p -> main t = MDone o ->
  exists r, o = Returned r /\ p = Finished r
            /\ (r = [] -> enumerated remote [] \/ enumeration_failed remote).
Proof. intros [] Hm; try discriminate. simplify_eq/=. eauto. Qed.

Lemma caller_state_finished t r :
  caller_state remote t (Finished r) -> main t = MDone (Returned r).
Proof. inversion 1. reflexivity. Qed.

Lemma callers_result σ phs i o :
  callers_inv remote σ phs -> result σ i = Some o ->
  exists r, o = Returned r /\ phs !! i = Some (Finished r)
            /\ (r = [] -> enumerated remote [] \/ enumeration_failed remote).
Proof.
  intros (Hst & _) Hres. unfold result in Hres.
  destruct (threads σ !! i) as [t|] eqn:Ht; [|discriminate].
  destruct (main t) as [| |o'] eqn:Hm; try discriminate. simplify_eq.
  destruct (Forall2_lookup_l _ _ _ _ _ Hst Ht) as (p & Hp & Hs).
  destruct (caller_state_result t p o Hs Hm) as (r & -> & -> & Hr). eauto.
Qed.

Lemma callers_finished σ phs i r :
  callers_inv remote σ phs -> phs !! i = Some (Finished r) ->
  result σ i = Some (Returned r).
Proof.
  intros (Hst & _) Hp.
  destruct (Forall2_lookup_r _ _ _ _ _ Hst Hp) as (t & Ht & Hs).
  unfold result. rewrite Ht, (caller_state_finished t r Hs). reflexivity.
Qed.

Lemma callers_refreshing σ phs i :
  callers_inv remote σ phs ->
  phs !! i = Some Refreshing
  <-> exists t, threads σ !! i = Some t /\ refresh_in_flight t = true.
Proof.
  intros (Hst & _). split.
  - intros Hp. destruct (Forall2_lookup_r _ _ _ _ _ Hst Hp) as (t & Ht & Hs).
    exists t. split; [exact Ht|]. by apply (caller_refresh_in_flight t Refreshing).
  - intros (t & Ht & Hf).
    destruct (Forall2_lookup_l _ _ _ _ _ Hst Ht) as (p & Hp & Hs).
    apply (caller_refresh_in_flight t p Hs) in Hf. by subst.
Qed.

End CallersFacts.

Section CallersSummary.
Variable remote : nat -> request -> response.

(** What holds of the callers after every schedule, in the terms of the
    threads, their results and the trace. *)
Lemma callers_summary σ phs :
  callers_inv remote σ phs ->
  let cached := data (groups (store (senv σ))) in
  (forall i j ti tj,
     threads σ !! i = Some ti -> threads σ !! j = Some tj ->
     refresh_in_flight ti = true -> refresh_in_flight tj = true -> i = j)
  /\ (lock (groups (store (senv σ))) = true
      <-> exists i t, threads σ !! i = Some t /\ refresh_in_flight t = true)
  /\ ((exists i t, threads σ !! i = Some t /\ refresh_in_flight t = true) -> cached = [])
  /\ (cached = [] \/ enumerated remote cached)
  /\ (forall i o, result σ i = Some o ->
      exists r, o = Returned r /\ (r = [] \/ r = cached)
                /\ (r = [] -> enumerated remote [] \/ enumeration_failed remote))
  /\ ((forall i, result σ i <> Some (Returned [])) ->
      (enumerations (trace (senv σ)) <= 1)%nat)
  /\ ((exists i, is_Some (result σ i)) -> (1 <= enumerations (trace (senv σ)))%nat)
  /\ (enumerations (trace (senv σ)) <= length (threads σ))%nat
  /\ ((0 < length (threads σ))%nat ->
      (forall i, (i < length (threads σ))%nat ->
         exists r, result σ i = Some (Returned r) /\ r <> []) ->
      enumerations (trace (senv σ)) = 1%nat
      /\ enumerated remote cached
      /\ forall i, (i < length (threads σ))%nat -> result σ i = Some (Returned cached))
  /\ (cached <> [] -> exists i, result σ i = Some (Returned cached)).
Proof.
  intros Hinv cached.
  pose proof Hinv as (Hst & Hlock & Hrefr & Hdata & Hfin & Hcount & Hone & Hsome & Hle).
  fold cached in Hrefr, Hdata, Hfin, Hcount, Hone, Hsome.
  pose proof (callers_refreshing remote σ phs) as Hfl.
  pose proof (Forall2_length _ _ _ Hst) as Hlen.
  split; [|split; [|split; [|split; [|split; [|split; [|split; [|split; [|split]]]]]]]].
  - intros i j ti tj Hi Hj Hti Htj.
    assert (phs !! i = Some Refreshing) as Hpi by (apply Hfl; eauto).
    assert (phs !! j = Some Refreshing) as Hpj by (apply Hfl; eauto).
    destruct (lock (groups (store (senv σ)))).
    + destruct Hlock as (i0 & _ & Huniq).
      rewrite (Huniq i Hpi), (Huniq j Hpj). reflexivity.
    + destruct (Hlock i Hpi).
  - destruct (lock (groups (store (senv σ)))).
    + split; [intros _|reflexivity].
      destruct Hlock as (i0 & Hi0 & _). exists i0. by apply Hfl.
    + split; [discriminate|]. intros (i & t & Ht & Hf).
      destruct (Hlock i). apply Hfl; eauto.
  - intros (i & t & Ht & Hf). apply (Hrefr i). apply Hfl; eauto.
  - exact Hdata.
  - intros i o Ho.
    destruct (callers_result remote σ phs i o Hinv Ho) as (r & -> & Hp & Hr).
    exists r. split; [reflexivity|]. split; [exact (Hfin i r Hp) | exact Hr].
  - intros Hnone.
    rewrite Hcount.
    + destruct (lock (groups (store (senv σ)))).
      * destruct Hlock as (i0 & Hi0 & _). rewrite (Hrefr i0 Hi0). simpl. lia.
      * destruct (nonempty cached); simpl; lia.
    + intros j r Hp ->. apply (Hnone j). by eapply callers_finished.
  - intros (i & o & Ho). apply Hone. right.
    destruct (callers_result remote σ phs i o Hinv Ho) as (r & -> & Hp & _).
    exists i, (Finished r). split; [exact Hp | discriminate].
  - etransitivity; [exact Hle|]. rewrite Hlen. apply length_filter.
  - intros Hpos Hall.
    assert (forall j r, phs !! j = Some (Finished r) -> r <> []) as Hne.
    { intros j r Hp.
      destruct (Hall j) as (r' & Hr' & Hr'ne).
      { rewrite Hlen. eapply lookup_lt_Some; eauto. }
      rewrite (callers_finished remote σ phs j r Hinv Hp) in Hr'. by simplify_eq. }
    assert (forall i, (i < length (threads σ))%nat ->
              result σ i = Some (Returned cached) /\ cached <> []) as Hres.
    { intros i Hi. destruct (Hall i Hi) as (r & Hr & Hrne).
      destruct (callers_result remote σ phs i _ Hinv Hr) as (r' & Heq & Hp & _).
      simplify_eq. destruct (Hfin i r' Hp) as [->| ->]; [done|]. by split. }
    destruct (Hres 0%nat Hpos) as [_ Hcne].
    split; [|split].
    + rewrite (Hcount Hne).
      destruct (lock (groups (store (senv σ)))).
      * destruct Hlock as (i0 & Hi0 & _). destruct Hcne. exact (Hrefr i0 Hi0).
      * destruct cached; [done|reflexivity].
    + destruct Hdata; [done|assumption].
    + intros i Hi. apply (Hres i Hi).
  - intros Hc. destruct (Hsome Hc) as [j Hj]. exists j. by eapply callers_finished.
Qed.

(** Every schedule of callers that started on a cold cache can be continued
    until every caller has returned. *)
Lemma callers_live c0 n sched :
  data (groups c0) = [] -> lock (groups c0) = false ->
  exists more, forall i, (i < n)%nat ->
    exists r, result (run remote (sched ++ more)
                        (boot c0 (replicate n get_managed_groups))) i
              = Some (Returned r).
Proof.
  intros Hd Hl.
  destruct (callers_run remote _ _ sched (callers_boot remote c0 n Hd Hl)) as [phs Hinv].
  destruct (callers_all_return remote _ phs Hinv) as [more Hall].
  exists more. intros i Hi. rewrite run_app.
  destruct (Hall i) as [o Ho].
  { rewrite run_threads_length. unfold boot. simpl.
    rewrite length_map, length_replicate. exact Hi. }
  destruct (callers_run remote _ _ more Hinv) as [phs' Hinv'].
  destruct (callers_result remote _ phs' i o Hinv' Ho) as (r & -> & _).
  eauto.
Qed.

(** One caller on a cold cache whose lock is free: it returns; it
    enumerates at most once, and once when it has returned; and what it
    returns is what the cache holds: the groups of an enumeration that went
    through, or nothing after an enumeration that failed. *)
Lemma single_caller c0 sched :
  data (groups c0) = [] -> lock (groups c0) = false ->
  let start := boot c0 [get_managed_groups] in
  let σ := run remote sched start in
  let cached := data (groups (store (senv σ))) in
  (exists more r, result (run remote (sched ++ more) start) 0 = Some (Returned r))
  /\ (enumerations (trace (senv σ)) <= 1)%nat
  /\ (cached = [] \/ enumerated remote cached)
  /\ (forall o, result σ 0 = Some o ->
      exists r, o = Returned r
        /\ enumerations (trace (senv σ)) = 1%nat
        /\ cached = r
        /\ (enumerated remote r \/ (r = [] /\ enumeration_failed remote))).
Proof.
  intros Hd Hl start σ cached. subst cached σ start.
  change [get_managed_groups] with (replicate 1 get_managed_groups).
  split.
  { destruct (callers_live c0 1 sched Hd Hl) as [more Hall].
    destruct (Hall 0%nat) as [r Hr]; [lia|]. eauto. }
  destruct (callers_run remote _ _ sched (callers_boot remote c0 1 Hd Hl)) as [phs Hinv].
  destruct (callers_summary _ phs Hinv)
    as (_ & _ & _ & Hdata & Hres & _ & Hone & Hle & _ & Hsome).
  assert (length (threads (run remote sched (boot c0 (replicate 1 get_managed_groups))))
          = 1%nat) as HN by (by rewrite run_threads_length).
  rewrite HN in Hle.
  split; [exact Hle|]. split; [exact Hdata|].
  intros o Ho. destruct (Hres 0%nat o Ho) as (r & -> & Hr & Hfail).
  exists r. split; [reflexivity|]. split; [|split].
  - assert (1 <= enumerations (trace (senv (run remote sched
              (boot c0 (replicate 1 get_managed_groups))))))%nat by (apply Hone; eauto).
    lia.
  - destruct Hr as [->|Hr]; [|done].
    destruct (decide (data (groups (store (senv (run remote sched
                (boot c0 (replicate 1 get_managed_groups)))))) = [])) as [|Hne]; [done|].
    destruct (Hsome Hne) as [i Hi].
    assert (i = 0%nat) as ->.
    { unfold result in Hi.
      destruct (threads _ !! i) as [t|] eqn:Ht; [|discriminate].
      apply lookup_lt_Some in Ht. lia. }
    rewrite Ho in Hi. by simplify_eq.
  - destruct Hr as [->| ->].
    + destruct (Hfail eq_refl); auto.
    + destruct Hdata as [Hd'|]; [|auto].
      rewrite Hd' in *. destruct (Hfail eq_refl); auto.
Qed.

End CallersSummary.

(** C2 (amended): for every number [N] of concurrent callers of
    [get_managed_groups] on a cold cache whose lock is free, and after every
    schedule: every caller returns (some continuation of the schedule takes
    all [N] to their return); at most one caller has a refresh in flight, the
    lock is held exactly while one has, and one has only while the cache is
    empty (the re-check under the lock); a caller returns the empty sequence
    or the cached sequence; as long as no caller has returned the empty
    sequence at most one enumeration has been started; once all [N] have
    returned a non-empty sequence, exactly one enumeration has run and all
    [N] have returned the same sequence, the cached one; and when no
    enumeration can fail or come out empty, at most one enumeration is ever
    started, and a caller that has returned has returned the cached
    sequence of the one enumeration that has run. *)
Theorem concurrent_callers_share_one_refresh remote (c0 : Cache) (N : nat)
    (sched : list choice) :
  data (groups c0) = [] ->
  lock (groups c0) = false ->
  let start := boot c0 (replicate N get_managed_groups) in
  let σ := run remote sched start in
  let cached := data (groups (store (senv σ))) in
  (exists more, forall i, (i < N)%nat ->
     exists r, result (run remote (sched ++ more) start) i = Some (Returned r))
  /\ (forall i j ti tj,
        threads σ !! i = Some ti -> threads σ !! j = Some tj ->
        refresh_in_flight ti = true -> refresh_in_flight tj = true -> i = j)
  /\ (lock (groups (store (senv σ))) = true
      <-> exists i t, threads σ !! i = Some t /\ refresh_in_flight t = true)
  /\ ((exists i t, threads σ !! i = Some t /\ refresh_in_flight t = true) -> cached = [])
  /\ (forall i o, result σ i = Some o -> exists r, o = Returned r /\ (r = [] \/ r = cached))
  /\ ((forall i, result σ i <> Some (Returned [])) ->
      (enumerations (trace (senv σ)) <= 1)%nat)
  /\ ((0 < N)%nat ->
      (forall i, (i < N)%nat -> exists r, result σ i = Some (Returned r) /\ r <> []) ->
      enumerations (trace (senv σ)) = 1%nat
      /\ enumerated remote cached
      /\ forall i, (i < N)%nat -> result σ i = Some (Returned cached))
  /\ ((forall r, enumerated remote r -> r <> []) -> ~ enumeration_failed remote ->
      (enumerations (trace (senv σ)) <= 1)%nat
      /\ forall i o, result σ i = Some o ->
           o = Returned cached /\ cached <> []
           /\ enumerations (trace (senv σ)) = 1%nat).
Proof.
  intros Hd Hl start σ cached. subst cached σ start.
  split; [exact (callers_live remote c0 N sched Hd Hl)|].
  destruct (callers_run remote _ _ sched (callers_boot remote c0 N Hd Hl)) as [phs Hinv].
  destruct (callers_summary remote _ phs Hinv)
    as (Huniq & Hlock & Hempty & _ & Hres & Hone & Hsome & _ & Hall & _).
  assert (length (threads (run remote sched (boot c0 (replicate N get_managed_groups))))
          = N) as HN.
  { rewrite run_threads_length. unfold boot. simpl.
    by rewrite length_map, length_replicate. }
  rewrite HN in Hall.
  split; [exact Huniq|]. split; [exact Hlock|]. split; [exact Hempty|].
  split; [|split; [exact Hone|split; [exact Hall|]]].
  - intros i o Ho. destruct (Hres i o Ho) as (r & -> & Hr & _). eauto.
  - intros Hfull Hnever.
    assert (forall i o, result (run remote sched
                                  (boot c0 (replicate N get_managed_groups))) i = Some o ->
              exists r, o = Returned r /\ r <> []
                        /\ r = data (groups (store (senv (run remote sched
                                 (boot c0 (replicate N get_managed_groups))))))) as Hgood.
    { intros i o Ho. destruct (Hres i o Ho) as (r & -> & Hr & Hfail).
      assert (r <> []) as Hne.
      { intros ->. destruct (Hfail eq_refl) as [He|Hf]; [by apply (Hfull [])|done]. }
      exists r. split; [reflexivity|]. split; [exact Hne|]. by destruct Hr. }
    assert (enumerations (trace (senv (run remote sched
              (boot c0 (replicate N get_managed_groups))))) <= 1)%nat as Hle.
    { apply Hone. intros i Hi. destruct (Hgood i _ Hi) as (r & [= <-] & Hne & _). done. }
    split; [exact Hle|].
    intros i o Ho. destruct (Hgood i o Ho) as (r & -> & Hne & ->).
    split; [done|]. split; [done|].
    assert (1 <= enumerations (trace (senv (run remote sched
              (boot c0 (replicate N get_managed_groups))))))%nat by (apply Hsome; eauto).
    lia.
Qed.

(** Telegram as [seven_remote] has it cannot fail an enumeration, and every
    enumeration finds group 1. *)
Lemma seven_remote_enumerates :
  (forall r, enumerated seven_remote r -> r <> []) /\ ~ enumeration_failed seven_remote.
Proof.
  split.
  - intros r (n_me & n_dialogs & all & verdicts & _ & Hall & Hv & ->).
    injection Hall as <-.
    assert (exists rest,
              filter (fun d => is_group d || is_channel d) thirteen_dialogs
              = mkDialog 1 "group 1" true false :: rest) as [rest Hrest]
      by (eexists; vm_compute; reflexivity).
    rewrite Hrest in Hv.
    apply Forall2_cons_inv_l in Hv as (v & vs & Hchecked & _ & ->).
    destruct Hchecked as [n ->]. discriminate.
  - intros [(n & msg & H)|(n & H)]; [discriminate H|].
    by apply (H thirteen_dialogs).
Qed.

(** Three callers on a cold cache, the account having the right to ban in
    seven groups. *)
Lemma concurrent_callers_share_one_refresh_witness :
  let start := boot cold (replicate 3 get_managed_groups) in
  let σ := run seven_remote (interleaved 3 12 7) start in
  let cached := data (groups (store (senv σ))) in
  data (groups cold) = [] /\ lock (groups cold) = false
  /\ (exists more, forall i, (i < 3)%nat ->
        exists r, result (run seven_remote (interleaved 3 12 7 ++ more) start) i
                  = Some (Returned r))
  /\ (forall i j ti tj,
        threads σ !! i = Some ti -> threads σ !! j = Some tj ->
        refresh_in_flight ti = true -> refresh_in_flight tj = true -> i = j)
  /\ (enumerations (trace (senv σ)) <= 1)%nat
  /\ (forall i o, result σ i = Some o ->
      o = Returned cached /\ cached <> [] /\ enumerations (trace (senv σ)) = 1%nat).
Proof.
  intros start σ cached.
  split; [reflexivity|]. split; [reflexivity|].
  destruct (concurrent_callers_share_one_refresh seven_remote cold 3 (interleaved 3 12 7)
              eq_refl eq_refl) as (Hlive & Huniq & _ & _ & _ & _ & _ & Hgood).
  split; [exact Hlive|]. split; [exact Huniq|].
  exact (Hgood (proj1 seven_remote_enumerates) (proj2 seven_remote_enumerates)).
Defined.

(** The run of these three callers to its end: one enumeration, and the
    same seven groups returned to each. *)
Example three_callers_seven_groups :
  let σ := run seven_remote (interleaved 3 12 7)
             (boot cold (replicate 3 get_managed_groups)) in
  let seven := map (fun k => Group (mkScope k ("group " +:+ pretty k))) administered in
  length seven = 7%nat
  /\ result σ 0 = Some (Returned seven)
  /\ result σ 1 = Some (Returned seven)
  /\ result σ 2 = Some (Returned seven)
  /\ enumerations (trace (senv σ)) = 1%nat.
Proof. vm_compute. auto. Qed.

(** C2, as stated, at two callers on a cold cache, when [iter_dialogs]
    fails and when the account has no dialog: both callers return the same,
    empty, sequence, and the enumeration has run twice, the first having
    left the cache as empty as it found it. *)
Lemma two_callers_enumerate_twice :
  let failed := run flood_remote (interleaved 2 0 5)
                  (boot cold (replicate 2 get_managed_groups)) in
  let barren := run barren_remote (interleaved 2 0 5)
                  (boot cold (replicate 2 get_managed_groups)) in
  (result failed 0 = Some (Returned [])
   /\ result failed 1 = Some (Returned [])
   /\ enumerations (trace (senv failed)) = 2%nat
   /\ trace (senv failed)
      = [Request GetMe; Request IterDialogs; Logged "[AdvancedBan] Get groups error";
         Request GetMe; Request IterDialogs; Logged "[AdvancedBan] Get groups error"])
  /\ (result barren 0 = Some (Returned [])
      /\ result barren 1 = Some (Returned [])
      /\ enumerations (trace (senv barren)) = 2%nat
      /\ trace (senv barren)
         = [Request GetMe; Request IterDialogs; Logged "[AdvancedBan] Groups refreshed";
            Request GetMe; Request IterDialogs; Logged "[AdvancedBan] Groups refreshed"]).
Proof. vm_compute. repeat split; reflexivity. Qed.

(** Away from cancellation the refresh caches the groups in which the
    account may ban: as long as no probe task is cancelled from outside, a
    call of [get_managed_groups] that refreshes (the cache is empty and the
    lock free) returns, after every schedule, and never raises; the cached
    sequence is then the one it returns: the groups, in the order of the
    dialogs, of exactly those group and channel dialogs whose probe reported
    admin rights with [ban_users] ([enumerated]); a probe that fails reports
    nothing, which excludes its dialog only; and when [get_me] or
    [iter_dialogs] fails, the call returns the empty sequence. *)
Lemma refresh_without_cancellation remote (c0 : Cache) (sched : list choice) :
  data (groups c0) = [] ->
  lock (groups c0) = false ->
  let start := boot c0 [get_managed_groups] in
  let σ := run remote sched start in
  let cached := data (groups (store (senv σ))) in
  (exists more r, result (run remote (sched ++ more) start) 0 = Some (Returned r))
  /\ (cached = [] \/ enumerated remote cached)
  /\ (forall o, result σ 0 = Some o ->
      exists r, o = Returned r /\ cached = r
        /\ (enumerated remote r \/ (r = [] /\ enumeration_failed remote)))
  /\ (forall d msg, probe_verdict d (RError msg) = None).
Proof.
  intros Hd Hl start σ cached.
  destruct (single_caller remote c0 sched Hd Hl) as (Hlive & _ & Hdata & Hres).
  split; [exact Hlive|]. split; [exact Hdata|]. split; [|reflexivity].
  intros o Ho. destruct (Hres o Ho) as (r & -> & _ & Hc & Hr). eauto.
Qed.

(** A refresh for the account that may ban in seven of its thirteen
    dialogs. *)
Lemma refresh_without_cancellation_example :
  let start := boot cold [get_managed_groups] in
  let σ := run seven_remote (interleaved 1 12 7) start in
  let cached := data (groups (store (senv σ))) in
  data (groups cold) = [] /\ lock (groups cold) = false
  /\ (exists more r,
        result (run seven_remote (interleaved 1 12 7 ++ more) start) 0 = Some (Returned r))
  /\ (cached = [] \/ enumerated seven_remote cached)
  /\ (forall o, result σ 0 = Some o ->
      exists r, o = Returned r /\ cached = r
        /\ (enumerated seven_remote r \/ (r = [] /\ enumeration_failed seven_remote)))
  /\ (forall d msg, probe_verdict d (RError msg) = None).
Proof.
  split; [reflexivity|]. split; [reflexivity|].
  exact (refresh_without_cancellation seven_remote cold (interleaved 1 12 7)
           eq_refl eq_refl).
Defined.

(** The run of this refresh to its end: of the twelve group dialogs, the
    seven in which the account may ban are cached and returned; the private
    chat is not probed. *)
Example refresh_of_thirteen_dialogs :
  let σ := run seven_remote (interleaved 1 12 7) (boot cold [get_managed_groups]) in
  let seven := map (fun k => Group (mkScope k ("group " +:+ pretty k))) administered in
  result σ 0 = Some (Returned seven)
  /\ data (groups (store (senv σ))) = seven
  /\ lock (groups (store (senv σ))) = false
  /\ Request (GetParticipantRequest 11 100) ∉ trace (senv σ).
Proof.
  intros σ seven.
  split; [vm_compute; reflexivity|]. split; [vm_compute; reflexivity|].
  split; [vm_compute; reflexivity|].
  intros H. vm_compute in H.
  repeat (apply elem_of_cons in H as [H|H]; [discriminate|]).
  by apply elem_of_nil in H.
Qed.

(** C5, at the failing input: the refresh of the account with thirteen
    dialogs when the task that probes the first dialog, group 1, is
    cancelled from outside while it awaits Telegram's answer.  [gather]
    reports [CancelledError] as the result of that task; the filter of line
    252 drops [None] and every [Exception] and keeps this one, which is
    truthy and a [BaseException] only.  The list that is cached and returned
    has the [CancelledError] object in first place, where the dict of group
    1, in which the account may ban, would have been. *)
Theorem refresh_keeps_a_cancelled_probe :
  let probing := run seven_remote [RunMain 0; RunMain 0; RunMain 0; RunKid 0 0]
                   (boot cold [get_managed_groups]) in
  let σ := run seven_remote (interleaved 1 12 7) (cancel_task 0 0 probing) in
  let six := map (fun k => Group (mkScope k ("group " +:+ pretty k))) (tail administered) in
  trace (senv probing)
  = [Request GetMe; Request IterDialogs; Request (GetParticipantRequest 1 100)]
  /\ probe_verdict (mkDialog 1 "group 1" true false)
       (seven_remote 2 (GetParticipantRequest 1 100))
     = Some (mkScope 1 "group 1")
  /\ kept [Raised CancelledError; Returned (Some (mkScope 2 "group 2"));
           Raised (Error "CHANNEL_PRIVATE"); Returned None]
     = [Cancellation; Group (mkScope 2 "group 2")]
  /\ result σ 0 = Some (Returned (Cancellation :: six))
  /\ data (groups (store (senv σ))) = Cancellation :: six.
Proof. vm_compute. repeat split; reflexivity. Qed.

(** A refresh when [iter_dialogs] fails: the empty sequence is returned. *)
Example refresh_when_telegram_is_down :
  let σ := run flood_remote (interleaved 1 0 3) (boot cold [get_managed_groups]) in
  result σ 0 = Some (Returned [])
  /\ data (groups (store (senv σ))) = []
  /\ lock (groups (store (senv σ))) = false.
Proof. vm_compute. auto. Qed.

(** A step, and so a run, only adds to the trace. *)
Lemma run_extends {St A R} remote sched (σ : sys St A R) :
  exists evs, trace (senv (run remote sched σ)) = trace (senv σ) ++ evs.
Proof.
  revert σ. induction sched as [|ch sched IH]; intros σ.
  { exists []. by rewrite app_nil_r. }
  rewrite run_cons. destruct (IH (step remote ch σ)) as [evs ->].
  assert (exists evs', trace (senv (step remote ch σ)) = trace (senv σ) ++ evs')
    as [evs' ->].
  { destruct ch as [i|i j]; simpl;
      (destruct (threads σ !! i) as [t|]; [|exists []; by rewrite app_nil_r]).
    - destruct (step_main_grows remote t (senv σ)) as [Hevs _].
      by destruct (step_main remote t (senv σ)).
    - unfold step_kid_of. destruct (kids t !! j) as [k|];
        [|exists []; by rewrite app_nil_r].
      pose proof (step_kid_extends remote k (senv σ)) as Hevs.
      by destruct (step_kid remote k (senv σ)). }
  exists (evs' ++ evs). by rewrite app_assoc.
Qed.

(** The clearing of a cache that holds no group changes nothing that the
    callers depend on. *)
Lemma callers_inv_clear remote σ phs :
  callers_inv remote σ phs -> data (groups (store (senv σ))) = [] ->
  callers_inv remote (clear_cache σ) phs.
Proof.
  unfold callers_inv, clear_cache. cbn [senv store trace threads].
  change (data (groups (invalidate (store (senv σ))))) with (@nil Managed).
  change (lock (groups (invalidate (store (senv σ)))))
    with (lock (groups (store (senv σ)))).
  intros H Hd. rewrite Hd in H. exact H.
Qed.

(** A refresh command that arrives while another call holds the lock: its
    clearing finds the cache empty, and its call shares the refresh in
    flight. *)
Lemma shared_refresh remote (c0 : Cache) (sched1 sched2 : list choice) :
  lock (groups c0) = false ->
  let first := run remote sched1
                 (boot (invalidate c0) [get_managed_groups; get_managed_groups]) in
  let σ := run remote sched2 (clear_cache first) in
  lock (groups (store (senv first))) = true ->
  (1 <= enumerations (trace (senv first)))%nat
  /\ (forall i o, result σ i = Some o ->
      exists r, o = Returned r /\ (r = [] \/ r = data (groups (store (senv σ)))))
  /\ ((forall i, result σ i <> Some (Returned [])) ->
      enumerations (trace (senv σ)) = enumerations (trace (senv first))).
Proof.
  intros Hl first σ Hheld.
  destruct (callers_run remote _ _ sched1
              (callers_boot remote (invalidate c0) 2 eq_refl Hl)) as [phs Hinv].
  change (replicate 2 get_managed_groups) with [get_managed_groups; get_managed_groups]
    in Hinv.
  fold first in Hinv.
  assert (data (groups (store (senv first))) = []) as Hd.
  { destruct (callers_summary remote _ phs Hinv) as (_ & Hlock & Hempty & _).
    apply Hempty, Hlock, Hheld. }
  assert (1 <= enumerations (trace (senv first)))%nat as Hfirst.
  { destruct Hinv as (_ & Hlk & _ & _ & _ & _ & Hpos & _).
    rewrite Hheld in Hlk. destruct Hlk as (i & Hi & _).
    apply Hpos. right. exists i, Refreshing. by split. }
  destruct (callers_run remote _ _ sched2 (callers_inv_clear remote _ _ Hinv Hd))
    as [phs2 Hinv2].
  fold σ in Hinv2.
  destruct (callers_summary remote _ phs2 Hinv2) as (_ & _ & _ & _ & Hres & Hone & _).
  split; [exact Hfirst|]. split.
  - intros i o Ho. destruct (Hres i o Ho) as (r & -> & Hr & _). eauto.
  - intros Hnone. specialize (Hone Hnone).
    destruct (run_extends remote sched2 (clear_cache first)) as [evs Hevs].
    fold σ in Hevs. cbn [clear_cache senv trace] in Hevs.
    rewrite Hevs, enumerations_app in *. lia.
Qed.




(** The run of this command to its end: one enumeration, and the group
    that was cached before is neither returned nor cached. *)
Example refresh_drops_the_stale_group :
  let σ := run seven_remote (interleaved 1 12 7)
             (boot (invalidate stale_cache) [get_managed_groups]) in
  let seven := map (fun k => Group (mkScope k ("group " +:+ pretty k))) administered in
  result σ 0 = Some (Returned seven)
  /\ data (groups (store (senv σ))) = seven
  /\ enumerations (trace (senv σ)) = 1%nat
  /\ Group (mkScope 99 "group 99") ∉ seven.
Proof.
  intros σ seven.
  split; [vm_compute; reflexivity|]. split; [vm_compute; reflexivity|].
  split; [vm_compute; reflexivity|].
  intros H. vm_compute in H.
  repeat (apply elem_of_cons in H as [H|H]; [discriminate|]).
  by apply elem_of_nil in H.
Qed.

(** ** The racing resolver *)

Section ProbeFacts.
Variable remote : nat -> request -> response.
Variables (uid : Z) (per_limit : nat).

Local Abbreviation holder := (holder uid per_limit).
Local Abbreviation probe_state := (probe_state uid per_limit).
Local Abbreviation reported := (reported uid).

Lemma reported_refl s : reported s s.
Proof. left. auto. Qed.

Lemma reported_trans s1 s2 s3 : reported s1 s2 -> reported s2 s3 -> reported s1 s3.
Proof.
  intros [[H1 H1']|(u & Hu & H1 & H1')] [[H2 H2']|(v & Hv & H2 & H2')].
  - left. split; congruence.
  - right. eauto.
  - right. exists u. repeat split; congruence.
  - right. eauto.
Qed.

Lemma reported_done s s' : reported s s' -> done_event s = true -> done_event s' = true.
Proof. intros [[_ H]|(u & _ & _ & H)]; congruence. Qed.

(** The fallback scan is a holder. *)
Lemma scan_holder g h fuel pos :
  (forall msg, holder g (finally (h msg) sem_release)) ->
  holder g (finally (try_except (scan_participants uid per_limit (scope_id g) fuel pos) h)
              sem_release).
Proof.
  intros Hh. revert pos. induction fuel as [|fuel IH]; intros pos; simpl.
  - constructor.
  - apply holder_await; [by split | reflexivity |]. intros [r|]; simpl.
    + destruct r as [|p| | | |msg]; simpl; try apply IH.
      * destruct (ent_id p =? uid) eqn:Hid; simpl; [|apply IH].
        apply holder_report; [by apply Z.eqb_eq|]. constructor.
      * constructor.
      * apply Hh.
    + constructor.
Qed.

(** The body of [async with semaphore] is a holder. *)
Lemma probe_body_holder g :
  holder g (finally (probe_body uid per_limit g) sem_release).
Proof.
  assert (holder g
            (finally
               (Get (fun s =>
                  if done_event s then Ret tt
                  else try_except (scan_participants uid per_limit (scope_id g) per_limit 0)
                         (fun _ => Log ("[AdvancedBan] Scan group " +:+ scope_title g
                                        +:+ " error") (Ret tt))))
               sem_release)) as Hscan.
  { simpl. apply holder_get. intros s. destruct (done_event s); [constructor|].
    apply scan_holder. intros _. simpl. repeat constructor. }
  unfold probe_body. simpl. apply holder_get. intros s.
  destruct (done_event s); [constructor|].
  unfold exact_lookup, USE_GET_PARTICIPANT_FIRST. simpl.
  apply holder_await; [by split | reflexivity |]. intros [r|]; simpl; [|constructor].
  destruct r as [| | |p| |msg]; simpl; try exact Hscan.
  destruct (find (fun u => ent_id u =? uid) (users p)) as [u|] eqn:Hfind; simpl;
    [|exact Hscan].
  apply find_some in Hfind as [_ Hid].
  apply holder_report; [by apply Z.eqb_eq|]. constructor.
Qed.

(** A holder runs to its next remote call, or to its end, where it
    releases its slot. *)
Lemma advance_holder g c e :
  holder g c ->
  cache (store (advance c e).2) = cache (store e)
  /\ reported (store e) (store (advance c e).2)
  /\ match (advance c e).1 with
     | KWait c' =>
         holder g c' /\ holds_slot (mkKid (KWait c') false) = true
         /\ semaphore (store (advance c e).2) = semaphore (store e)
     | KDone _ => semaphore (store (advance c e).2) = S (semaphore (store e))
     | KNew _ => False
     end.
Proof.
  intros H. revert e.
  induction H as [a|x|q k Hq Hcancel Hk IH|k Hk IH|u k Hu Hk IH|m k Hk IH];
    intros e; simpl.
  - repeat split. by left.
  - repeat split. by left.
  - repeat split; auto using reported_refl. by constructor.
  - apply IH.
  - destruct (IH (mkEnv (report u (store e)) (now e) (trace e)))
      as (Hc & Hr & Hk'). simpl in *.
    split; [exact Hc|]. split.
    + eapply reported_trans; [|exact Hr]. right. exists u. auto.
    + exact Hk'.
  - apply (IH (mkEnv (store e) (now e) (trace e ++ [Logged m]))).
Qed.

(** A holder that runs alone finishes, and releases its slot. *)
Lemma run_task_holder g c e :
  holder g c ->
  exists o e', run_task remote c e = (KDone o, e')
               /\ semaphore (store e') = S (semaphore (store e)).
Proof.
  intros H. revert e.
  induction H as [a|x|q k Hq Hcancel Hk IH|k Hk IH|u k Hu Hk IH|m k Hk IH];
    intros e; simpl; eauto.
  - destruct (IH (Answer (remote (now e) q))
                (mkEnv (store e) (S (now e)) (trace e ++ [Request q])))
      as (o & e' & -> & Hs). eauto.
  - destruct (IH (mkEnv (report u (store e)) (now e) (trace e)))
      as (o & e' & -> & Hs). eauto.
  - destruct (IH (mkEnv (store e) (now e) (trace e ++ [Logged m])))
      as (o & e' & -> & Hs). eauto.
Qed.

(** The same, in the terms of the task the holder belongs to. *)
Lemma holder_kid g c e :
  holder g c ->
  probe_state g (mkKid (advance c e).1 false)
  /\ cache (store (advance c e).2) = cache (store e)
  /\ reported (store e) (store (advance c e).2)
  /\ (semaphore (store (advance c e).2)
      + (if holds_slot (mkKid (advance c e).1 false) then 1 else 0)
      = S (semaphore (store e)))%nat.
Proof.
  intros H. destruct (advance_holder g c e H) as (Hc & Hr & Hk).
  split; [|split; [exact Hc|split; [exact Hr|]]].
  - destruct (advance c e).1 as [c'|c'|o]; [done| |constructor].
    destruct Hk as (Hh & Hs & _). destruct c'; try discriminate. by constructor.
  - destruct (advance c e).1 as [c'|c'|o]; [done| |].
    + destruct Hk as (_ & -> & ->). lia.
    + simpl. lia.
Qed.

(** A probe that is not started or waits for a slot takes its step. *)
Lemma probe_enter g e :
  let r := advance (probe_group uid per_limit g) e in
  probe_state g (mkKid r.1 false)
  /\ cache (store r.2) = cache (store e)
  /\ reported (store e) (store r.2)
  /\ (semaphore (store r.2) + (if holds_slot (mkKid r.1 false) then 1 else 0)
      = semaphore (store e))%nat.
Proof.
  unfold probe_group, async_with. cbn [advance]. unfold sem_acquire.
  destruct (semaphore (store e)) as [|n] eqn:Hsem.
  - cbn [fst snd]. split; [apply probe_queued|]. split; [reflexivity|].
    split; [apply reported_refl|]. cbn. lia.
  - destruct (holder_kid g (finally (probe_body uid per_limit g) sem_release)
                (mkEnv (mkResolver (cache (store e)) (found_user (store e))
                          (done_event (store e)) n) (now e) (trace e))
                (probe_body_holder g)) as (Hp & Hc & Hr & Hs).
    cbn [fst snd store] in *. repeat split; assumption.
Qed.

(** What a step of a probe does. *)
Lemma probe_step g k e :
  probe_state g k ->
  let r := step_kid remote k e in
  probe_state g r.1
  /\ cache (store r.2) = cache (store e)
  /\ reported (store e) (store r.2)
  /\ (semaphore (store r.2) + (if holds_slot r.1 then 1 else 0)
      = semaphore (store e) + (if holds_slot k then 1 else 0))%nat
  /\ (cancel_requested r.1 = true -> cancel_requested k = true).
Proof.
  assert (forall o b (e : env Resolver),
            probe_state g (mkKid (KDone o) b)
            /\ cache (store e) = cache (store e)
            /\ reported (store e) (store e)
            /\ (semaphore (store e) + 0 = semaphore (store e) + 0)%nat) as Hdone.
  { intros. repeat split; [constructor | apply reported_refl]. }
  intros [b|b|q k' b Hh|o b]; unfold step_kid; cbn [kid_state cancel_requested].
  - destruct b.
    + destruct (Hdone (Raised CancelledError) false e) as (? & ? & ? & ?).
      cbn. repeat split; assumption || discriminate.
    + destruct (probe_enter g e) as (Hp & Hc & Hr & Hs).
      destruct (advance (probe_group uid per_limit g) e) as [st e'].
      cbn [fst snd cancel_requested] in *.
      split; [exact Hp|]. split; [exact Hc|]. split; [exact Hr|].
      split; [cbn [holds_slot kid_state]; lia | discriminate].
  - destruct b.
    + destruct (Hdone (Raised CancelledError) false e) as (? & ? & ? & ?).
      cbn. repeat split; assumption || discriminate.
    + change (resume remote (probe_group uid per_limit g) false e)
        with (advance (probe_group uid per_limit g) e).
      destruct (probe_enter g e) as (Hp & Hc & Hr & Hs).
      destruct (advance (probe_group uid per_limit g) e) as [st e'].
      cbn [fst snd cancel_requested] in *.
      split; [exact Hp|]. split; [exact Hc|]. split; [exact Hr|].
      split; [|discriminate].
      change (holds_slot (mkKid (KWait (probe_group uid per_limit g)) false)) with false.
      rewrite Hs. simpl. lia.
  - inversion Hh as [| |q0 k0 Hq Hcancel Hk| | |]; subst.
    cbn [resume]. destruct b.
    + destruct (holder_kid g (k' Cancelled) e (Hk _)) as (Hp & Hc & Hr & Hs).
      destruct (advance (k' Cancelled) e) as [st e'].
      cbn [fst snd cancel_requested] in *.
      split; [exact Hp|]. split; [exact Hc|]. split; [exact Hr|].
      split; [cbn [holds_slot kid_state]; lia | discriminate].
    + destruct (holder_kid g (k' (Answer (remote (now e) q)))
                  (mkEnv (store e) (S (now e)) (trace e)) (Hk _)) as (Hp & Hc & Hr & Hs).
      destruct (advance (k' (Answer (remote (now e) q))) _) as [st e'].
      cbn [fst snd store cancel_requested] in *.
      split; [exact Hp|]. split; [exact Hc|]. split; [exact Hr|].
      split; [cbn [holds_slot kid_state]; lia | discriminate].
  - destruct (Hdone o b e) as (? & ? & ? & ?).
    cbn. repeat split; assumption || auto.
Qed.

(** A probe that has been asked to cancel is finished after its next step,
    which calls nothing and logs nothing. *)
Lemma probe_called_off g k e :
  probe_state g k -> called_off k ->
  kid_done (step_kid remote k e).1 = true
  /\ trace (step_kid remote k e).2 = trace e.
Proof.
  intros [b|b|q k' b Hh|o b] [Hd|Hc]; try discriminate Hd;
    unfold step_kid; cbn [kid_state cancel_requested] in *;
    try (subst b); try (by split).
  inversion Hh as [| |q0 k0 Hq Hcancel Hk| | |]; subst.
  cbn [resume]. rewrite Hcancel. by split.
Qed.

End ProbeFacts.

Lemma slots_held_none {St A} (ks : list (kid St A)) :
  Forall (fun k => holds_slot k = false) ks -> slots_held ks = 0%nat.
Proof.
  unfold slots_held. induction 1 as [|k ks Hk H IH]; [reflexivity|].
  rewrite filter_cons. destruct (decide (holds_slot k = true)); [congruence | exact IH].
Qed.

Lemma done_holds_not {St A} (k : kid St A) : kid_done k = true -> holds_slot k = false.
Proof. unfold kid_done, holds_slot. by destruct (kid_state k). Qed.

Lemma holds_slot_request_cancel {St A} (k : kid St A) :
  holds_slot (request_cancel k) = holds_slot k.
Proof. unfold request_cancel. by destruct (kid_done k). Qed.

Lemma slots_held_request_cancel {St A} (ks : list (kid St A)) :
  slots_held (map request_cancel ks) = slots_held ks.
Proof.
  unfold slots_held. induction ks as [|k ks IH]; [reflexivity|].
  simpl. rewrite !filter_cons, holds_slot_request_cancel.
  destruct (decide (holds_slot k = true)); simpl; by rewrite IH.
Qed.

Lemma slots_held_le {St A} (ks : list (kid St A)) : (slots_held ks <= length ks)%nat.
Proof. unfold slots_held. apply length_filter. Qed.

Section FinderFacts.
Variable remote : nat -> request -> response.
Variables (uid : Z) (per_limit : nat).

(** A holder that is a finder reports, or is still one at its next remote
    call. *)
Lemma advance_finder g c e :
  holder uid per_limit g c -> finder remote c ->
  done_event (store e) = false ->
  done_event (store (advance c e).2) = true
  \/ hopeful remote (mkKid (advance c e).1 false).
Proof.
  intros H. revert e. induction H; intros e Hf Hd; simpl.
  - inversion Hf as [f k Hset| | | |]; subst. left. apply Hset.
  - inversion Hf as [f k Hset| | | |]; subst. left. apply Hset.
  - right. exact Hf.
  - inversion Hf as [|?|k0 Hk| |]; subst. apply H0; auto.
  - left.
    destruct (advance_holder uid per_limit g k
                (mkEnv (report u (store e)) (now e) (trace e)) H0) as (_ & Hr & _).
    eapply reported_done; [exact Hr | reflexivity].
  - inversion Hf as [| | | |m0 k0 Hk]; subst. apply IHholder; auto.
Qed.

(** A probe that is a finder and is not cancelled reports, or is still a
    finder after its step. *)
Lemma probe_step_hope g k e :
  probe_state uid per_limit g k -> hopeful remote k ->
  cancel_requested k = false -> done_event (store e) = false ->
  done_event (store (step_kid remote k e).2) = true
  \/ hopeful remote (step_kid remote k e).1.
Proof.
  assert (forall e, finder remote (probe_group uid per_limit g) ->
            done_event (store e) = false ->
            done_event (store (advance (probe_group uid per_limit g) e).2) = true
            \/ hopeful remote (mkKid (advance (probe_group uid per_limit g) e).1 false))
    as Henter.
  { intros e0 Hf Hd. pose proof Hf as Hf0. revert Hf.
    unfold probe_group, async_with. intros Hf.
    inversion Hf as [| | |k0 Hk|]; subst. cbn [advance]. unfold sem_acquire.
    destruct (semaphore (store e0)) as [|n].
    - right. exact Hf0.
    - apply (advance_finder g); [apply probe_body_holder | exact Hk | exact Hd]. }
  intros [b|b|q k' b Hh|o b] Hf Hc Hd; cbn in Hc; subst b;
    unfold step_kid, hopeful in *; cbn [kid_state cancel_requested] in *.
  - specialize (Henter e Hf Hd).
    destruct (advance (probe_group uid per_limit g) e) as [st e']. exact Henter.
  - change (resume remote (probe_group uid per_limit g) false e)
      with (advance (probe_group uid per_limit g) e).
    specialize (Henter e Hf Hd).
    destruct (advance (probe_group uid per_limit g) e) as [st e']. exact Henter.
  - inversion Hh as [| |q0 k0 Hq Hcancel Hk| | |]; subst.
    inversion Hf as [|q0 k0 Hfk| | |]; subst.
    cbn [resume].
    pose proof (advance_finder g (k' (Answer (remote (now e) q)))
                  (mkEnv (store e) (S (now e)) (trace e)) (Hk _) (Hfk _) Hd) as Hadv.
    destruct (advance (k' (Answer (remote (now e) q))) _) as [st e']. exact Hadv.
  - destruct Hf.
Qed.

End FinderFacts.

Section RaceFacts.
Variable remote : nat -> request -> response.
Variable scopes : list Scope.
Variable uid : Z.
Variable per_group_limit : option nat.
Variable s0 : Resolver.

Local Abbreviation per_limit := (scan_limit per_group_limit).
Local Abbreviation race_store := (race_store remote scopes uid per_group_limit s0).
Local Abbreviation race_state := (race_state remote scopes uid per_group_limit s0).
Local Abbreviation probes :=
  (map (fun c => mkKid (KNew c) false) (map (probe_group uid per_limit) scopes)).

(** The tasks as they are created. *)
Lemma race_store_fresh : race_store (fresh_probe_state s0) probes.
Proof.
  split; [reflexivity|]. split; [|split; [|split; [|split]]].
  - rewrite slots_held_none; [reflexivity|].
    apply Forall_fmap, Forall_fmap, Forall_forall. by intros.
  - discriminate.
  - simpl. split; [discriminate | by intros [? ?]].
  - apply Forall_fmap, Forall_fmap, Forall_forall. by intros.
  - intros Hex. right. rewrite !Exists_fmap. exact Hex.
Qed.

Lemma probes_new : Forall2 (probe_state uid per_limit) scopes probes.
Proof.
  apply Forall2_fmap_r, Forall2_fmap_r, Forall_Forall2_diag, Forall_forall.
  intros g _. constructor.
Qed.

(** The cancellation of the tasks that are not done, once the event is
    set. *)
Lemma race_store_cancel s ks :
  done_event s = true -> race_store s ks -> race_store s (map request_cancel ks).
Proof.
  intros Hd (Hc & Hs & Hu & He & _ & _).
  split; [exact Hc|]. split; [|split; [exact Hu|split; [exact He|split]]].
  - by rewrite slots_held_request_cancel.
  - apply Forall_fmap, Forall_forall. intros x _. cbn. auto.
  - by left.
Qed.

Lemma probes_cancel ks :
  Forall2 (probe_state uid per_limit) scopes ks ->
  Forall2 (probe_state uid per_limit) scopes (map request_cancel ks).
Proof.
  intros H. apply Forall2_fmap_r. eapply Forall2_impl; [exact H|].
  intros g k []; unfold request_cancel; cbn; constructor; assumption.
Qed.

(** The step of one probe keeps the invariant of the shared state. *)
Lemma race_store_step ks j k e :
  Forall2 (probe_state uid per_limit) scopes ks ->
  race_store (store e) ks ->
  ks !! j = Some k ->
  Forall2 (probe_state uid per_limit) scopes (<[j := (step_kid remote k e).1]> ks)
  /\ race_store (store (step_kid remote k e).2) (<[j := (step_kid remote k e).1]> ks).
Proof.
  intros Hks (Hc & Hs & Hu & He & Hfl & Hhope) Hj.
  destruct (Forall2_lookup_r _ _ _ _ _ Hks Hj) as (g & Hg & Hp).
  destruct (probe_step remote uid per_limit g k e Hp) as (Hp' & Hc' & Hr & Hs' & Hfl').
  pose proof (probe_step_hope remote uid per_limit g k e Hp) as Hh'.
  destruct (step_kid remote k e) as [k' e']. cbn [fst snd] in *.
  split.
  { rewrite <- (list_insert_id scopes j g Hg). by apply Forall2_insert. }
  split; [congruence|]. split; [|split; [|split; [|split]]].
  - pose proof (filter_length_insert holds_slot ks j k k' Hj) as Hcount.
    unfold slots_held in *. lia.
  - intros u Hfound. destruct Hr as [[Hf _]|(v & Hv & Hf & _)].
    + apply Hu. congruence.
    + congruence.
  - destruct Hr as [[Hf Hd]|(v & Hv & Hf & Hd)].
    + rewrite Hf, Hd. exact He.
    + rewrite Hf, Hd. split; eauto.
  - apply Forall_insert.
    + eapply Forall_impl; [exact Hfl|]. intros x Hx Hcx.
      eapply reported_done; eauto.
    + intros Hcx. eapply reported_done; [exact Hr|].
      eapply (proj1 (Forall_lookup _ _) Hfl j k Hj). auto.
  - intros Hex. destruct (done_event (store e)) eqn:Hd.
    { left. eapply reported_done; eauto. }
    destruct (Hhope Hex) as [|Hsome]; [discriminate|].
    apply Exists_exists in Hsome as (x & Hx & Hhx).
    apply list_elem_of_lookup in Hx as [i Hi].
    destruct (decide (i = j)) as [->|Hne].
    + assert (x = k) as -> by congruence.
      assert (cancel_requested k = false) as Hck.
      { destruct (cancel_requested k) eqn:Hck; [|reflexivity].
        pose proof (proj1 (Forall_lookup _ _) Hfl j k Hj Hck). congruence. }
      destruct (Hh' Hhx Hck eq_refl) as [Hdone|Hk']; [by left|].
      right. apply Exists_exists. exists k'. split; [|exact Hk'].
      apply list_elem_of_lookup. exists j.
      apply list_lookup_insert_eq. by eapply lookup_lt_Some.
    + right. apply Exists_exists. exists x. split; [|exact Hhx].
      apply list_elem_of_lookup. exists i. by rewrite list_lookup_insert_ne.
Qed.

(** The tasks when the polling loop is left: all done, or cancelled. *)
Lemma all_done_called_off (ks : list (kid Resolver unit)) :
  existsb negb (map kid_done ks) = false -> Forall called_off ks.
Proof.
  induction ks as [|k ks IH]; simpl; [constructor|].
  intros H. apply orb_false_iff in H as [Hk Hks].
  constructor; [left; by destruct (kid_done k) | by apply IH].
Qed.

Lemma cancel_called_off (ks : list (kid Resolver unit)) :
  Forall called_off (map request_cancel ks).
Proof.
  apply Forall_fmap, Forall_forall. intros k _. unfold called_off, request_cancel.
  simpl. destruct (kid_done k) eqn:Hd; [by left | by right].
Qed.

(** The steps of the probes keep the invariant. *)
Lemma race_step_kid t j e :
  race_state t e ->
  race_state (step_kid_of remote t j e).1 (step_kid_of remote t j e).2.
Proof.
  intros [e0 Hs Htr|user ts e0 Hhit Hs Htr|ks e0 Hmiss Hks Hst|ks e0 Hmiss Hks Hst Hoff
          |r ks e0 Hmiss Hks Hdone Hf Hr Hhope];
    unfold step_kid_of; cbn [kids main base].
  - rewrite lookup_nil. by constructor.
  - rewrite lookup_nil. by econstructor.
  - destruct (ks !! j) as [k|] eqn:Hj; [|by constructor].
    destruct (race_store_step ks j k e0 Hks Hst Hj) as [Hks' Hst'].
    destruct (step_kid remote k e0) as [k' e']. by constructor.
  - destruct (ks !! j) as [k|] eqn:Hj; [|by constructor].
    destruct (race_store_step ks j k e0 Hks Hst Hj) as [Hks' Hst'].
    destruct (Forall2_lookup_r _ _ _ _ _ Hks Hj) as (g & _ & Hp).
    destruct (probe_called_off remote uid per_limit g k e0 Hp
                (Forall_lookup_1 _ _ _ _ Hoff Hj)) as [Hd' _].
    destruct (step_kid remote k e0) as [k' e']. constructor; try assumption.
    apply Forall_insert; [exact Hoff | by left].
  - destruct (ks !! j) as [k|] eqn:Hj; [|by constructor].
    rewrite step_kid_done by (eapply (proj1 (Forall_lookup _ _) Hdone); eauto).
    cbn [fst snd]. rewrite list_insert_id by exact Hj. by constructor.
Qed.

(** The steps of the resolver keep the invariant. *)
Lemma race_step_main t e :
  race_state t e ->
  race_state (step_main remote t e).1 (step_main remote t e).2.
Proof.
  intros [e0 Hs Htr|user ts e0 Hhit Hs Htr|ks e0 Hmiss Hks Hst|ks e0 Hmiss Hks Hst Hoff
          |r ks e0 Hmiss Hks Hdone Hf Hr Hhope];
    unfold step_main; cbn [kids main base].
  - (* the call starts: the entity cache is looked up *)
    unfold _resolve_user_across_groups_by_id. cbn [cadvance]. rewrite Hs.
    destruct (entities (cache s0) !! pretty uid) as [[user ts]|] eqn:Hlook.
    + unfold cache_valid, CACHE_DURATION. cbn. by econstructor.
    + unfold race. cbn [cadvance app length store]. rewrite drop_0, ?Hs.
      destruct (race_pending (fresh_probe_state s0) (map kid_done probes)) eqn:Hcond.
      * cbn [fst snd]. constructor; [exact Hlook | apply probes_new | apply race_store_fresh].
      * unfold race_finally. cbn.
        constructor; [exact Hlook | apply probes_new | apply race_store_fresh |].
        apply andb_false_iff in Hcond as [Hcond|Hcond]; [discriminate|].
        by apply all_done_called_off.
  - by econstructor.
  - (* the polling loop wakes up *)
    cbn [cresume cadvance]. rewrite drop_0.
    destruct (race_pending (store e0) (map kid_done ks)) eqn:Hcond.
    + by constructor.
    + unfold race_finally. cbn [cadvance].
      destruct (done_event (store e0)) eqn:Hd.
      * cbn [cadvance]. rewrite take_0, drop_0. cbn [app fst snd].
        constructor;
          [exact Hmiss | by apply probes_cancel | by apply race_store_cancel
          | apply cancel_called_off].
      * cbn. constructor; try assumption.
        unfold race_pending in Hcond. rewrite Hd in Hcond.
        by apply all_done_called_off.
  - (* the gather *)
    cbn [cresume]. rewrite drop_0.
    destruct (join_results ks) as [os|] eqn:Hjoin; [|by constructor].
    pose proof (join_results_done ks os Hjoin) as Hdone.
    destruct Hst as (Hc & Hsem & Hu & He & Hfl & Hhope).
    unfold race_result. cbn [cadvance].
    destruct (found_user (store e0)) as [user|] eqn:Hfound.
    + cbn. apply race_returned; try assumption.
      * split; [by apply Hu|]. eexists. cbn [store remember cache]. by rewrite Hc.
      * discriminate.
    + cbn. assert (done_event (store e0) = false) as Hd.
      { destruct (done_event (store e0)); [|reflexivity].
        destruct (proj1 He eq_refl) as [? ?]. discriminate. }
      apply race_returned; try assumption.
      * by split.
      * intros Hex _. destruct (Hhope Hex) as [|Hsome]; [congruence|].
        apply Exists_exists in Hsome as (k & Hk & Hhk).
        rewrite Forall_forall in Hdone. specialize (Hdone k Hk).
        unfold kid_done, hopeful in *. by destruct (kid_state k).
  - by constructor.
Qed.

(** The invariant holds after every schedule. *)
Lemma race_run sched :
  exists t e,
    run remote sched
      (boot s0 [_resolve_user_across_groups_by_id scopes uid per_group_limit])
    = mkSys e [t]
    /\ race_state t e.
Proof.
  apply (run_single_thread remote race_state race_step_main race_step_kid).
  by constructor.
Qed.

End RaceFacts.

Lemma slots_held_cons {St A} (k : kid St A) ks :
  slots_held (k :: ks) = ((if holds_slot k then 1 else 0) + slots_held ks)%nat.
Proof.
  unfold slots_held. rewrite filter_cons.
  destruct (decide (holds_slot k = true)) as [->|Hn]; [reflexivity|].
  by destruct (holds_slot k).
Qed.

Section RaceCompletes.
Variable remote : nat -> request -> response.
Variables (uid : Z) (per_limit : nat).

Local Abbreviation probe_state := (probe_state uid per_limit).

(** A probe that runs alone from its start finishes when a slot is free,
    and leaves as many slots free as it found. *)
Lemma run_task_probe g e :
  semaphore (store (run_task remote (probe_group uid per_limit g) e).2)
  = semaphore (store e)
  /\ ((run_task remote (probe_group uid per_limit g) e).1
        = KWait (probe_group uid per_limit g)
      /\ semaphore (store e) = 0%nat
      \/ exists o, (run_task remote (probe_group uid per_limit g) e).1 = KDone o).
Proof.
  unfold probe_group, async_with. cbn [run_task]. unfold sem_acquire.
  destruct (semaphore (store e)) as [|n] eqn:Hsem.
  - cbn. auto.
  - destruct (run_task_holder remote uid per_limit g
                (finally (probe_body uid per_limit g) sem_release)
                (mkEnv (mkResolver (cache (store e)) (found_user (store e))
                          (done_event (store e)) n) (now e) (trace e))
                (probe_body_holder uid per_limit g)) as (o & e' & -> & Hs).
    cbn in *. eauto.
Qed.

Lemma finish_kid_probe g k e :
  probe_state g k ->
  let r := finish_kid remote k e in
  probe_state g r.1
  /\ holds_slot r.1 = false
  /\ (semaphore (store r.2)
      = semaphore (store e) + (if holds_slot k then 1 else 0))%nat
  /\ (holds_slot k = true \/ (1 <= semaphore (store e))%nat -> kid_done r.1 = true).
Proof.
  assert (forall b, b = false ->
            let r := run_task remote (probe_group uid per_limit g) e in
            probe_state g (mkKid r.1 b)
            /\ holds_slot (mkKid r.1 b) = false
            /\ (semaphore (store r.2) = semaphore (store e) + 0)%nat
            /\ (false = true \/ (1 <= semaphore (store e))%nat ->
                kid_done (mkKid r.1 b) = true)) as Henter.
  { intros b _. destruct (run_task_probe g e) as [Hs [[Hq H0]|[o Ho]]].
    - cbn zeta. rewrite Hq. repeat split; [constructor | lia | ].
      intros [|]; [discriminate | lia].
    - cbn zeta. rewrite Ho. repeat split; [constructor | lia]. }
  intros [b|b|q k' b Hh|o b]; unfold finish_kid; cbn [kid_state cancel_requested].
  - destruct b.
    + cbn. repeat split; [constructor | lia].
    + specialize (Henter false eq_refl).
      destruct (run_task remote (probe_group uid per_limit g) e) as [st e'].
      exact Henter.
  - destruct b.
    + cbn. repeat split; [constructor | lia].
    + specialize (Henter false eq_refl).
      change (match probe_group uid per_limit g with
              | Await q k' =>
                  if false then run_task remote (k' Cancelled) e
                  else run_task remote (k' (Answer (remote (now e) q)))
                         (mkEnv (store e) (S (now e)) (trace e))
              | Acquire g0 k' =>
                  if false then run_task remote (k' false) e
                  else run_task remote (probe_group uid per_limit g) e
              | _ => run_task remote (probe_group uid per_limit g) e
              end) with (run_task remote (probe_group uid per_limit g) e).
      destruct (run_task remote (probe_group uid per_limit g) e) as [st e'].
      exact Henter.
  - inversion Hh as [| |q0 k0 Hq Hcancel Hk| | |]; subst.
    destruct b.
    + destruct (run_task_holder remote uid per_limit g (k' Cancelled) e (Hk _))
        as (o & e' & -> & Hs).
      cbn. repeat split; [constructor | lia].
    + destruct (run_task_holder remote uid per_limit g (k' (Answer (remote (now e) q)))
                  (mkEnv (store e) (S (now e)) (trace e)) (Hk _))
        as (o & e' & -> & Hs).
      cbn in *. repeat split; [constructor | lia].
  - cbn. repeat split; [constructor | lia].
Qed.

Lemma finish_kids_probes gs ks e :
  Forall2 probe_state gs ks ->
  let r := finish_kids remote ks e in
  Forall2 probe_state gs r.1
  /\ Forall (fun k => holds_slot k = false) r.1
  /\ (semaphore (store r.2) = semaphore (store e) + slots_held ks)%nat
  /\ (Forall (fun k => holds_slot k = false) ks -> (1 <= semaphore (store e))%nat ->
      Forall (fun k => kid_done k = true) r.1).
Proof.
  intros H. revert e. induction H as [|g k gs ks Hk H IH]; intros e.
  - cbn. split; [constructor|]. split; [constructor|]. split; [lia|]. constructor.
  - cbn [finish_kids].
    destruct (finish_kid_probe g k e Hk) as (Hp1 & Hh1 & Hs1 & Hd1).
    destruct (finish_kid remote k e) as [k1 e1]. cbn [fst snd] in *.
    destruct (IH e1) as (Hp2 & Hh2 & Hs2 & Hd2).
    destruct (finish_kids remote ks e1) as [ks1 e2]. cbn [fst snd] in *.
    split; [by constructor|]. split; [by constructor|]. split.
    + rewrite slots_held_cons. lia.
    + intros Hnone Hsem. apply Forall_cons in Hnone as [Hn1 Hn2].
      rewrite Hn1 in Hs1. constructor; [apply Hd1; auto|].
      apply Hd2; [exact Hn2 | lia].
Qed.

Lemma join_results_all_done {St A} (ks : list (kid St A)) :
  Forall (fun k => kid_done k = true) ks -> exists os, join_results ks = Some os.
Proof.
  induction 1 as [|k ks Hk H [os IH]]; simpl; [eauto|].
  unfold kid_done in Hk. destruct (kid_state k); try discriminate.
  rewrite IH. eauto.
Qed.

Lemma race_pending_all_done s (ks : list (kid Resolver unit)) :
  Forall (fun k => kid_done k = true) ks -> race_pending s (map kid_done ks) = false.
Proof.
  intros H. unfold race_pending.
  assert (existsb negb (map kid_done ks) = false) as ->; [|apply andb_false_r].
  induction H as [|k ks Hk H IH]; [reflexivity|]. simpl. by rewrite Hk, IH.
Qed.

Local Abbreviation returns_some r :=
  (exists found, main r.1 = MDone (Returned (found : option Entity))).

(** The [gather] ends, and the resolver returns, once no probe holds a slot
    that another waits for. *)
Lemma complete_join gs ks e :
  Forall2 probe_state gs ks ->
  Forall (fun k => holds_slot k = false) ks ->
  (1 <= semaphore (store e))%nat ->
  returns_some (complete remote (JoinAll (race_result uid)) e ks 0).
Proof.
  intros Hks Hnone Hsem. cbn [complete].
  destruct (finish_kids_probes gs ks e Hks) as (_ & _ & _ & Hdone).
  destruct (finish_kids remote ks e) as [ks' e']. cbn [fst snd] in *.
  rewrite drop_0.
  destruct (join_results_all_done ks' (Hdone Hnone Hsem)) as [os ->].
  unfold race_result. cbn [complete].
  destruct (found_user (store e')); cbn; eauto.
Qed.

Lemma complete_finally gs ks e :
  Forall2 probe_state gs ks ->
  Forall (fun k => holds_slot k = false) ks ->
  (1 <= semaphore (store e))%nat ->
  returns_some (complete remote (race_finally uid) e ks 0).
Proof.
  intros Hks Hnone Hsem. unfold race_finally. cbn [complete].
  destruct (done_event (store e)); [|by eapply complete_join].
  cbn [complete]. rewrite take_0, drop_0. cbn [app].
  eapply complete_join; [| |exact Hsem].
  - apply Forall2_fmap_r. eapply Forall2_impl; [exact Hks|].
    intros g k []; unfold request_cancel; cbn; constructor; assumption.
  - apply Forall_fmap. eapply Forall_impl; [exact Hnone|].
    intros k Hk. cbn. by rewrite holds_slot_request_cancel.
Qed.

Lemma complete_poll gs ks e :
  Forall2 probe_state gs ks ->
  Forall (fun k => holds_slot k = false) ks ->
  (1 <= semaphore (store e))%nat ->
  returns_some (complete remote (PollWhile race_pending (race_finally uid)) e ks 0).
Proof.
  intros Hks Hnone Hsem. cbn [complete]. rewrite drop_0.
  destruct (race_pending (store e) (map kid_done ks)); [|by eapply complete_finally].
  destruct (finish_kids_probes gs ks e Hks) as (Hks' & Hnone' & Hsem' & Hdone).
  destruct (finish_kids remote ks e) as [ks' e']. cbn [fst snd] in *.
  rewrite drop_0, race_pending_all_done by auto.
  eapply complete_finally; [exact Hks' | exact Hnone' | lia].
Qed.

End RaceCompletes.

(** A thread that has returned and whose tasks are done does nothing
    more. *)
Lemma idle_step {St A R} remote ch (t : thread St A R) e o :
  main t = MDone o -> Forall (fun k => kid_done k = true) (kids t) ->
  step remote ch (mkSys e [t]) = mkSys e [t].
Proof.
  intros Hm Hks. destruct ch as [[|i]|[|i] j]; cbn; try reflexivity.
  - unfold step_main. by rewrite Hm.
  - unfold step_kid_of. destruct (kids t !! j) as [k|] eqn:Hj; [|reflexivity].
    rewrite step_kid_done by (eapply (proj1 (Forall_lookup _ _) Hks); eauto).
    rewrite list_insert_id by exact Hj. by destruct t.
Qed.

Lemma idle_run {St A R} remote sched (t : thread St A R) e o :
  main t = MDone o -> Forall (fun k => kid_done k = true) (kids t) ->
  run remote sched (mkSys e [t]) = mkSys e [t].
Proof.
  intros Hm Hks. induction sched as [|ch sched IH]; [reflexivity|].
  rewrite run_cons. erewrite idle_step; eauto.
Qed.

Lemma cadvance_not_new {St A R} (c : coro St A R) e ks b c' :
  main (cadvance c e ks b).1 <> MNew c'.
Proof.
  revert e ks b.
  induction c as [r|x|q k IH|k IH|f c IH|g c IH|m c IH|k IH|cs c IH|cond c IH|c IH|k];
    intros e ks b; cbn; try discriminate; auto.
  - destruct (g (store e)); [auto | discriminate].
  - destruct (cond (store e) (map kid_done (drop b ks))); [discriminate | auto].
Qed.

Lemma step_main_not_new {St A R} remote (t : thread St A R) e c' :
  main (step_main remote t e).1 <> MNew c'.
Proof.
  unfold step_main. destruct (main t) as [c|c|o] eqn:Hm.
  - apply cadvance_not_new.
  - destruct c; cbn [cresume]; try apply cadvance_not_new.
    destruct (join_results (drop (base t) (kids t))); [apply cadvance_not_new|].
    discriminate.
  - cbn. rewrite Hm. discriminate.
Qed.

Section RaceRuns.
Variable remote : nat -> request -> response.
Variable scopes : list Scope.
Variable uid : Z.
Variable per_group_limit : option nat.
Variable s0 : Resolver.

Local Abbreviation race_state := (race_state remote scopes uid per_group_limit s0).
Local Abbreviation start :=
  (boot s0 [_resolve_user_across_groups_by_id scopes uid per_group_limit]).

(** From every state of the call some schedule leads to its return: the
    probes are run to their end one after the other, twice over (a probe
    that waits for a slot gets one once the holders have finished). *)
Lemma race_state_live t e :
  race_state t e -> (forall c, main t <> MNew c) ->
  exists more r, result (run remote more (mkSys e [t])) 0 = Some (Returned r).
Proof.
  assert (forall (m : mstate Resolver unit (option Entity)) ks e,
            Forall2 (probe_state uid (scan_limit per_group_limit)) scopes ks ->
            race_store remote scopes uid per_group_limit s0 (store e) ks ->
            (forall ks' e',
               Forall2 (probe_state uid (scan_limit per_group_limit)) scopes ks' ->
               Forall (fun k => holds_slot k = false) ks' ->
               (1 <= semaphore (store e'))%nat ->
               exists r, main (finish_thread remote (mkThread m ks' 0) e').1
                         = MDone (Returned r)) ->
            exists more r,
              result (run remote more (mkSys e [mkThread m ks 0])) 0 = Some (Returned r))
    as Hphases.
  { intros m ks e0 Hks (_ & Hsem & _) Hfin.
    destruct (finish_kids_sound remote [mkThread m ks 0%nat] 0 m 0 ks e0) as [sA HA];
      [cbn; lia|].
    destruct (finish_kids_probes remote uid _ scopes ks e0 Hks) as (Hks' & Hnone & Hs & _).
    destruct (finish_kids remote ks e0) as [ksA eA]. cbn in HA. cbn [fst snd] in *.
    destruct (Hfin ksA eA Hks' Hnone) as [r Hr].
    { rewrite Hs, Hsem. unfold PARALLEL_LIMIT. lia. }
    destruct (finish_thread_sound remote [mkThread m ksA 0%nat] 0 _ eA eq_refl)
      as [sB HB].
    exists (sA ++ sB), r. rewrite run_app, HA, HB. unfold result. cbn. by rewrite Hr. }
  intros [e0 Hs Htr|user ts e0 Hhit Hs Htr|ks e0 Hmiss Hks Hst|ks e0 Hmiss Hks Hst
          |r ks e0 Hmiss Hks Hdone Hf Hr Hhope] Hnew.
  - destruct (Hnew _ eq_refl).
  - by exists [], (Some user).
  - apply Hphases; [exact Hks | exact Hst|]. intros ks' e' Hks' Hnone Hsem.
    apply (complete_poll remote uid _ scopes ks' e' Hks' Hnone Hsem).
  - apply Hphases; [exact Hks | exact Hst|]. intros ks' e' Hks' Hnone Hsem.
    apply (complete_join remote uid _ scopes ks' e' Hks' Hnone Hsem).
  - by exists [], r.
Qed.

(** Every schedule of the call can be continued to its return. *)
Lemma race_live sched :
  exists more r, result (run remote (sched ++ more) start) 0 = Some (Returned r).
Proof.
  destruct (race_run remote scopes uid per_group_limit s0 sched) as (t & e & Hrun & Hst).
  pose proof (race_step_main remote scopes uid per_group_limit s0 t e Hst) as Hst'.
  destruct (race_state_live _ _ Hst') as (more & r & Hres).
  { intros c. apply step_main_not_new. }
  exists (RunMain 0 :: more), r.
  rewrite run_app, Hrun, run_cons. cbn [step threads senv lookup list_lookup].
  destruct (step_main remote t e) as [t' e']. exact Hres.
Qed.

End RaceRuns.

Section RaceCancels.
Variable remote : nat -> request -> response.
Variable scopes : list Scope.
Variable uid : Z.
Variable per_group_limit : option nat.
Variable s0 : Resolver.

Local Abbreviation race_state := (race_state remote scopes uid per_group_limit s0).

(** When the resolver wakes up in its polling loop and finds the event set,
    it asks every probe that is not finished to cancel, and goes on to
    await them all. *)
Lemma race_wakes_up ks e :
  done_event (store e) = true ->
  run remote [RunMain 0]
    (mkSys e [mkThread (MWait (PollWhile race_pending (race_finally uid))) ks 0%nat])
  = mkSys e [mkThread (MWait (JoinAll (race_result uid))) (map request_cancel ks) 0%nat].
Proof.
  intros Hd. unfold run. cbn [foldl step threads senv lookup list_lookup].
  unfold step_main. cbn [main kids base cresume cadvance]. rewrite drop_0.
  unfold race_pending. rewrite Hd. cbn [negb andb].
  unfold race_finally. cbn [cadvance]. rewrite Hd. cbn [cadvance].
  rewrite take_0, drop_0. destruct e. reflexivity.
Qed.

(** Once the resolver has left its polling loop, Telegram is not called any
    more: a probe that is not finished has been asked to cancel, and ends
    at its next step. *)
Lemma race_joining_quiet more ks e :
  race_state (mkThread (MWait (JoinAll (race_result uid))) ks 0%nat) e ->
  trace (senv (run remote more
                 (mkSys e [mkThread (MWait (JoinAll (race_result uid))) ks 0%nat])))
  = trace e.
Proof.
  revert ks e. induction more as [|ch more IH]; intros ks e Hst; [reflexivity|].
  rewrite run_cons.
  destruct ch as [[|i]|[|i] j]; cbn [step threads senv lookup list_lookup];
    try (by apply IH).
  - pose proof (race_step_main remote scopes uid per_group_limit s0 _ e Hst) as Hst'.
    revert Hst'. unfold step_main. cbn [main kids base cresume]. rewrite drop_0.
    destruct (join_results ks) as [os|] eqn:Hj; [|intros _; by apply IH].
    pose proof (join_results_done ks os Hj) as Hdone.
    unfold race_result. cbn [cadvance].
    destruct (found_user (store e)) as [user|]; cbn [cadvance fst snd]; intros _.
    + cbn [insert list_insert]. erewrite idle_run; [reflexivity | reflexivity | exact Hdone].
    + cbn [insert list_insert]. erewrite idle_run; [reflexivity | reflexivity | exact Hdone].
  - pose proof (race_step_kid remote scopes uid per_group_limit s0 _ j e Hst) as Hst'.
    revert Hst'. unfold step_kid_of. cbn [main kids base].
    destruct (ks !! j) as [k|] eqn:Hk; [|intros _; by apply IH].
    inversion Hst as [| | |ks' e' Hmiss Hks Hstore Hoff|]; subst.
    destruct (Forall2_lookup_r _ _ _ _ _ Hks Hk) as (g & _ & Hp).
    destruct (probe_called_off remote uid _ g k e Hp (Forall_lookup_1 _ _ _ _ Hoff Hk))
      as [_ Htr].
    destruct (step_kid remote k e) as [k' e1]. cbn [fst snd] in *.
    intros Hst'. cbn [insert list_insert]. rewrite (IH _ _ Hst'). exact Htr.
Qed.

End RaceCancels.


Section ContainsFacts.
Variable remote : nat -> request -> response.
Variables (uid : Z) (per_limit : nat).

(** The scan finds a target that the iteration yields. *)
Lemma scan_finder g h pos u fuel pos0 :
  ent_id u = uid ->
  (forall n, remote n (IterParticipantsNext (scope_id g) per_limit pos) = REntity u) ->
  (forall n i, (i < pos)%nat ->
     match remote n (IterParticipantsNext (scope_id g) per_limit i) with
     | RStop | RError _ => False
     | _ => True
     end) ->
  (pos0 <= pos)%nat -> (pos < pos0 + fuel)%nat ->
  finder remote
    (finally (try_except (scan_participants uid per_limit (scope_id g) fuel pos0) h)
       sem_release).
Proof.
  intros Hu Hat Hbefore. revert pos0.
  induction fuel as [|fuel IH]; intros pos0 Hle Hlt; [lia|].
  simpl. apply finder_await. intros n.
  destruct (decide (pos0 = pos)) as [->|Hne].
  - rewrite Hat. simpl. rewrite Hu, Z.eqb_refl. simpl. by apply finder_report.
  - specialize (Hbefore n pos0 ltac:(lia)).
    destruct (remote n (IterParticipantsNext (scope_id g) per_limit pos0))
      as [|p| | | |msg]; simpl; try done; try (apply IH; lia).
    destruct (ent_id p =? uid); simpl; [by apply finder_report | apply IH; lia].
Qed.

(** The probe of a scope that contains the target is a finder. *)
Lemma contains_finder g :
  contains remote uid per_limit g -> finder remote (probe_group uid per_limit g).
Proof.
  intros Hc. unfold probe_group, async_with. apply finder_acquire.
  unfold probe_body. simpl. apply finder_get. intros s ->.
  unfold exact_lookup, USE_GET_PARTICIPANT_FIRST. simpl.
  apply finder_await. intros n.
  destruct Hc as [Hans|(pos & u & Hpos & Hu & Hat & Hbefore)].
  - destruct (Hans n) as (p & u & -> & Hfind). simpl. rewrite Hfind. simpl.
    by apply finder_report.
  - assert (finder remote
              (finally
                 (Get (fun s =>
                    if done_event s then Ret tt
                    else try_except
                           (scan_participants uid per_limit (scope_id g) per_limit 0)
                           (fun _ => Log ("[AdvancedBan] Scan group " +:+ scope_title g
                                          +:+ " error") (Ret tt))))
                 sem_release)) as Hscan.
    { simpl. apply finder_get. intros s' ->.
      apply (scan_finder g _ pos u); auto; lia. }
    destruct (remote n (GetParticipantRequest (scope_id g) uid)) as [| | |p| |msg];
      simpl; try exact Hscan.
    destruct (find (fun u0 => ent_id u0 =? uid) (users p)); simpl;
      [by apply finder_report | exact Hscan].
Qed.

End ContainsFacts.

(** C10: for every list of scopes, target, state of the caches and
    behaviour of Telegram, and after every schedule: the resolver returns
    (some continuation of the schedule reaches the return) and never raises;
    when it returns [None] the entity cache, and the whole of [_CACHE], is
    as it was before the call; and the entity cache differs from what it was
    only once the resolver has returned an identity that a probe had put
    into [found_user], by the entry of this identity under [str(uid)]. *)
Theorem not_found_leaves_the_entity_cache remote (scopes : list Scope) (uid : Z)
    (per_group_limit : option nat) (s0 : Resolver) (sched : list choice) :
  let start := boot s0 [_resolve_user_across_groups_by_id scopes uid per_group_limit] in
  let σ := run remote sched start in
  (exists more r, result (run remote (sched ++ more) start) 0 = Some (Returned r))
  /\ (forall o, result σ 0 = Some o -> exists r, o = Returned r)
  /\ (result σ 0 = Some (Returned None) ->
      entities (cache (store (senv σ))) = entities (cache s0)
      /\ cache (store (senv σ)) = cache s0)
  /\ (entities (cache (store (senv σ))) <> entities (cache s0) ->
      exists u t, result σ 0 = Some (Returned (Some u))
                  /\ found_user (store (senv σ)) = Some u
                  /\ entities (cache (store (senv σ)))
                     = <[pretty uid := (u, t)]> (entities (cache s0))).
Proof.
  intros start σ. subst σ start.
  split; [apply race_live|].
  destruct (race_run remote scopes uid per_group_limit s0 sched) as (t & e & -> & Hst).
  unfold result. cbn [threads senv lookup list_lookup].
  destruct Hst as [e Hs Htr|user ts e Hhit Hs Htr|ks e Hmiss Hks Hst|ks e Hmiss Hks Hst
                   |r ks e Hmiss Hks Hdone Hf Hr Hhope]; cbn [main].
  - rewrite Hs. repeat split; try discriminate; done.
  - rewrite Hs. repeat split; try discriminate; try done.
    intros o [= <-]. eauto.
  - destruct Hst as (Hc & _). rewrite Hc. repeat split; try discriminate; done.
  - destruct Hst as (Hc & _). rewrite Hc. repeat split; try discriminate; done.
  - split; [intros o [= <-]; eauto|]. destruct r as [u|].
    + split; [discriminate|]. intros _. destruct Hr as (_ & t & Ht).
      exists u, t. split; [reflexivity|]. split; [exact Hf|]. by rewrite Ht.
    + destruct Hr as [Hc _]. rewrite Hc. split; [done|]. intros Hne. by destruct Hne.
Qed.

(** The resolver when no group has the target among its members: it
    returns [None], and nothing is cached. *)
Example resolver_finds_nobody :
  let σ := run race_remote (interleaved 1 3 7)
             (boot resolver_cold
                [_resolve_user_across_groups_by_id race_scopes 555 (Some 3%nat)]) in
  result σ 0 = Some (Returned None)
  /\ entities (cache (store (senv σ))) = ∅.
Proof. vm_compute. split; reflexivity. Qed.


(** Of the three groups of [race_scopes], group 1 contains the target and
    the two others do not. *)
Lemma race_scopes_one_contains :
  contains race_remote 777 2000 (mkScope 1 "group 1")
  /\ lacks race_remote 777 2000 (mkScope 2 "group 2")
  /\ lacks race_remote 777 2000 (mkScope 3 "group 3").
Proof.
  split; [|split].
  - left. intros n. exists (mkParticipant None None [target_user]), target_user.
    split; reflexivity.
  - split.
    + intros n p H. discriminate H.
    + intros n pos u H. cbn in H. injection H as <-. cbn. lia.
  - split.
    + intros n p H. discriminate H.
    + intros n pos u H. discriminate H.
Qed.


(** The run of this race to its end: the member found in group 1 is
    returned and cached under the key "777"; all three probes are done. *)
Example race_over_three_groups :
  let σ := run race_remote (until_the_match ++ after_the_match)
             (boot resolver_cold
                [_resolve_user_across_groups_by_id race_scopes 777 None]) in
  result σ 0 = Some (Returned (Some target_user))
  /\ entities (cache (store (senv σ))) !! "777" = Some (target_user, 3)
  /\ map (fun t => map kid_done (kids t)) (threads σ) = [[true; true; true]].
Proof. vm_compute. repeat split; reflexivity. Qed.

(** The same call once the identity is cached: it is returned at the first
    step, without a remote call. *)
Example race_on_a_cached_identity :
  let warm :=
    mkResolver (mkCache (mkGroupsCache 0 [] false) ∅ {["777" := (target_user, 3)]})
      None false 0 in
  let σ := run race_remote [RunMain 0]
             (boot warm [_resolve_user_across_groups_by_id race_scopes 777 None]) in
  result σ 0 = Some (Returned (Some target_user))
  /\ trace (senv σ) = []
  /\ map (fun t => length (kids t)) (threads σ) = [0%nat].
Proof. vm_compute. repeat split; reflexivity. Qed.

(** The same race, at the wake-up of the resolver after the match: the
    probe of group 1 has finished; the probe of group 2, which is listing
    members, and the probe of group 3, which has not started, are asked to
    cancel; they end with [CancelledError] at their next step, and Telegram
    is not called any more. *)
Example race_cancels_at_the_wake_up :
  let start :=
    boot resolver_cold [_resolve_user_across_groups_by_id race_scopes 777 None] in
  let woken := run race_remote (until_the_match ++ [RunKid 0 1; RunMain 0]) start in
  let at_the_end := run race_remote (until_the_match ++ after_the_match) start in
  map (fun t => map (fun k => (kid_done k, cancel_requested k)) (kids t)) (threads woken)
  = [[(true, false); (false, true); (false, true)]]
  /\ map (fun t => map (fun k => match kid_state k with KDone o => Some o | _ => None end)
                     (kids t)) (threads at_the_end)
     = [[Some (Returned tt); Some (Raised CancelledError); Some (Raised CancelledError)]]
  /\ trace (senv at_the_end) = trace (senv woken).
Proof. vm_compute. repeat split; reflexivity. Qed.


(** ** The permission cache *)

Section PermissionFacts.
Context {A : Type}.
Variable remote : nat -> request -> response.

(** X1: [check_permissions] never raises.  What it returns is the verdict
    the cache then holds for the chat, unless the probe failed (one of the
    two calls raised, or its reply lacks what is read from it): then it
    returns [False] and leaves the caches as they were.  It calls Telegram
    only on a miss, starting with [get_me], and it touches neither the
    group cache, the entity cache, nor the verdict of another chat. *)
Theorem check_permissions_outcome (chat_id : Z) (e : env Cache)
    (ks : list (kid Cache A)) (b : nat) :
  let r := complete remote (check_permissions chat_id) e ks b in
  exists v,
    r.1 = mkThread (MDone (Returned v)) ks b
    /\ groups (store r.2) = groups (store e)
    /\ entities (store r.2) = entities (store e)
    /\ (forall chat', chat' <> chat_id ->
          permissions (store r.2) !! chat' = permissions (store e) !! chat')
    /\ ((exists ts, permissions (store r.2) !! chat_id = Some (v, ts))
        \/ (v = false /\ store r.2 = store e /\ permissions (store e) !! chat_id = None))
    /\ (is_Some (permissions (store e) !! chat_id) -> r.2 = e)
    /\ (permissions (store e) !! chat_id = None ->
        (exists evs, trace r.2 = trace e ++ Request GetMe :: evs
                     /\ (length evs <= 1)%nat)
        /\ (v = true ->
            exists me p rights,
              remote (now e) GetMe = REntity me
              /\ remote (S (now e)) (GetParticipantRequest chat_id (ent_id me))
                 = RParticipant p
              /\ admin_rights p = Some rights /\ ban_users rights = true)).
Proof.
  intros r. subst r. unfold check_permissions. cbn [ctry_except complete].
  assert (forall tr (q : request),
            exists evs, (tr ++ [Request GetMe]) ++ [Request q]
                        = tr ++ Request GetMe :: evs /\ (length evs <= 1)%nat) as Htwo.
  { intros tr q. exists [Request q]. by rewrite <- app_assoc. }
  assert (forall tr : list event,
            exists evs, tr ++ [Request GetMe]
                        = tr ++ Request GetMe :: evs /\ (length evs <= 1)%nat) as Hone.
  { intros tr. exists []. split; [reflexivity | simpl; lia]. }
  destruct (permissions (store e) !! chat_id) as [[data ts]|] eqn:Hlook.
  - unfold cache_valid, CACHE_DURATION. cbn. exists data.
    split; [reflexivity|]. split; [reflexivity|]. split; [reflexivity|].
    split; [reflexivity|]. split; [eauto|]. split; [reflexivity | discriminate].
  - unfold permission_probe, cclient. cbn.
    destruct (remote (now e) GetMe) as [|me| | | |msg] eqn:Hme; cbn;
      try (exists false; cbn; rewrite ?Hlook;
           split; [reflexivity|]; split; [reflexivity|]; split; [reflexivity|];
           split; [reflexivity|]; split; [right; auto|]; split; [by intros [? ?]|];
           intros _; split; [apply Hone | discriminate]).
    destruct (remote (S (now e)) (GetParticipantRequest chat_id (ent_id me)))
      as [| | |p| |msg] eqn:Hp; cbn;
      try (exists false; cbn; rewrite ?Hlook;
           split; [reflexivity|]; split; [reflexivity|]; split; [reflexivity|];
           split; [reflexivity|]; split; [right; auto|]; split; [by intros [? ?]|];
           intros _; split; [apply Htwo | discriminate]).
    eexists. split; [reflexivity|]. cbn.
    split; [reflexivity|]. split; [reflexivity|]. split.
    { intros chat' Hne. by rewrite lookup_insert_ne. }
    split; [left; eexists; by rewrite lookup_insert_eq|].
    split; [by intros [? ?]|]. intros _. split; [apply Htwo|].
    intros Hv. destruct (admin_rights p) as [rights|] eqn:Hr; [|discriminate].
    exists me, p, rights. auto.
Qed.

(** X2: once a probe of [check_permissions] has gone through, every later
    call for the same chat returns the same verdict without calling Telegram
    and without changing anything, whatever the time and whatever Telegram
    would answer then: the verdict does not expire. *)
Theorem check_permissions_again (remote' : nat -> request -> response) (chat_id : Z)
    (e : env Cache) (ks ks' : list (kid Cache A)) (b b' : nat) (v : bool) :
  let r := complete remote (check_permissions chat_id) e ks b in
  main r.1 = MDone (Returned v) ->
  is_Some (permissions (store r.2) !! chat_id) ->
  forall e', store e' = store r.2 ->
    complete remote' (check_permissions chat_id) e' ks' b'
    = (mkThread (MDone (Returned v)) ks' b', e').
Proof.
  assert (forall (c : Cache) w ts e',
            permissions c !! chat_id = Some (w, ts) -> store e' = c ->
            complete remote' (check_permissions chat_id) e' ks' b'
            = (mkThread (MDone (Returned w)) ks' b', e')) as Hhit.
  { intros c w ts e' Hc He'. unfold check_permissions. cbn [ctry_except complete].
    rewrite He', Hc. unfold cache_valid, CACHE_DURATION. reflexivity. }
  intros r. subst r. unfold check_permissions. cbn [ctry_except complete].
  destruct (permissions (store e) !! chat_id) as [[data ts]|] eqn:Hlook.
  - unfold cache_valid, CACHE_DURATION. cbn. intros [= <-] _ e' He'.
    by eapply Hhit.
  - unfold permission_probe, cclient. cbn.
    destruct (remote (now e) GetMe) as [|me| | | |msg]; cbn;
      try (rewrite Hlook; by intros _ [? ?]).
    destruct (remote (S (now e)) (GetParticipantRequest chat_id (ent_id me)))
      as [| | |p| |msg]; cbn;
      try (rewrite Hlook; by intros _ [? ?]).
    intros [= <-] _ e' He'. eapply Hhit; [|exact He']. cbn. apply lookup_insert_eq.
Qed.

End PermissionFacts.

(** ** The arguments of a command *)

Section WordsFacts.
Context {C : Type}.
Variable isspace : C -> bool.

Local Abbreviation split_from := (split_from isspace).
Local Abbreviation str_split := (str_split isspace).
Local Abbreviation is_word := (is_word isspace).

Lemma rev_nonempty (word : list C) : nonempty word = true -> rev word <> [].
Proof.
  intros Hn Hr. apply (f_equal length) in Hr. rewrite length_rev in Hr.
  by destruct word.
Qed.

Lemma split_from_words word s :
  Forall (fun c => isspace c = false) word ->
  Forall is_word (split_from word s).
Proof.
  revert word. induction s as [|c s IH]; intros word Hw; cbn -[rev nonempty].
  - destruct (nonempty word) eqn:Hn; [|constructor].
    constructor; [|constructor]. split; [by apply rev_nonempty|].
    by apply List.Forall_rev.
  - destruct (isspace c) eqn:Hc.
    + destruct (nonempty word) eqn:Hn; [|by apply IH].
      constructor; [|by apply IH]. split; [by apply rev_nonempty|].
      by apply List.Forall_rev.
    + apply IH. by constructor.
Qed.

Lemma split_from_concat word s :
  concat (split_from word s) = rev word ++ filter (fun c => isspace c = false) s.
Proof.
  revert word. induction s as [|c s IH]; intros word; simpl.
  - destruct word as [|d word]; simpl; [reflexivity|]. by rewrite !app_nil_r.
  - rewrite filter_cons. destruct (isspace c) eqn:Hc.
    + destruct (decide (true = false)) as [|_]; [discriminate|].
      destruct word as [|d word]; simpl; [by rewrite IH|]. by rewrite IH.
    + destruct (decide (false = false)) as [_|]; [|done].
      rewrite IH. simpl. by rewrite <- app_assoc.
Qed.

Lemma split_from_blank word s :
  split_from word s = [] <-> word = [] /\ Forall (fun c => isspace c = true) s.
Proof.
  revert word. induction s as [|c s IH]; intros word; simpl.
  - destruct word; simpl; split; try done; by intros [? _].
  - destruct (isspace c) eqn:Hc.
    + destruct word as [|d word]; simpl.
      * rewrite IH. split; intros [? H]; split; auto.
        by apply Forall_cons in H as [_ H].
      * split; [done | by intros [? _]].
    + rewrite IH. split; [by intros [? _]|].
      intros [_ H]. apply Forall_cons in H as [H _]. congruence.
Qed.

(** Reading on through a word. *)
Lemma split_from_app word w s :
  Forall (fun c => isspace c = false) w ->
  split_from word (w ++ s) = split_from (rev w ++ word) s.
Proof.
  intros Hw. revert word. induction Hw as [|c w Hc Hw IH]; intros word; simpl; [done|].
  rewrite Hc, IH. by rewrite <- app_assoc.
Qed.

Lemma split_join space ws :
  isspace space = true -> Forall is_word ws ->
  str_split (str_join [space] ws) = ws.
Proof.
  intros Hsp Hws. unfold str_split.
  induction Hws as [|w ws [Hne Hw] Hws IH]; [reflexivity|].
  assert (nonempty (rev w) = true) as Hrev.
  { destruct (rev w) eqn:Hr; [|reflexivity].
    apply (f_equal length) in Hr. rewrite length_rev in Hr. by destruct w. }
  destruct ws as [|w' ws].
  - pose proof (split_from_app [] w [] Hw) as H. rewrite !app_nil_r in H.
    simpl. rewrite H. simpl. by rewrite Hrev, rev_involutive.
  - change (str_join [space] (w :: w' :: ws))
      with (w ++ space :: str_join [space] (w' :: ws)).
    rewrite split_from_app by exact Hw. simpl. rewrite Hsp, app_nil_r, Hrev.
    rewrite rev_involutive. f_equal. exact IH.
Qed.

End WordsFacts.

Lemma parse_args_words_aux {C} (isspace : C -> bool) (s : list C) :
  Forall (is_word isspace) (parse_args isspace (ParamStr s)).
Proof.
  unfold parse_args, str_split. destruct s as [|c s]; [constructor|].
  by apply split_from_words.
Qed.

(** X3: the arguments that [parse_args] reads from a string are its words:
    none is empty, none holds a whitespace character, put end to end they
    are the string without its whitespace, and there is none exactly when
    the string is made of whitespace only (the empty string included). *)
Theorem parse_args_words {C} (isspace : C -> bool) (s : list C) :
  let args := parse_args isspace (ParamStr s) in
  Forall (is_word isspace) args
  /\ concat args = filter (fun c => isspace c = false) s
  /\ (args = [] <-> Forall (fun c => isspace c = true) s).
Proof.
  intros args. subst args. unfold parse_args, str_split.
  destruct s as [|c s]; [by repeat split|].
  change (nonempty (c :: s)) with true. cbv iota.
  split; [by apply split_from_words|].
  split; [exact (split_from_concat isspace [] (c :: s))|].
  rewrite split_from_blank. split; [by intros [_ ?] | by split].
Qed.

(** X4: [parse_args] undoes [" ".join]: the words of a parameter, or those
    from any position on, joined by single spaces and read again, are the
    same words. *)
Theorem parse_args_join {C} (isspace : C -> bool) (space : C) (s : list C) (n : nat) :
  isspace space = true ->
  let args := parse_args isspace (ParamStr s) in
  parse_args isspace (ParamStr (str_join [space] (drop n args))) = drop n args.
Proof.
  intros Hsp args.
  assert (Forall (is_word isspace) (drop n args)) as Hws.
  { apply Forall_drop. apply (parse_args_words_aux isspace s). }
  unfold parse_args at 1.
  destruct (nonempty (str_join [space] (drop n args))) eqn:Hn.
  - by apply split_join.
  - destruct (drop n args) as [|w ws] eqn:Hd; [reflexivity|].
    apply Forall_cons in Hws as [[Hne _] _].
    destruct w as [|c w]; [done|]. destruct ws; discriminate.
Qed.

(** The arguments of a [mute] command, and its reason read again. *)
Lemma parse_args_join_witness :
  latin1_isspace Ascii.Space = true
  /\ parse_args latin1_isspace
       (ParamStr (str_join [Ascii.Space]
                    (drop 2 (parse_args latin1_isspace (ParamStr mute_parameter)))))
     = drop 2 (parse_args latin1_isspace (ParamStr mute_parameter)).
Proof.
  split; [reflexivity|].
  exact (parse_args_join latin1_isspace Ascii.Space mute_parameter 2 eq_refl).
Defined.

Example parse_args_of_a_mute :
  parse_args latin1_isspace (ParamStr mute_parameter)
  = map String.list_ascii_of_string ["@user"; "60"; "spam"; "and"; "ads"]
  /\ String.string_of_list_ascii
       (str_join [Ascii.Space]
          (drop 2 (parse_args latin1_isspace (ParamStr mute_parameter))))
     = "spam and ads".
Proof. split; reflexivity. Qed.

(** A probe of the permissions in group 1, and a second call when Telegram
    refuses everything: the verdict of the first is returned. *)
Lemma check_permissions_again_witness :
  let r := complete (A := unit) seven_remote (check_permissions 1) (mkEnv cold 0%nat [])
             [] 0%nat in
  main r.1 = MDone (Returned true)
  /\ is_Some (permissions (store r.2) !! 1)
  /\ complete (A := unit) flood_remote (check_permissions 1) r.2 [] 0%nat
     = (mkThread (MDone (Returned true)) [] 0%nat, r.2).
Proof.
  intros r.
  assert (main r.1 = MDone (Returned true)) as Hv by reflexivity.
  assert (is_Some (permissions (store r.2) !! 1)) as Hc
    by (eexists; vm_compute; reflexivity).
  split; [exact Hv|]. split; [exact Hc|].
  exact (check_permissions_again seven_remote flood_remote 1 (mkEnv cold 0%nat [])
           [] [] 0%nat 0%nat true Hv Hc r.2 eq_refl).
Defined.

(** ** What the executor reports, by what Telegram answers *)

Lemma asks_only_bind {St A B} (P : request -> Prop) (c : task St A) (f : A -> task St B) :
  asks_only P c -> (forall a, asks_only P (f a)) -> asks_only P (bind c f).
Proof. induction 1; intros Hf; simpl; auto; constructor; auto. Qed.

Lemma asks_only_try_except {St A} (P : request -> Prop) (c : task St A) h :
  asks_only P c -> (forall m, asks_only P (h m)) -> asks_only P (try_except c h).
Proof.
  induction 1 as [a|x|q k Hq Hk IH|m k Hk IH]; intros Hh; simpl;
    try (constructor; auto; fail).
  destruct x; [apply Hh | constructor].
Qed.

Lemma asks_only_client {St} (P : request -> Prop) q : P q -> asks_only P (@client St q).
Proof. intros Hq. constructor; [exact Hq|]. intros [[]|]; constructor. Qed.

Lemma asks_only_mono {St A} (P P' : request -> Prop) (c : task St A) :
  asks_only P c -> (forall q, P q -> P' q) -> asks_only P' c.
Proof. induction 1; intros HP; constructor; auto. Qed.

Lemma run_task_asks {St A} remote (P : request -> Prop) (c : task St A) e :
  asks_only P c ->
  exists evs, trace (run_task remote c e).2 = trace e ++ evs
              /\ Forall (event_asks P) evs.
Proof.
  intros H. revert e. induction H as [a|x|q k Hq Hk IH|m k Hk IH]; intros e; simpl.
  - exists []. by rewrite app_nil_r.
  - exists []. by rewrite app_nil_r.
  - destruct (IH (Answer (remote (now e) q))
                (mkEnv (store e) (S (now e)) (trace e ++ [Request q]))) as (evs & -> & Hevs).
    exists (Request q :: evs). simpl. rewrite <- app_assoc. split; [reflexivity|].
    by constructor.
  - destruct (IH (mkEnv (store e) (now e) (trace e ++ [Logged m]))) as (evs & -> & Hevs).
    exists (Logged m :: evs). simpl. rewrite <- app_assoc. split; [reflexivity|].
    by constructor.
Qed.

Lemma rights_changes_app tr evs :
  rights_changes (tr ++ evs) = (rights_changes tr + rights_changes evs)%nat.
Proof. unfold rights_changes. by rewrite filter_app, length_app. Qed.

Lemma rights_changes_none evs :
  Forall (event_asks (fun q => match q with EditBannedRequest _ _ _ => False | _ => True end))
    evs ->
  rights_changes evs = 0%nat.
Proof.
  unfold rights_changes. induction 1 as [|ev evs Hev H IH]; [reflexivity|].
  rewrite filter_cons. destruct ev as [[]|]; simpl in *; try done.
Qed.

Section VerdictFacts.
Context {St : Type}.
Variable remote : nat -> request -> response.

(** The purge changes no rights. *)
Lemma delete_history_asks chat uid :
  asks_only (fun q => match q with EditBannedRequest _ _ _ => False | _ => True end)
    (@delete_history St chat uid).
Proof.
  unfold delete_history, safe_get_entity.
  repeat first
    [ apply asks_only_try_except | apply asks_only_bind | by apply asks_only_client
    | intros [?|] | intros ? | constructor ].
Qed.

(** The first method, when Telegram accepts it. *)
Lemma ban_methods_accepted chat uid rights (e : env St) :
  accepts_direct remote chat uid rights ->
  run_task remote (ban_methods chat uid rights) e
  = (KDone (Returned true),
     mkEnv (store e) (S (now e))
       (trace e ++ [Request (EditBannedRequest chat (PeerId uid) rights)])).
Proof.
  intros Hacc. unfold ban_methods, client. simpl.
  specialize (Hacc (now e)).
  destruct (remote (now e) (EditBannedRequest chat (PeerId uid) rights)) as [| | | | |msg];
    try reflexivity.
  by destruct (Hacc msg).
Qed.

Lemma ban_methods_settles_accepted chat uid rights :
  accepts_direct remote chat uid rights ->
  settles remote (fun o => o = Returned true) (@ban_methods St chat uid rights).
Proof.
  intros Hacc. unfold ban_methods, client. simpl.
  apply settles_await. intros n. specialize (Hacc n).
  destruct (remote n (EditBannedRequest chat (PeerId uid) rights)) as [| | | | |msg];
    simpl; try (by constructor).
  by destruct (Hacc msg).
Qed.

Lemma safe_ban_action_settles_accepted chat uid rights :
  accepts_direct remote chat uid rights ->
  settles remote (fun o => o = Returned true) (@safe_ban_action St chat uid rights).
Proof.
  intros Hacc. unfold safe_ban_action.
  eapply settles_try_except with (Q1 := fun o => o = Returned true);
    [|auto|discriminate|discriminate].
  eapply settles_bind; [by apply ban_methods_settles_accepted| |discriminate].
  intros b [= ->].
  eapply settles_bind with (Q1 := returned_with (fun _ => True)).
  - apply returns_settles.
    destruct (view_messages rights); [apply delete_history_returns | constructor].
  - intros _ _. by constructor.
  - intros x [].
Qed.

(** X5: when Telegram accepts the rights change addressed by the bare id,
    [safe_ban_action] returns [True], whatever becomes of the purge that
    follows and whenever its calls are answered, and it has asked for one
    rights change only: no other method is tried. *)
Theorem safe_ban_action_accepted chat uid rights :
  accepts_direct remote chat uid rights ->
  settles remote (fun o => o = Returned true) (@safe_ban_action St chat uid rights)
  /\ forall e : env St,
       exists e',
         run_task remote (safe_ban_action chat uid rights) e = (KDone (Returned true), e')
         /\ rights_changes (trace e') = S (rights_changes (trace e)).
Proof.
  intros Hacc. split; [by apply safe_ban_action_settles_accepted|].
  - intros e. unfold safe_ban_action.
    pose proof (ban_methods_accepted chat uid rights e Hacc) as Hb.
    set (e0 := mkEnv (store e) (S (now e))
                 (trace e ++ [Request (EditBannedRequest chat (PeerId uid) rights)])) in *.
    assert (exists e1,
              run_task remote
                (if view_messages rights then delete_history chat uid else Ret tt) e0
              = (KDone (Returned tt), e1)
              /\ rights_changes (trace e1) = rights_changes (trace e0)) as (e1 & Hd & Hn).
    { destruct (view_messages rights); [|by exists e0].
      destruct (run_task_returns remote _ e0 (delete_history_returns chat uid))
        as ([] & e1 & Hd).
      exists e1. split; [exact Hd|].
      destruct (run_task_asks remote _ _ e0 (delete_history_asks chat uid))
        as (evs & Htr & Hevs).
      rewrite Hd in Htr. simpl in Htr.
      rewrite Htr, rights_changes_app, (rights_changes_none evs Hevs).
      unfold e0. simpl. lia. }
    exists e1. split.
    + apply run_task_try_except_returned.
      rewrite (run_task_bind _ _ _ _ _ _ Hb), (run_task_bind _ _ _ _ _ _ Hd). reflexivity.
    + rewrite Hn. unfold e0. cbn [trace]. rewrite rights_changes_app.
      change (rights_changes [Request (EditBannedRequest chat (PeerId uid) rights)])
        with 1%nat.
      lia.
Qed.

(** Methods 3 and 4 when every rights change is refused. *)
Lemma method3_refused chat uid rights :
  refuses_all remote chat rights ->
  settles remote (fun o => o = Returned false) (@method3 St chat uid rights).
Proof.
  intros Href. unfold method3, client, reply_participant. simpl.
  apply settles_await. intros n.
  destruct (remote n (GetParticipantRequest chat uid)) as [| | |p| |msg]; simpl;
    try (by repeat constructor).
  destruct (peer_channel_id p) as [ch|]; simpl; [|by constructor].
  apply settles_await. intros n'. destruct (Href n' (PeerId ch)) as [msg ->]. simpl.
  by repeat constructor.
Qed.

Lemma method4_refused chat uid rights :
  refuses_all remote chat rights ->
  settles remote (fun o => o = Returned false) (@method4 St chat uid rights).
Proof.
  intros Href. unfold method4, safe_get_entity, client. simpl.
  apply settles_await. intros n.
  assert (forall ent : Entity,
            settles remote (fun o => o = Returned false)
              (try_except
                 (match ent_access_hash ent with
                  | Some h =>
                      if h =? 0 then Ret false
                      else
                        bind (Await (St := St)
                                (EditBannedRequest chat
                                   (if ent_broadcast ent then InputPeerChannel uid h
                                    else InputPeerUser uid h) rights)
                                (fun r => match r with
                                          | Cancelled => Throw CancelledError
                                          | Answer (RError msg) => Throw (Error msg)
                                          | Answer v => Ret v
                                          end))
                          (fun _ => Ret true)
                  | None => Ret false
                  end)
                 (fun _ => Log "[AdvancedBan] Method 4 (InputPeer) failed" (Ret false))))
    as Hent.
  { intros ent. destruct (ent_access_hash ent) as [h|]; simpl; [|by constructor].
    destruct (h =? 0); simpl; [by constructor|].
    apply settles_await. intros n'.
    destruct (Href n' (if ent_broadcast ent then InputPeerChannel uid h
                       else InputPeerUser uid h)) as [msg ->]. simpl.
    by repeat constructor. }
  destruct (remote n (GetEntity (TargetId uid))) as [|ent| | | |msg]; simpl;
    try (by repeat constructor); try apply Hent.
Qed.

Lemma safe_ban_action_settles_refused chat uid rights :
  refuses_all remote chat rights ->
  settles remote (fun o => o = Returned false) (@safe_ban_action St chat uid rights).
Proof.
  intros Href.
  assert (settles remote (fun o => o = Returned false) (@ban_methods St chat uid rights))
    as Hban.
  { unfold ban_methods.
    eapply settles_try_except with (Q1 := fun o => exists m, o = Raised (Error m)).
    - unfold client. simpl. apply settles_await. intros n.
      destruct (Href n (PeerId uid)) as [msg ->]. simpl. constructor. eauto.
    - by intros a [m ?].
    - intros m _. apply settles_log.
      eapply settles_try_except
        with (Q1 := fun o => o = Returned false \/ exists m, o = Raised (Error m)).
      + unfold safe_get_entity, client. simpl. apply settles_await. intros n.
        destruct (remote n (GetEntity (TargetId uid))) as [|ent| | | |msg]; simpl;
          try (constructor; by left).
        * apply settles_await. intros n'.
          destruct (Href n' (PeerEntity ent)) as [msg ->]. simpl. constructor. eauto.
        * apply settles_log. constructor. by left.
      + intros a [Ha|[m' ?]]; [exact Ha | done].
      + intros m' _. apply settles_log.
        eapply settles_bind; [by apply method3_refused| |discriminate].
        intros b [= ->]. simpl. by apply method4_refused.
      + intros [?|[m' ?]]; done.
    - by intros [m ?]. }
  unfold safe_ban_action.
  eapply settles_try_except with (Q1 := fun o => o = Returned false);
    [|auto|discriminate|discriminate].
  eapply settles_bind; [exact Hban| |discriminate].
  intros b [= ->].
  eapply settles_bind with (Q1 := returned_with (fun _ => True)).
  - apply returns_settles.
    destruct (view_messages rights); [apply delete_history_returns | constructor].
  - intros _ _. by constructor.
  - intros x [].
Qed.

(** X6: when Telegram refuses every rights change in the chat,
    [safe_ban_action] returns [False]: it reports no success that Telegram
    has not granted, whatever the other calls are answered and whenever. *)
Theorem safe_ban_action_refused chat uid rights :
  refuses_all remote chat rights ->
  settles remote (fun o => o = Returned false) (@safe_ban_action St chat uid rights)
  /\ forall e : env St,
       exists e', run_task remote (safe_ban_action chat uid rights) e
                  = (KDone (Returned false), e').
Proof.
  intros Href.
  pose proof (safe_ban_action_settles_refused chat uid rights Href) as Hsettles.
  split; [exact Hsettles|]. intros e.
  destruct (run_task_settles remote _ _ e Hsettles) as (o & e' & Hrun & ->). eauto.
Qed.

End VerdictFacts.

(** Group 1 of the fleet accepts the ban. *)
Lemma safe_ban_action_accepted_witness :
  accepts_direct fleet_remote 1 42 ban_rights
  /\ settles fleet_remote (fun o => o = Returned true)
       (@safe_ban_action unit 1 42 ban_rights)
  /\ forall e : env unit,
       exists e',
         run_task fleet_remote (safe_ban_action 1 42 ban_rights) e
         = (KDone (Returned true), e')
         /\ rights_changes (trace e') = S (rights_changes (trace e)).
Proof.
  assert (accepts_direct fleet_remote 1 42 ban_rights) as H by (intros n msg; discriminate).
  split; [exact H|].
  exact (safe_ban_action_accepted fleet_remote 1 42 ban_rights H).
Defined.

(** Group 3 of the fleet refuses it. *)
Lemma safe_ban_action_refused_witness :
  refuses_all fleet_remote 3 ban_rights
  /\ settles fleet_remote (fun o => o = Returned false)
       (@safe_ban_action unit 3 42 ban_rights)
  /\ forall e : env unit,
       exists e', run_task fleet_remote (safe_ban_action 3 42 ban_rights) e
                  = (KDone (Returned false), e').
Proof.
  assert (refuses_all fleet_remote 3 ban_rights) as H.
  { intros n peer. exists "CHAT_ADMIN_REQUIRED". reflexivity. }
  split; [exact H|].
  exact (safe_ban_action_refused fleet_remote 3 42 ban_rights H).
Defined.

Lemma failure_entries_refused (accepting : Scope -> bool) (groups : list Scope) :
  omap (fun g => failure_entry (if accepting g then Accepts else Refuses) g) groups
  = map scope_title
      (filter (fun g => accepting g = false /\ scope_title g <> "") groups).
Proof.
  induction groups as [|g groups IH]; [reflexivity|].
  rewrite filter_cons. cbn [omap list_omap]. rewrite IH.
  destruct (accepting g); cbn [failure_entry].
  - destruct (decide (true = false /\ scope_title g <> "")) as [[? _]|_];
      [done|reflexivity].
  - destruct (String.eqb (scope_title g) "") eqn:Ht.
    + apply String.eqb_eq in Ht.
      destruct (decide (false = false /\ scope_title g <> "")) as [[_ ?]|_];
        [done|reflexivity].
    + apply String.eqb_neq in Ht.
      destruct (decide (false = false /\ scope_title g <> "")) as [_|Hn];
        [|destruct Hn; by split].
      reflexivity.
Qed.

(** X7: a dispatch reports what Telegram granted.  When each group either
    accepts the change addressed by the bare id or refuses every change,
    then, whatever the schedule, [batch_ban_operation] over [safe_ban_action]
    returns (some continuation of the schedule reaches the return), and it
    returns the number of groups that accept, the number of groups that
    refuse, and the titles, in the order of the groups, of those that refuse
    and have a title. *)
Theorem dispatch_reports_what_telegram_granted {St} remote uid rights op
    (groups : list Scope) (accepting : Scope -> bool) (s : St) (sched : list choice) :
  Forall (fun g => if accepting g
                   then accepts_direct remote (scope_id g) uid rights
                   else refuses_all remote (scope_id g) rights) groups ->
  let start := boot s [batch_ban_operation safe_ban_action uid rights op groups] in
  (exists more acc, result (run remote (sched ++ more) start) 0 = Some (Returned acc))
  /\ (forall o, result (run remote sched start) 0 = Some o ->
      o = Returned
            (mkBatch
               (length (filter (fun g => accepting g = true) groups))
               (length (filter (fun g => accepting g = false) groups))
               (map scope_title
                  (filter (fun g => accepting g = false /\ scope_title g <> "") groups)))).
Proof.
  intros Hgroups start.
  set (verdicts := fun g => if accepting g then Accepts else Refuses).
  assert (forall g, g ∈ groups ->
            settles remote (returned_with (fun r => r = report_of (verdicts g) g))
              (process_group (@safe_ban_action St) uid rights op g)) as Hpg.
  { intros g Hg. rewrite Forall_forall in Hgroups. specialize (Hgroups g Hg).
    unfold verdicts. destruct (accepting g).
    - eapply process_group_settles;
        [exact (safe_ban_action_settles_accepted remote _ uid rights Hgroups)
        | | | |]; simpl; congruence.
    - eapply process_group_settles;
        [exact (safe_ban_action_settles_refused remote _ uid rights Hgroups)
        | | | |]; simpl; congruence. }
  destruct (batch_returns remote safe_ban_action uid rights op groups
              (fun g r => r = report_of (verdicts g) g) Hpg sched s) as [Hlive Hsafe].
  split; [exact Hlive|].
  intros o Ho. destruct (Hsafe o Ho) as (acc & results & -> & Hres & Htally).
  assert (results = map (fun g => report_of (verdicts g) g) groups) as ->.
  { clear -Hres. induction Hres; simpl; congruence. }
  rewrite tally_all_reports in Htally. injection Htally as <-. simpl.
  unfold verdicts. rewrite failure_entries_refused.
  rewrite (list_filter_iff _ (fun g => accepting g = true))
    by (intros g; by destruct (accepting g)).
  rewrite (list_filter_iff (fun g => accepted _ = false) (fun g => accepting g = false))
    by (intros g; by destruct (accepting g)).
  reflexivity.
Qed.

(** The ban over the fleet of 25 groups of which five refuse. *)
Lemma dispatch_reports_what_telegram_granted_witness :
  let start :=
    boot tt [batch_ban_operation safe_ban_action 42 ban_rights "封禁" (fleet 25)] in
  Forall (fun g => if fleet_accepting g
                   then accepts_direct fleet_remote (scope_id g) 42 ban_rights
                   else refuses_all fleet_remote (scope_id g) ban_rights) (fleet 25)
  /\ (exists more acc,
        result (run fleet_remote (round_robin 25 3 ++ more) start) 0 = Some (Returned acc))
  /\ (forall o, result (run fleet_remote (round_robin 25 3) start) 0 = Some o ->
      o = Returned
            (mkBatch
               (length (filter (fun g => fleet_accepting g = true) (fleet 25)))
               (length (filter (fun g => fleet_accepting g = false) (fleet 25)))
               (map scope_title
                  (filter (fun g => fleet_accepting g = false /\ scope_title g <> "")
                     (fleet 25))))).
Proof.
  intros start.
  assert (Forall (fun g => if fleet_accepting g
                           then accepts_direct fleet_remote (scope_id g) 42 ban_rights
                           else refuses_all fleet_remote (scope_id g) ban_rights)
            (fleet 25)) as H.
  { apply Forall_forall. intros g _. unfold fleet_accepting.
    destruct (bool_decide (scope_id g ∈ refusing)) eqn:Hg; simpl.
    - intros n peer. exists "CHAT_ADMIN_REQUIRED". simpl. by rewrite Hg.
    - intros n msg. simpl. by rewrite Hg. }
  split; [exact H|].
  exact (dispatch_reports_what_telegram_granted fleet_remote 42 ban_rights "封禁"
           (fleet 25) fleet_accepting tt (round_robin 25 3) H).
Defined.

(** The numbers of this dispatch. *)
Example fleet_accepting_counts :
  length (filter (fun g => fleet_accepting g = true) (fleet 25)) = 20%nat
  /\ length (filter (fun g => fleet_accepting g = false) (fleet 25)) = 5%nat
  /\ map scope_title
       (filter (fun g => fleet_accepting g = false /\ scope_title g <> "") (fleet 25))
     = ["group 3"; "group 7"; "group 12"; "group 22"; "group 25"].
Proof. vm_compute. auto. Qed.


(** ** What a coroutine and its tasks ask of Telegram *)

Lemma advance_keeps {St A} (P : request -> Prop) (c : task St A) e :
  asks_only P c -> store (advance c e).2 = store e.
Proof.
  intros H. revert e. induction H as [a|x|q k Hq Hk IH|m k Hk IH]; intros e; simpl; auto.
  by rewrite IH.
Qed.

Lemma resume_asks {St A} remote (P : request -> Prop) (c : task St A) cancel e :
  asks_only P c ->
  match (resume remote c cancel e).1 with
  | KNew c' | KWait c' => asks_only P c'
  | KDone _ => True
  end
  /\ store (resume remote c cancel e).2 = store e
  /\ exists evs, trace (resume remote c cancel e).2 = trace e ++ evs
                 /\ Forall (event_asks P) evs.
Proof.
  intros H. destruct H as [a|x|q k Hq Hk|m k Hk].
  - split; [exact I|]. split; [reflexivity|]. exists []. by rewrite app_nil_r.
  - split; [exact I|]. split; [reflexivity|]. exists []. by rewrite app_nil_r.
  - destruct cancel; simpl.
    + split; [apply advance_asks, Hk|].
      split; [apply (advance_keeps P), Hk | apply advance_trace, Hk].
    + split; [apply advance_asks, Hk|]. split.
      * by rewrite (advance_keeps P).
      * apply (advance_trace P _ (mkEnv (store e) (S (now e)) (trace e))), Hk.
  - change (resume remote (Log m k) cancel e) with (advance (Log m k) e).
    assert (asks_only P (Log m k)) as Hl by by constructor.
    split; [by apply advance_asks|].
    split; [by apply (advance_keeps P) | by apply advance_trace].
Qed.

Lemma step_kid_asks {St A} remote (P : request -> Prop) (k : kid St A) e :
  kid_asks P k ->
  kid_asks P (step_kid remote k e).1
  /\ store (step_kid remote k e).2 = store e
  /\ exists evs, trace (step_kid remote k e).2 = trace e ++ evs
                 /\ Forall (event_asks P) evs.
Proof.
  destruct k as [st cancel]. unfold kid_asks, step_kid. simpl.
  destruct st as [c|c|o]; simpl; intros Ha.
  - destruct cancel; simpl.
    + split; [exact I|]. split; [reflexivity|]. exists []. by rewrite app_nil_r.
    + pose proof (advance_asks P c e Ha) as H1.
      pose proof (advance_trace P c e Ha) as H2.
      pose proof (advance_keeps P c e Ha) as H3.
      destruct (advance c e) as [st e']. simpl in *. by repeat split.
  - pose proof (resume_asks remote P c cancel e Ha) as (H1 & H2 & H3).
    destruct (resume remote c cancel e) as [st e']. simpl in *. by repeat split.
  - split; [exact I|]. split; [reflexivity|]. exists []. by rewrite app_nil_r.
Qed.

Lemma kid_asks_request_cancel {St A} (P : request -> Prop) (k : kid St A) :
  kid_asks P k -> kid_asks P (request_cancel k).
Proof. unfold request_cancel. by destruct (kid_done k). Qed.

Section Footprint.
Context {St A R : Type}.
Variable remote : nat -> request -> response.
Variable P : request -> Prop.
Variable F : St -> St -> Prop.
Hypothesis F_refl : forall s, F s s.
Hypothesis F_trans : forall s1 s2 s3, F s1 s2 -> F s2 s3 -> F s1 s3.

Lemma cadvance_asks (c : coro St A R) e ks b :
  spawns_only P F c -> Forall (kid_asks P) ks ->
  thread_asks P F (cadvance c e ks b).1
  /\ F (store e) (store (cadvance c e ks b).2)
  /\ exists evs, trace (cadvance c e ks b).2 = trace e ++ evs
                 /\ Forall (event_asks P) evs.
Proof.
  intros H. revert e ks b.
  induction H as [r|x|q k Hq Hk IH|k Hk IH|f k Hf Hk IH|g k Hg Hk IH|m k Hk IH|k Hk IH
                 |cs k Hcs Hk IH|cond k Hk IH|k Hk IH|k Hk IH];
    intros e ks b Hks; cbn [cadvance].
  - split; [by split|]. split; [apply F_refl|]. exists []. by rewrite app_nil_r.
  - split; [by split|]. split; [apply F_refl|]. exists []. by rewrite app_nil_r.
  - split; [split; [by constructor | exact Hks]|]. split; [apply F_refl|].
    exists [Request q]. split; [reflexivity | by constructor].
  - apply IH, Hks.
  - destruct (IH (mkEnv (f (store e)) (now e) (trace e)) ks b Hks) as (Ht & Hs & Htr).
    split; [exact Ht|]. split; [|exact Htr]. eapply F_trans; [apply Hf | exact Hs].
  - destruct (g (store e)) as [s'|] eqn:Hgs.
    + destruct (IH (mkEnv s' (now e) (trace e)) ks b Hks) as (Ht & Hs & Htr).
      split; [exact Ht|]. split; [|exact Htr].
      eapply F_trans; [eapply Hg, Hgs | exact Hs].
    + split; [split; [by constructor | exact Hks]|]. split; [apply F_refl|].
      exists []. by rewrite app_nil_r.
  - destruct (IH (mkEnv (store e) (now e) (trace e ++ [Logged m])) ks b Hks)
      as (Ht & Hs & evs & Htr & Hevs).
    split; [exact Ht|]. split; [exact Hs|].
    exists (Logged m :: evs). simpl in Htr. rewrite Htr, <- app_assoc.
    split; [reflexivity | by constructor].
  - apply IH, Hks.
  - apply IH. apply Forall_app. split; [exact Hks|].
    apply Forall_map. eapply Forall_impl; [exact Hcs|]. by intros c Hc.
  - destruct (cond (store e) (map kid_done (drop b ks))).
    + split; [split; [by constructor | exact Hks]|]. split; [apply F_refl|].
      exists []. by rewrite app_nil_r.
    + apply IH, Hks.
  - apply IH. rewrite <- (take_drop b ks) in Hks. apply Forall_app in Hks as [H1 H2].
    apply Forall_app. split; [exact H1|].
    apply Forall_map. eapply Forall_impl; [exact H2|].
    intros k0 Hk0. by apply kid_asks_request_cancel.
  - split; [split; [by constructor | exact Hks]|]. split; [apply F_refl|].
    exists []. by rewrite app_nil_r.
Qed.

Lemma step_main_asks (t : thread St A R) e :
  thread_asks P F t ->
  thread_asks P F (step_main remote t e).1
  /\ F (store e) (store (step_main remote t e).2)
  /\ exists evs, trace (step_main remote t e).2 = trace e ++ evs
                 /\ Forall (event_asks P) evs.
Proof.
  destruct t as [m ks b]. unfold thread_asks, step_main. simpl. intros [Hm Hks].
  destruct m as [c|c|o]; simpl.
  - by apply cadvance_asks.
  - inversion Hm as [r|x|q k Hq Hk|k Hk|f k Hf Hk|g k Hg Hk|msg k Hk|k Hk
                    |cs k Hcs Hk|cond k Hk|k Hk|k Hk]; subst;
      try (by apply cadvance_asks).
    + cbn [cresume].
      apply (cadvance_asks _ (mkEnv (store e) (S (now e)) (trace e))); auto.
    + cbn [cresume]. destruct (join_results (drop b ks)) as [os|].
      * by apply cadvance_asks.
      * split; [by split|]. split; [apply F_refl|]. exists []. by rewrite app_nil_r.
  - split; [by split|]. split; [apply F_refl|]. exists []. by rewrite app_nil_r.
Qed.

Lemma step_kid_of_asks (t : thread St A R) j e :
  thread_asks P F t ->
  thread_asks P F (step_kid_of remote t j e).1
  /\ F (store e) (store (step_kid_of remote t j e).2)
  /\ exists evs, trace (step_kid_of remote t j e).2 = trace e ++ evs
                 /\ Forall (event_asks P) evs.
Proof.
  destruct t as [m ks b]. unfold thread_asks, step_kid_of. simpl. intros [Hm Hks].
  destruct (ks !! j) as [k|] eqn:Hj.
  - pose proof (step_kid_asks remote P k e (Forall_lookup_1 _ _ _ _ Hks Hj))
      as (H1 & H2 & H3).
    destruct (step_kid remote k e) as [k' e']. simpl in *.
    split; [|split; [rewrite H2; apply F_refl | exact H3]].
    split; [exact Hm|]. by apply Forall_insert.
  - split; [by split|]. split; [apply F_refl|]. exists []. by rewrite app_nil_r.
Qed.

Lemma step_asks s0 ch (σ : sys St A R) :
  sys_asks P F s0 σ -> sys_asks P F s0 (step remote ch σ).
Proof.
  intros (Hts & Htr & Hs). destruct ch as [i|i j]; simpl.
  - destruct (threads σ !! i) as [t|] eqn:Hi; [|by repeat split].
    pose proof (step_main_asks t (senv σ) (Forall_lookup_1 _ _ _ _ Hts Hi))
      as (H1 & H0 & evs & H2 & H3).
    destruct (step_main remote t (senv σ)) as [t' e']. simpl in *.
    split; simpl; [by apply Forall_insert|].
    split; [rewrite H2; by apply Forall_app | by eapply F_trans].
  - destruct (threads σ !! i) as [t|] eqn:Hi; [|by repeat split].
    pose proof (step_kid_of_asks t j (senv σ) (Forall_lookup_1 _ _ _ _ Hts Hi))
      as (H1 & H0 & evs & H2 & H3).
    destruct (step_kid_of remote t j (senv σ)) as [t' e']. simpl in *.
    split; simpl; [by apply Forall_insert|].
    split; [rewrite H2; by apply Forall_app | by eapply F_trans].
Qed.

Lemma run_asks s0 sched (σ : sys St A R) :
  sys_asks P F s0 σ -> sys_asks P F s0 (run remote sched σ).
Proof.
  revert σ. induction sched as [|ch sched IH]; intros σ H; [exact H|].
  rewrite run_cons. apply IH. by apply step_asks.
Qed.

Lemma boot_asks (s : St) (cs : list (coro St A R)) :
  Forall (spawns_only P F) cs -> sys_asks P F s (boot s cs).
Proof.
  intros H. split; simpl; [|split; [constructor | apply F_refl]].
  apply Forall_map. eapply Forall_impl; [exact H|]. intros c Hc. by split.
Qed.

End Footprint.

Lemma spawns_only_cbind {St A R R'} (P : request -> Prop) (F : St -> St -> Prop)
    (c : coro St A R) (f : R -> coro St A R') :
  spawns_only P F c -> (forall r, spawns_only P F (f r)) -> spawns_only P F (cbind c f).
Proof. induction 1; intros Hf; simpl; auto; constructor; auto. Qed.

Lemma spawns_only_ctry_except {St A R} (P : request -> Prop) (F : St -> St -> Prop)
    (c : coro St A R) h :
  spawns_only P F c -> (forall m, spawns_only P F (h m)) ->
  spawns_only P F (ctry_except c h).
Proof.
  induction 1 as [r|x|q k Hq Hk IH|k Hk IH|f k Hf Hk IH|g k Hg Hk IH|m k Hk IH|k Hk IH
                 |cs k Hcs Hk IH|cond k Hk IH|k Hk IH|k Hk IH];
    intros Hh; simpl; try (constructor; auto; fail).
  destruct x; [apply Hh | constructor].
Qed.

Lemma spawns_only_cfinally {St A R} (P : request -> Prop) (F : St -> St -> Prop)
    (c : coro St A R) f :
  spawns_only P F c -> (forall s, F s (f s)) -> spawns_only P F (cfinally c f).
Proof. induction 1; intros Hf; simpl; repeat (constructor; auto). Qed.

Lemma spawns_only_cclient {St A} (P : request -> Prop) (F : St -> St -> Prop) q :
  P q -> spawns_only P F (@cclient St A q).
Proof. intros Hq. constructor; [exact Hq|]. intros []; constructor. Qed.


Section DispatchFootprint.
Context {St : Type}.
Variables (ids : list Z) (uid : Z) (rights : ChatBannedRights).

Local Abbreviation P := (dispatch_request ids uid rights).

Lemma safe_get_entity_asks : asks_only P (@safe_get_entity St (TargetId uid)).
Proof.
  unfold safe_get_entity. apply asks_only_try_except.
  - apply asks_only_bind; [by apply asks_only_client | intros r; constructor].
  - intros m. repeat constructor.
Qed.

Lemma edit_banned_asks chat peer :
  chat ∈ ids -> asks_only P (@client St (EditBannedRequest chat peer rights)).
Proof. intros H. by apply asks_only_client. Qed.

Lemma ban_methods_asks chat : chat ∈ ids -> asks_only P (@ban_methods St chat uid rights).
Proof.
  intros H. unfold ban_methods, method3, method4, reply_participant.
  repeat first
    [ apply asks_only_try_except | apply asks_only_bind | by apply edit_banned_asks
    | apply safe_get_entity_asks | by apply asks_only_client
    | intros [ent|] | intros ? | constructor
    | match goal with
      | |- asks_only _ (match ?x with _ => _ end) => destruct x
      end ].
Qed.

Lemma safe_ban_action_asks chat :
  chat ∈ ids -> asks_only P (@safe_ban_action St chat uid rights).
Proof.
  intros H. unfold safe_ban_action. apply asks_only_try_except; [|intros m; repeat constructor].
  apply asks_only_bind; [by apply ban_methods_asks|]. intros ok.
  apply asks_only_bind; [|intros ?; constructor].
  destruct (view_messages rights) eqn:Hv; [|constructor].
  unfold delete_history.
  repeat first
    [ apply asks_only_try_except | apply asks_only_bind
    | apply safe_get_entity_asks | by apply asks_only_client
    | intros [ent|] | intros ? | constructor ].
Qed.

Lemma process_group_asks op g :
  scope_id g ∈ ids -> asks_only P (process_group (@safe_ban_action St) uid rights op g).
Proof.
  intros H. unfold process_group. apply asks_only_try_except.
  - apply asks_only_bind; [by apply safe_ban_action_asks|]. intros [|]; constructor.
  - intros m. repeat constructor.
Qed.

Lemma batch_loop_spawns op groups starts acc :
  Forall (fun g => scope_id g ∈ ids) groups ->
  spawns_only P eq (batch_loop (@safe_ban_action St) uid rights op groups starts acc).
Proof.
  intros Hg. revert acc. induction starts as [|i starts IH]; intros acc; simpl.
  - constructor.
  - unfold gather. constructor.
    + apply Forall_map. eapply Forall_impl.
      * apply Forall_take, Forall_drop, Hg.
      * intros g Hgi. by apply process_group_asks.
    + constructor. intros os. destruct (tally_all acc os); [apply IH | constructor].
Qed.

End DispatchFootprint.


(** ** The enumeration of the groups reads *)

Lemma same_but_groups_set f c : same_but_groups c (set_groups f c).
Proof. by split. Qed.

Lemma check_batches_spawns me dialogs starts found :
  spawns_only reads_only same_but_groups (check_batches me dialogs starts found).
Proof.
  revert found. induction starts as [|i starts IH]; intros found; simpl.
  - constructor.
  - unfold gather. constructor.
    + apply Forall_map, Forall_forall. intros d _.
      eapply asks_only_mono; [apply check_group_asks|]. by intros [].
    + constructor. intros os. apply IH.
Qed.

Lemma refresh_groups_spawns : spawns_only reads_only same_but_groups refresh_groups.
Proof.
  unfold refresh_groups, enumerate, store_groups.
  apply spawns_only_cbind; [by apply spawns_only_cclient|]. intros me.
  apply spawns_only_cbind; [by apply spawns_only_cclient|]. intros r.
  apply spawns_only_cbind; [destruct r; constructor|]. intros all.
  apply spawns_only_cbind; [apply check_batches_spawns|]. intros found.
  repeat (constructor; try (intros; apply same_but_groups_set)).
Qed.

Lemma get_managed_groups_spawns : spawns_only reads_only same_but_groups get_managed_groups.
Proof.
  unfold get_managed_groups, casync_with, under_lock, get_groups_error.
  apply spawns_only_ctry_except; [|intros m; repeat constructor].
  constructor. intros c. constructor. intros t.
  destruct (cache_hit c t); [constructor|].
  constructor.
  - intros s s'. unfold lock_acquire. destruct (lock (groups s)); [discriminate|].
    intros [= <-]. apply same_but_groups_set.
  - apply spawns_only_cfinally; [|intros s; apply same_but_groups_set].
    constructor. intros c'. constructor. intros t'.
    destruct (cache_hit c' t'); [constructor | apply refresh_groups_spawns].
Qed.

(** X9: However many callers of [get_managed_groups] run together, in
    whatever state of the cache (cold or warm, the lock free or held),
    whatever Telegram answers and however they are scheduled: at every
    moment every remote call made so far is [get_me], the listing of the
    dialogs or a membership lookup, so nothing is changed at Telegram; and
    the caches of the permissions and of the entities are as they were
    found. *)
Theorem get_managed_groups_only_reads remote (n : nat) (c0 : Cache) (sched : list choice) :
  let σ := run remote sched (boot c0 (replicate n get_managed_groups)) in
  Forall (event_asks reads_only) (trace (senv σ))
  /\ permissions (store (senv σ)) = permissions c0
  /\ entities (store (senv σ)) = entities c0.
Proof.
  intros σ. subst σ.
  assert (forall s, same_but_groups s s) as Hrefl by by split.
  assert (forall s1 s2 s3, same_but_groups s1 s2 -> same_but_groups s2 s3 ->
                           same_but_groups s1 s3) as Htrans.
  { intros s1 s2 s3 [H1 H2] [H3 H4]. split; congruence. }
  destruct (run_asks remote reads_only same_but_groups Hrefl Htrans c0 sched
              (boot c0 (replicate n get_managed_groups))) as (_ & Htr & Hp & He).
  - apply boot_asks; [exact Hrefl|]. apply Forall_forall. intros c Hc.
    apply elem_of_replicate in Hc as [-> _]. apply get_managed_groups_spawns.
  - by repeat split.
Qed.

(** ** A warm cache *)

Section WarmCache.
Variable remote : nat -> request -> response.
Variable c0 : Cache.
Hypothesis warm : data (groups c0) <> [].

Lemma warm_step_main t :
  served c0 t ->
  step_main remote t (mkEnv c0 0%nat [])
  = (mkThread (MDone (Returned (data (groups c0)))) [] 0%nat, mkEnv c0 0%nat []).
Proof.
  intros [->| ->]; [|reflexivity].
  unfold step_main, get_managed_groups. cbn [main kids base ctry_except cadvance store now].
  rewrite cache_hit_nonempty. apply nonempty_true in warm. rewrite warm. reflexivity.
Qed.

Lemma warm_step ch σ : warm_inv c0 σ -> warm_inv c0 (step remote ch σ).
Proof.
  intros [He Hts]. destruct ch as [i|i j]; simpl.
  - destruct (threads σ !! i) as [t|] eqn:Hi; [|by split].
    rewrite He, (warm_step_main t (Forall_lookup_1 _ _ _ _ Hts Hi)).
    split; [reflexivity|]. simpl. apply Forall_insert; [exact Hts | by right].
  - destruct (threads σ !! i) as [t|] eqn:Hi; [|by split].
    assert (step_kid_of remote t j (senv σ) = (t, senv σ)) as ->.
    { by destruct (Forall_lookup_1 _ _ _ _ Hts Hi) as [->| ->]. }
    split; [exact He|]. simpl. rewrite list_insert_id; [exact Hts | exact Hi].
Qed.

Lemma warm_run sched σ : warm_inv c0 σ -> warm_inv c0 (run remote sched σ).
Proof.
  revert σ. induction sched as [|ch sched IH]; intros σ H; [exact H|].
  rewrite run_cons. apply IH. by apply warm_step.
Qed.

Lemma warm_boot n : warm_inv c0 (boot c0 (replicate n get_managed_groups)).
Proof.
  split; [reflexivity|]. simpl. apply Forall_map, Forall_forall.
  intros c Hc. apply elem_of_replicate in Hc as [-> _]. by left.
Qed.

End WarmCache.

(** X10: When the cache holds a non-empty list of groups, [n] concurrent
    callers of [get_managed_groups] are served from it, the lock free or
    held: under every schedule nothing is asked of Telegram, nothing is
    logged or written, no task is created, a caller that has returned has
    returned the cached list, and every caller returns it at its first
    step.  The cache never expires ([CACHE_DURATION] is [None]), so what
    Telegram would answer now plays no part. *)
Theorem warm_cache_serves_every_caller remote (n : nat) (c0 : Cache) (sched : list choice) :
  data (groups c0) <> [] ->
  let start := boot c0 (replicate n get_managed_groups) in
  let σ := run remote sched start in
  senv σ = mkEnv c0 0%nat []
  /\ (forall t, t ∈ threads σ -> kids t = [])
  /\ (forall i o, result σ i = Some o -> o = Returned (data (groups c0)))
  /\ (forall i, (i < n)%nat ->
      result (run remote (sched ++ [RunMain i]) start) i
      = Some (Returned (data (groups c0)))).
Proof.
  intros Hd start σ.
  pose proof (warm_run remote c0 Hd sched start (warm_boot c0 n)) as [He Hts].
  fold σ in He, Hts.
  split; [exact He|]. split; [|split].
  - intros t Ht. rewrite Forall_forall in Hts. by destruct (Hts t Ht) as [->| ->].
  - intros i o. unfold result. destruct (threads σ !! i) as [t|] eqn:Hi; [|discriminate].
    destruct (Forall_lookup_1 _ _ _ _ Hts Hi) as [->| ->]; simpl; congruence.
  - intros i Hi. rewrite run_app. fold σ. 
    assert (length (threads σ) = n) as Hlen.
    { subst σ start. rewrite run_threads_length. simpl.
      by rewrite length_map, length_replicate. }
    destruct (lookup_lt_is_Some_2 (threads σ) i) as [t Ht]; [lia|].
    unfold run. simpl. rewrite Ht, He.
    rewrite (warm_step_main remote c0 Hd t (Forall_lookup_1 _ _ _ _ Hts Ht)).
    unfold result. simpl. rewrite list_lookup_insert_eq; [reflexivity|].
    apply lookup_lt_Some in Ht. exact Ht.
Qed.


(** X11: Refresh, then read: when a caller on a cold cache has returned a
    non-empty list [r], any number of callers started afterwards on the
    store it left are given [r] at their first step, without a remote call
    and without a change of the store, whatever Telegram would answer by
    then. *)
Theorem refreshed_groups_are_served remote (c0 : Cache) (sched : list choice)
    (r : list Managed) :
  data (groups c0) = [] -> lock (groups c0) = false ->
  result (run remote sched (boot c0 [get_managed_groups])) 0 = Some (Returned r) ->
  r <> [] ->
  let c1 := store (senv (run remote sched (boot c0 [get_managed_groups]))) in
  forall remote' (n : nat) (sched' : list choice),
    let start := boot c1 (replicate n get_managed_groups) in
    senv (run remote' sched' start) = mkEnv c1 0%nat []
    /\ (forall i o, result (run remote' sched' start) i = Some o -> o = Returned r)
    /\ (forall i, (i < n)%nat ->
        result (run remote' (sched' ++ [RunMain i]) start) i = Some (Returned r)).
Proof.
  intros Hd Hl Hres Hr c1 remote' n sched' start.
  destruct (single_caller remote c0 sched Hd Hl) as (_ & _ & _ & Hone).
  destruct (Hone _ Hres) as (r' & [= <-] & _ & Hc & _).
  fold c1 in Hc.
  assert (data (groups c1) <> []) as Hwarm by by rewrite Hc.
  pose proof (warm_run remote' c1 Hwarm sched' start (warm_boot c1 n)) as [He Hts].
  split; [exact He|]. split.
  - intros i o. unfold result.
    destruct (threads (run remote' sched' start) !! i) as [t|] eqn:Hi; [|discriminate].
    destruct (Forall_lookup_1 _ _ _ _ Hts Hi) as [->| ->]; simpl; congruence.
  - intros i Hi. rewrite run_app.
    assert (length (threads (run remote' sched' start)) = n) as Hlen.
    { subst start. rewrite run_threads_length. simpl.
      by rewrite length_map, length_replicate. }
    destruct (lookup_lt_is_Some_2 (threads (run remote' sched' start)) i) as [t Ht]; [lia|].
    unfold run at 1. simpl. rewrite Ht, He.
    rewrite (warm_step_main remote' c1 Hwarm t (Forall_lookup_1 _ _ _ _ Hts Ht)).
    unfold result. simpl. rewrite list_lookup_insert_eq, Hc; [reflexivity|].
    apply lookup_lt_Some in Ht. exact Ht.
Qed.

(** ** What the resolver leaves behind *)

Lemma resolver_hit_step remote scopes uid limit (s : Resolver) user ts nw tr :
  entities (cache s) !! pretty uid = Some (user, ts) ->
  step_main remote
    (mkThread (MNew (_resolve_user_across_groups_by_id scopes uid limit)) [] 0%nat)
    (mkEnv s nw tr)
  = (mkThread (MDone (Returned (Some user))) [] 0%nat, mkEnv s nw tr).
Proof.
  intros H. unfold step_main, _resolve_user_across_groups_by_id.
  cbn [main kids base cadvance store now]. rewrite H. reflexivity.
Qed.

(** X12: The resolver writes one thing: at every moment of a call, under
    every schedule, the group cache, the permission cache and the entity
    entries of every key other than [str(uid)] are as the call found them,
    and as long as the call has not returned the entity cache is unchanged
    as a whole. *)
Theorem resolver_frame remote (scopes : list Scope) (uid : Z)
    (per_group_limit : option nat) (s0 : Resolver) (sched : list choice) :
  let σ := run remote sched
             (boot s0 [_resolve_user_across_groups_by_id scopes uid per_group_limit]) in
  let c := cache (store (senv σ)) in
  groups c = groups (cache s0)
  /\ permissions c = permissions (cache s0)
  /\ (forall key, key <> pretty uid -> entities c !! key = entities (cache s0) !! key)
  /\ (result σ 0 = None -> entities c = entities (cache s0)).
Proof.
  intros σ c. subst c σ.
  destruct (race_run remote scopes uid per_group_limit s0 sched) as (t & e & -> & Hst).
  unfold result. cbn [senv threads lookup list_lookup].
  destruct Hst as [e Hs Htr|user ts e Hhit Hs Htr|ks e Hmiss Hks Hst|ks e Hmiss Hks Hst
                   |r ks e Hmiss Hks Hdone Hf Hr Hhope]; cbn [main].
  - rewrite Hs. by repeat split.
  - rewrite Hs. by repeat split.
  - destruct Hst as (-> & _). by repeat split.
  - destruct Hst as (-> & _). by repeat split.
  - destruct r as [u|].
    + destruct Hr as (_ & t & ->). cbn [groups permissions entities].
      split; [reflexivity|]. split; [reflexivity|]. split; [|discriminate].
      intros key Hkey. by rewrite lookup_insert_ne.
    + destruct Hr as (-> & _). split; [reflexivity|]. split; [reflexivity|].
      split; [reflexivity | discriminate].
Qed.

(** X13: Resolve, then resolve again: when a call of the resolver has
    returned the identity [u] for [uid], every later call for [uid] on the
    store it left, over whatever groups and with whatever limit, returns [u]
    at its first step; it creates no probe, asks nothing of Telegram and
    leaves the store as it is. *)
Theorem resolver_remembers remote (scopes : list Scope) (uid : Z)
    (per_group_limit : option nat) (s0 : Resolver) (sched : list choice) (u : Entity) :
  result (run remote sched
            (boot s0 [_resolve_user_across_groups_by_id scopes uid per_group_limit])) 0
  = Some (Returned (Some u)) ->
  let s1 := store (senv (run remote sched
              (boot s0 [_resolve_user_across_groups_by_id scopes uid per_group_limit]))) in
  forall remote' scopes' per_group_limit' (sched' : list choice),
    let start := boot s1 [_resolve_user_across_groups_by_id scopes' uid per_group_limit'] in
    let σ := run remote' sched' start in
    store (senv σ) = s1
    /\ trace (senv σ) = []
    /\ (forall t, t ∈ threads σ -> kids t = [])
    /\ (forall o, result σ 0 = Some o -> o = Returned (Some u))
    /\ result (run remote' (sched' ++ [RunMain 0]) start) 0 = Some (Returned (Some u)).
Proof.
  intros Hres s1 remote' scopes' limit' sched' start σ.
  assert (exists ts, entities (cache s1) !! pretty uid = Some (u, ts)) as [ts Hhit].
  { subst s1. revert Hres.
    destruct (race_run remote scopes uid per_group_limit s0 sched) as (t & e & -> & Hst).
    unfold result. cbn [senv threads lookup list_lookup].
    destruct Hst as [e Hs Htr|user ts e Hhit Hs Htr|ks e Hmiss Hks Hst|ks e Hmiss Hks Hst
                     |r ks e Hmiss Hks Hdone Hf Hr Hhope]; cbn [main]; try discriminate.
    - intros [= ->]. rewrite Hs. eauto.
    - intros [= ->]. destruct Hr as (_ & t & ->). exists t. cbn [entities].
      apply lookup_insert_eq. }
  subst σ start. rewrite run_app.
  destruct (race_run remote' scopes' uid limit' s1 sched') as (t & e & -> & Hst).
  unfold result. 
  destruct Hst as [e Hs Htr|user ts' e Hhit' Hs Htr|ks e Hmiss Hks Hst|ks e Hmiss Hks Hst
                   |r ks e Hmiss Hks Hdone Hf Hr Hhope];
    try (rewrite Hhit in Hmiss; discriminate).
  - destruct e as [s nw tr]. simpl in Hs, Htr. subst s tr.
    unfold run. cbn [foldl step threads senv lookup list_lookup].
    rewrite (resolver_hit_step remote' scopes' uid limit' s1 u ts nw [] Hhit).
    cbn [threads senv store trace lookup list_lookup main].
    split; [reflexivity|]. split; [reflexivity|]. split; [|split].
    + intros t Ht. apply list_elem_of_singleton in Ht. by subst t.
    + discriminate.
    + reflexivity.
  - rewrite Hhit in Hhit'. injection Hhit' as <- <-.
    unfold run. cbn [foldl step threads senv lookup list_lookup step_main main].
    cbn [threads senv store trace lookup list_lookup main].
    split; [exact Hs|]. split; [exact Htr|]. split; [|split].
    + intros t Ht. apply list_elem_of_singleton in Ht. by subst t.
    + congruence.
    + reflexivity.
Qed.

(** Three callers on [stale_cache], while Telegram refuses everything. *)
Lemma warm_cache_serves_every_caller_witness :
  let start := boot stale_cache (replicate 3 get_managed_groups) in
  data (groups stale_cache) <> []
  /\ senv (run flood_remote (interleaved 3 2 2) start) = mkEnv stale_cache 0%nat []
  /\ (forall i, (i < 3)%nat ->
      result (run flood_remote (interleaved 3 2 2 ++ [RunMain i]) start) i
      = Some (Returned [Group (mkScope 99 "group 99")])).
Proof.
  intros start.
  assert (data (groups stale_cache) <> []) as H by discriminate.
  split; [exact H|].
  destruct (warm_cache_serves_every_caller flood_remote 3 stale_cache (interleaved 3 2 2) H)
    as (He & _ & _ & Hl).
  split; [exact He | exact Hl].
Defined.

(** The refresh of the account with thirteen dialogs, then two callers
    while Telegram refuses everything. *)
Lemma refreshed_groups_are_served_witness :
  let seven := map (fun k => Group (mkScope k ("group " +:+ pretty k))) administered in
  let first := run seven_remote (interleaved 1 12 7) (boot cold [get_managed_groups]) in
  let start := boot (store (senv first)) (replicate 2 get_managed_groups) in
  result first 0 = Some (Returned seven)
  /\ seven <> []
  /\ trace (senv (run flood_remote (interleaved 2 1 1) start)) = []
  /\ (forall i, (i < 2)%nat ->
      result (run flood_remote (interleaved 2 1 1 ++ [RunMain i]) start) i
      = Some (Returned seven)).
Proof.
  intros seven first start.
  assert (result first 0 = Some (Returned seven)) as Hres by (vm_compute; reflexivity).
  assert (seven <> []) as Hne by discriminate.
  split; [exact Hres|]. split; [exact Hne|].
  destruct (refreshed_groups_are_served seven_remote cold (interleaved 1 12 7) seven
              eq_refl eq_refl Hres Hne flood_remote 2 (interleaved 2 1 1))
    as (He & _ & Hl).
  split; [|exact Hl]. fold first start in He. by rewrite He.
Defined.

(** The race over three groups that finds the target in group 1, then a
    second call for the same target over no group at all. *)
Lemma resolver_remembers_witness :
  let first :=
    run race_remote (until_the_match ++ after_the_match)
      (boot resolver_cold [_resolve_user_across_groups_by_id race_scopes 777 None]) in
  let start :=
    boot (store (senv first)) [_resolve_user_across_groups_by_id [] 777 (Some 5%nat)] in
  result first 0 = Some (Returned (Some target_user))
  /\ trace (senv (run flood_remote [RunKid 0 0; RunMain 0; RunMain 0] start)) = []
  /\ result (run flood_remote [RunMain 0] start) 0 = Some (Returned (Some target_user)).
Proof.
  intros first start.
  assert (result first 0 = Some (Returned (Some target_user))) as Hres
    by (vm_compute; reflexivity).
  split; [exact Hres|].
  split.
  - destruct (resolver_remembers race_remote race_scopes 777 None resolver_cold
                (until_the_match ++ after_the_match) target_user Hres
                flood_remote [] (Some 5%nat) [RunKid 0 0; RunMain 0; RunMain 0])
      as (_ & Htr & _).
    exact Htr.
  - destruct (resolver_remembers race_remote race_scopes 777 None resolver_cold
                (until_the_match ++ after_the_match) target_user Hres
                flood_remote [] (Some 5%nat) [])
      as (_ & _ & _ & _ & Hl).
    exact Hl.
Defined.

(** ** How much Telegram is asked *)

Lemma costs_mono {St A} p n n' (c : task St A) :
  costs p n c -> (n <= n')%nat -> costs p n' c.
Proof.
  intros H Hn. destruct H as [n a|n x|n m q k Hk Hm|n m msg k Hk Hm].
  - constructor.
  - constructor.
  - apply (costs_await p n' m); [exact Hk | lia].
  - apply (costs_log p n' m); [exact Hk | lia].
Qed.

Lemma costs_bind {St A B} p n m (c : task St A) (f : A -> task St B) :
  costs p n c -> (forall a, costs p m (f a)) -> costs p (n + m) (bind c f).
Proof.
  intros H Hf. induction H as [n a|n x|n m' q k Hk IH Hm|n m' msg k Hk IH Hm]; simpl.
  - eapply costs_mono; [apply Hf | lia].
  - constructor.
  - apply (costs_await p _ (m' + m)); [exact IH | lia].
  - apply (costs_log p _ (m' + m)); [exact IH | lia].
Qed.

Lemma costs_try_except {St A} p n m (c : task St A) h :
  costs p n c -> (forall msg, costs p m (h msg)) -> costs p (n + m) (try_except c h).
Proof.
  intros H Hh. induction H as [n a|n x|n m' q k Hk IH Hm|n m' msg k Hk IH Hm]; simpl.
  - constructor.
  - destruct x; [|constructor]. eapply costs_mono; [apply Hh | lia].
  - apply (costs_await p _ (m' + m)); [exact IH | lia].
  - apply (costs_log p _ (m' + m)); [exact IH | lia].
Qed.

Lemma count_events_app p tr1 tr2 :
  count_events p (tr1 ++ tr2) = (count_events p tr1 + count_events p tr2)%nat.
Proof. unfold count_events. by rewrite filter_app, length_app. Qed.

Lemma count_events_one p ev : count_events p [ev] = counted p ev.
Proof.
  unfold count_events, counted. rewrite filter_cons, filter_nil.
  destruct (p ev); by destruct (decide _).
Qed.

Lemma run_task_costs {St A} remote p n (c : task St A) e :
  costs p n c ->
  (count_events p (trace (run_task remote c e).2) <= count_events p (trace e) + n)%nat.
Proof.
  intros H. revert e.
  induction H as [n a|n x|n m q k Hk IH Hm|n m msg k Hk IH Hm]; intros e; simpl.
  - lia.
  - lia.
  - etransitivity; [apply IH|]. simpl. rewrite count_events_app, count_events_one. lia.
  - etransitivity; [apply IH|]. simpl. rewrite count_events_app, count_events_one. lia.
Qed.

Section ExecutorCosts.
Context {St : Type}.
Variable p : event -> bool.
Variables edit other : nat.
Hypothesis edit_cost : forall chat peer rights,
  (counted p (Request (EditBannedRequest chat peer rights)) <= edit)%nat.
Hypothesis other_cost : forall q,
  is_rights_change (Request q) = false -> (counted p (Request q) <= other)%nat.
Hypothesis log_cost : forall msg, counted p (Logged msg) = 0%nat.

Lemma client_costs n q : (counted p (Request q) <= n)%nat -> costs p n (@client St q).
Proof.
  intros H. apply (costs_await p n 0%nat); [|lia]. intros [[]|]; constructor.
Qed.

Lemma log_costs {A} n msg (c : task St A) : costs p n c -> costs p n (Log msg c).
Proof. intros H. apply (costs_log p n n); [exact H|]. rewrite log_cost. lia. Qed.

Lemma safe_get_entity_costs t : costs p other (@safe_get_entity St t).
Proof.
  unfold safe_get_entity. eapply costs_mono; [apply (costs_try_except p other 0)|lia].
  - destruct t; try constructor;
      (eapply costs_mono; [apply (costs_bind p other 0)|lia];
       [by apply client_costs, other_cost | intros r; constructor]).
  - intros msg. apply log_costs. constructor.
Qed.

Lemma edit_then_costs {A} chat peer rights (c : task St A) n :
  costs p n c -> costs p (edit + n) (client (EditBannedRequest chat peer rights) >> c)%task.
Proof. intros H. apply costs_bind; [apply client_costs, edit_cost | by intros _]. Qed.

Lemma method4_costs chat uid rights : costs p (other + edit) (@method4 St chat uid rights).
Proof.
  unfold method4. eapply costs_mono; [apply (costs_try_except p (other + edit) 0)|lia].
  - apply costs_bind; [apply safe_get_entity_costs|]. intros [ent|]; [|constructor].
    destruct (ent_access_hash ent) as [h|]; [|constructor].
    destruct (h =? 0); [constructor|].
    eapply costs_mono; [apply edit_then_costs with (n := 0%nat); constructor | lia].
  - intros msg. apply log_costs. constructor.
Qed.

Lemma method3_costs chat uid rights : costs p (other + edit) (@method3 St chat uid rights).
Proof.
  unfold method3. eapply costs_mono; [apply (costs_try_except p (other + edit) 0)|lia].
  - apply costs_bind; [by apply client_costs, other_cost|]. intros r.
    eapply costs_mono; [apply (costs_bind p 0 edit)|lia].
    + unfold reply_participant. destruct r; constructor.
    + intros part. destruct (peer_channel_id part); [|constructor].
      eapply costs_mono; [apply edit_then_costs with (n := 0%nat)|lia].
      apply log_costs. constructor.
  - intros msg. apply log_costs. constructor.
Qed.

Lemma ban_methods_costs chat uid rights :
  costs p (4 * edit + 3 * other) (@ban_methods St chat uid rights).
Proof.
  unfold ban_methods.
  eapply costs_mono; [apply (costs_try_except p edit (3 * edit + 3 * other))|lia].
  - eapply costs_mono; [apply edit_then_costs with (n := 0%nat); constructor | lia].
  - intros msg. apply log_costs.
    eapply costs_mono;
      [apply (costs_try_except p (other + edit) ((other + edit) + (other + edit)))|lia].
    + apply costs_bind; [apply safe_get_entity_costs|]. intros [ent|]; [|constructor].
      eapply costs_mono; [apply edit_then_costs with (n := 0%nat); constructor | lia].
    + intros msg'. apply log_costs.
      apply costs_bind; [apply method3_costs|]. intros ok.
      destruct (negb ok); [apply method4_costs | constructor].
Qed.

Lemma delete_history_costs chat uid : costs p (3 * other) (@delete_history St chat uid).
Proof.
  unfold delete_history.
  eapply costs_mono; [apply (costs_try_except p (3 * other) 0)|lia];
    [|intros msg; apply log_costs; constructor].
  eapply costs_mono; [apply (costs_try_except p other (2 * other))|lia].
  - eapply costs_mono; [apply (costs_bind p other 0)|lia];
      [by apply client_costs, other_cost | intros _; apply log_costs; constructor].
  - intros msg. apply log_costs.
    eapply costs_mono; [apply (costs_try_except p (other + other) 0)|lia].
    + apply costs_bind; [apply safe_get_entity_costs|]. intros [ent|]; [|constructor].
      eapply costs_mono; [apply (costs_bind p other 0)|lia];
        [by apply client_costs, other_cost | intros _; apply log_costs; constructor].
    + intros msg'. do 2 apply log_costs. constructor.
Qed.

Lemma safe_ban_action_costs chat uid rights :
  costs p (4 * edit + 3 * other + (if view_messages rights then 3 * other else 0))
    (@safe_ban_action St chat uid rights).
Proof.
  unfold safe_ban_action.
  set (purge := if view_messages rights then (3 * other)%nat else 0%nat).
  eapply costs_mono; [apply (costs_try_except p (4 * edit + 3 * other + purge) 0)|lia];
    [|intros msg; apply log_costs; constructor].
  apply costs_bind; [apply ban_methods_costs|]. intros ok.
  eapply costs_mono; [apply (costs_bind p purge 0)|lia]; [|intros _; constructor].
  unfold purge. destruct (view_messages rights); [apply delete_history_costs | constructor].
Qed.

End ExecutorCosts.

(** X14: [safe_ban_action] returns, whatever Telegram answers, after at
    most 7 remote calls, or 10 when the rights revoke [view_messages] and
    the history is purged; at most 4 of them are rights changes, one for
    each method. *)
Theorem safe_ban_action_bounded {St} remote chat uid rights (e : env St) :
  let r := run_task remote (safe_ban_action chat uid rights) e in
  (exists ok, r.1 = KDone (Returned ok))
  /\ (requests (trace r.2)
      <= requests (trace e) + (if view_messages rights then 10 else 7))%nat
  /\ (rights_changes (trace r.2) <= rights_changes (trace e) + 4)%nat.
Proof.
  intros r. subst r. split; [|split].
  - destruct (run_task_returns remote _ e (safe_ban_action_returns chat uid rights))
      as (ok & e' & ->). by exists ok.
  - unfold requests. etransitivity.
    + apply (run_task_costs remote is_request), (safe_ban_action_costs is_request 1 1).
      * intros. unfold counted. simpl. lia.
      * intros q _. unfold counted. simpl. lia.
      * reflexivity.
    + destruct (view_messages rights); lia.
  - change (@rights_changes) with (count_events is_rights_change). etransitivity.
    + apply (run_task_costs remote is_rights_change),
        (safe_ban_action_costs is_rights_change 1 0).
      * intros. unfold counted. simpl. lia.
      * intros q Hq. unfold counted. by rewrite Hq.
      * reflexivity.
    + destruct (view_messages rights); lia.
Qed.

(** The bounds are reached when every method is tried and fails. *)
Example safe_ban_action_bound_is_reached :
  let r := run_task worst_remote (safe_ban_action 1 777 ban_rights) (mkEnv tt 0%nat []) in
  r.1 = KDone (Returned false)
  /\ requests (trace r.2) = 10%nat
  /\ rights_changes (trace r.2) = 4%nat.
Proof. vm_compute. repeat split; reflexivity. Qed.
